(** * infectgz: the host simulation, the client reconciler and the bot
      steering of a peer-to-peer infection game, embedded from
      [src/utils/gameLogic.ts] and [src/components/GameCanvas.tsx].

    The TypeScript code computes on JavaScript [number]s.  The embedding
    is written once over an interface [Number] of the operations the code
    uses, and read at two instances:
    - [float] (IEEE 754 binary64, the kernel's primitive floats), which
      is what the program runs on and what concrete runs are evaluated on;
    - [R], exact real arithmetic, where the laws of an ordered field hold
      and the geometric properties are proved.
    Wall-clock time ([Date.now()], integer milliseconds) and the derived
    second counters are integers and are modelled in [Z]. *)

From Stdlib Require Import ZArith Reals Lra Lia Floats List Bool.
From stdpp Require Import gmap strings list.

Declare Scope num_scope.
Delimit Scope num_scope with num.

(** ** The numbers of the program *)

Class Number (N : Type) := {
  ofZ   : Z -> N;            (* an integer literal *)
  nadd  : N -> N -> N;
  nsub  : N -> N -> N;
  nmul  : N -> N -> N;
  ndiv  : N -> N -> N;
  nopp  : N -> N;            (* unary minus *)
  nsqrt : N -> N;            (* Math.sqrt *)
  nabs  : N -> N;            (* Math.abs *)
  nsign : N -> N;            (* Math.sign *)
  nmin  : N -> N -> N;       (* Math.min *)
  nmax  : N -> N -> N;       (* Math.max *)
  nltb  : N -> N -> bool;    (* a < b *)
}.

Infix "+" := nadd : num_scope.
Infix "-" := nsub : num_scope.
Infix "*" := nmul : num_scope.
Infix "/" := ndiv : num_scope.
Infix "<?" := nltb : num_scope.
Notation "a >? b" := (nltb b a) : num_scope.

(** A decimal literal [a/b] of the source, such as [0.2 = 2/10].  At
    [float] the quotient of two exactly representable integers is rounded
    once, to the double the literal denotes. *)
Definition dec {N} `{Number N} (a b : Z) : N := (ofZ a / ofZ b)%num.

(** *** binary64 *)

Module F64.

Definition ofZ (z : Z) : float :=
  match z with
  | Z0 => PrimFloat.zero
  | Zpos _ => PrimFloat.of_uint63 (Uint63.of_Z z)
  | Zneg p => PrimFloat.opp (PrimFloat.of_uint63 (Uint63.of_Z (Zpos p)))
  end.

Definition is_zero (a : float) : bool := PrimFloat.eqb a PrimFloat.zero.

(* Math.max: NaN if an argument is NaN; +0 is larger than -0. *)
Definition max (a b : float) : float :=
  if PrimFloat.ltb a b then b
  else if PrimFloat.ltb b a then a
  else if PrimFloat.eqb a b
       then (if is_zero a then PrimFloat.add a b else a)
       else PrimFloat.nan.

(* Math.min: NaN if an argument is NaN; -0 is smaller than +0. *)
Definition min (a b : float) : float :=
  if PrimFloat.ltb a b then a
  else if PrimFloat.ltb b a then b
  else if PrimFloat.eqb a b
       then (if is_zero a
             then PrimFloat.opp (PrimFloat.add (PrimFloat.opp a) (PrimFloat.opp b))
             else a)
       else PrimFloat.nan.

(* Math.sign: 1, -1, or the argument itself when it is a zero or NaN. *)
Definition sign (a : float) : float :=
  if PrimFloat.ltb PrimFloat.zero a then PrimFloat.one
  else if PrimFloat.ltb a PrimFloat.zero then PrimFloat.opp PrimFloat.one
  else a.

End F64.

#[export] Instance float_Number : Number float := {|
  ofZ := F64.ofZ;
  nadd := PrimFloat.add;
  nsub := PrimFloat.sub;
  nmul := PrimFloat.mul;
  ndiv := PrimFloat.div;
  nopp := PrimFloat.opp;
  nsqrt := PrimFloat.sqrt;
  nabs := PrimFloat.abs;
  nsign := F64.sign;
  nmin := F64.min;
  nmax := F64.max;
  nltb := PrimFloat.ltb;
|}.

(** *** exact reals *)

Module Exact.

Definition ltb (a b : R) : bool := if Rlt_dec a b then true else false.

Definition sign (a : R) : R :=
  if Rlt_dec 0 a then 1%R else if Rlt_dec a 0 then (-1)%R else 0%R.

End Exact.

#[export] Instance R_Number : Number R := {|
  ofZ := IZR;
  nadd := Rplus;
  nsub := Rminus;
  nmul := Rmult;
  ndiv := Rdiv;
  nopp := Ropp;
  nsqrt := R_sqrt.sqrt;
  nabs := Rabs;
  nsign := Exact.sign;
  nmin := Rmin;
  nmax := Rmax;
  nltb := Exact.ltb;
|}.

(** ** types.ts *)

Inductive GameState := LOBBY | COUNTDOWN | PLAYING | GAME_OVER.

Inductive Role := SURVIVOR | ZOMBIE.

#[export] Instance GameState_eq_dec : EqDecision GameState.
Proof. solve_decision. Defined.

#[export] Instance Role_eq_dec : EqDecision Role.
Proof. solve_decision. Defined.

Record Point (N : Type) := mkPoint { pt_x : N; pt_y : N }.
Arguments mkPoint {N}.
Arguments pt_x {N}.
Arguments pt_y {N}.

Record Obstacle (N : Type) := mkObstacle {
  o_x : N;
  o_y : N;
  o_width : N;
  o_height : N;
}.
Arguments mkObstacle {N}.
Arguments o_x {N}.
Arguments o_y {N}.
Arguments o_width {N}.
Arguments o_height {N}.

(** The optional fields [target?], [targetX?], [targetY?] are [option]s:
    [None] is JavaScript's [undefined]. *)
Record Player (N : Type) := mkPlayer {
  p_id : string;
  p_nickname : string;
  p_x : N;
  p_y : N;
  p_radius : N;
  p_role : Role;
  p_speed : N;
  p_isBot : bool;
  p_dx : N;
  p_dy : N;
  p_wanderAngle : N;
  p_target : option (Point N);
  p_targetX : option N;
  p_targetY : option N;
}.
Arguments mkPlayer {N}.
Arguments p_id {N}.
Arguments p_nickname {N}.
Arguments p_x {N}.
Arguments p_y {N}.
Arguments p_radius {N}.
Arguments p_role {N}.
Arguments p_speed {N}.
Arguments p_isBot {N}.
Arguments p_dx {N}.
Arguments p_dy {N}.
Arguments p_wanderAngle {N}.
Arguments p_target {N}.
Arguments p_targetX {N}.
Arguments p_targetY {N}.

(** Field updates, [p.f = v] in the source. *)
Definition set_pos {N} (p : Player N) (x y : N) : Player N :=
  mkPlayer (p_id p) (p_nickname p) x y (p_radius p) (p_role p) (p_speed p)
           (p_isBot p) (p_dx p) (p_dy p) (p_wanderAngle p) (p_target p)
           (p_targetX p) (p_targetY p).

Definition set_vel {N} (p : Player N) (dx dy : N) : Player N :=
  mkPlayer (p_id p) (p_nickname p) (p_x p) (p_y p) (p_radius p) (p_role p)
           (p_speed p) (p_isBot p) dx dy (p_wanderAngle p) (p_target p)
           (p_targetX p) (p_targetY p).

Definition set_role {N} (p : Player N) (r : Role) : Player N :=
  mkPlayer (p_id p) (p_nickname p) (p_x p) (p_y p) (p_radius p) r
           (p_speed p) (p_isBot p) (p_dx p) (p_dy p) (p_wanderAngle p)
           (p_target p) (p_targetX p) (p_targetY p).

Definition set_target {N} (p : Player N) (t : option (Point N)) : Player N :=
  mkPlayer (p_id p) (p_nickname p) (p_x p) (p_y p) (p_radius p) (p_role p)
           (p_speed p) (p_isBot p) (p_dx p) (p_dy p) (p_wanderAngle p) t
           (p_targetX p) (p_targetY p).

(** A [Player] passed where a [Point] is expected. *)
Definition pos {N} (p : Player N) : Point N := mkPoint (p_x p) (p_y p).

(** ** constants.ts *)

Section Constants.
Context {N : Type} `{Number N}.

Definition MAP_WIDTH : N := ofZ 2500.
Definition MAP_HEIGHT : N := ofZ 2500.
Definition PLAYER_RADIUS : N := ofZ 15.
Definition PLAYER_SPEED : N := dec 45 10.
Definition ZOMBIE_SPEED_MULTIPLIER : N := ofZ 1.
Definition VIEW_DISTANCE : N := ofZ 320.
End Constants.

Definition COUNTDOWN_TIME : Z := 5.
Definition GAME_DURATION : Z := 180.


(** The outcome of a call that may throw: [bot.target!.y] with
    [bot.target] undefined is a [TypeError] at run time (the [!] is erased
    by the compiler). *)
Inductive Outcome (A : Type) :=
| Ok (a : A)
| TypeError.
Arguments Ok {A}.
Arguments TypeError {A}.

(** [Math.atan2], [Math.cos] and [Math.sin], taken as they come. *)
Record MathLib (N : Type) := mkMathLib {
  atan2 : N -> N -> N;
  cos : N -> N;
  sin : N -> N;
}.
Arguments atan2 {N}.
Arguments cos {N}.
Arguments sin {N}.

(** ** utils/gameLogic.ts *)

Section GameLogic.
Context {N : Type} `{Number N}.
Local Open Scope num_scope.

(** [Math.random()] is a stream [rnd] of numbers read at a counter that
    every call advances. *)
Definition Random := nat -> N.

(* Math.pow(v, 2) *)
Definition pow2 (v : N) : N := v * v.

Definition getDistance (p1 p2 : Point N) : N :=
  nsqrt (pow2 (pt_x p1 - pt_x p2) + pow2 (pt_y p1 - pt_y p2)).

Definition clamp (value min max : N) : N := nmin (nmax value min) max.

Definition lerp (start end_ t : N) : N := start + (end_ - start) * t.

Definition getLineRectIntersection (p1 p2 : Point N) (obs : Obstacle N)
    (padding : N) : option (Point N * Obstacle N) :=
  let minX := nmin (pt_x p1) (pt_x p2) in
  let maxX := nmax (pt_x p1) (pt_x p2) in
  let minY := nmin (pt_y p1) (pt_y p2) in
  let maxY := nmax (pt_y p1) (pt_y p2) in
  let obsLeft := o_x obs - padding in
  let obsRight := o_x obs + o_width obs + padding in
  let obsTop := o_y obs - padding in
  let obsBottom := o_y obs + o_height obs + padding in
  if (maxX <? obsLeft) || (minX >? obsRight)
     || (maxY <? obsTop) || (minY >? obsBottom)
  then None
  else
    let midX := (pt_x p1 + pt_x p2) / ofZ 2 in
    let midY := (pt_y p1 + pt_y p2) / ofZ 2 in
    if (midX >? obsLeft) && (midX <? obsRight)
       && (midY >? obsTop) && (midY <? obsBottom)
    then Some (mkPoint midX midY, obs)
    else None.

(** *** Generation *)

Definition safeZoneRadius : N := ofZ 250.
Definition WALL_COUNT_LOCAL : nat := 50.
Definition DEBRIS_COUNT_LOCAL : nat := 80.

Definition mapCenter : Point N :=
  mkPoint (MAP_WIDTH / ofZ 2) (MAP_HEIGHT / ofZ 2).

(* the first [for] loop, [n] iterations left; four draws per iteration *)
Fixpoint wallLoop (n : nat) (rnd : Random) (k : nat)
    (obstacles : list (Obstacle N)) : nat * list (Obstacle N) :=
  match n with
  | O => (k, obstacles)
  | S n' =>
    let isHorizontal := rnd k >? dec 5 10 in
    let length_ := rnd (k + 1)%nat * ofZ 400 + ofZ 100 in
    let thickness := ofZ 40 in
    let width := if isHorizontal then length_ else thickness in
    let height := if isHorizontal then thickness else length_ in
    let x := rnd (k + 2)%nat * (MAP_WIDTH - width) in
    let y := rnd (k + 3)%nat * (MAP_HEIGHT - height) in
    let centerDist :=
      getDistance (mkPoint (x + width / ofZ 2) (y + height / ofZ 2))
                  mapCenter in
    if centerDist <? safeZoneRadius
    then wallLoop n' rnd (k + 4)%nat obstacles
    else wallLoop n' rnd (k + 4)%nat
           (obstacles ++ [mkObstacle x y width height])
  end.

(* the second [for] loop; three draws per iteration *)
Fixpoint debrisLoop (n : nat) (rnd : Random) (k : nat)
    (obstacles : list (Obstacle N)) : nat * list (Obstacle N) :=
  match n with
  | O => (k, obstacles)
  | S n' =>
    let size := rnd k * ofZ 50 + ofZ 30 in
    let x := rnd (k + 1)%nat * (MAP_WIDTH - size) in
    let y := rnd (k + 2)%nat * (MAP_HEIGHT - size) in
    let centerDist :=
      getDistance (mkPoint (x + size / ofZ 2) (y + size / ofZ 2))
                  mapCenter in
    if centerDist <? safeZoneRadius
    then debrisLoop n' rnd (k + 3)%nat obstacles
    else debrisLoop n' rnd (k + 3)%nat
           (obstacles ++ [mkObstacle x y size size])
  end.

Definition generateObstacles (rnd : Random) : list (Obstacle N) :=
  let '(k, walls) := wallLoop WALL_COUNT_LOCAL rnd 0%nat [] in
  snd (debrisLoop DEBRIS_COUNT_LOCAL rnd k walls).

(** *** Physics *)

(* the two clamps that open [resolveCollision] *)
Definition clampToMap (player : Player N) : Player N :=
  let x := clamp (p_x player) (p_radius player)
                 (MAP_WIDTH - p_radius player) in
  let y := clamp (p_y player) (p_radius player)
                 (MAP_HEIGHT - p_radius player) in
  set_pos player x y.

(* one iteration of the loop over the obstacles *)
Definition pushOut (player : Player N) (obs : Obstacle N) : Player N :=
  if (p_x player + p_radius player <? o_x obs)
     || (p_x player - p_radius player >? o_x obs + o_width obs)
     || (p_y player + p_radius player <? o_y obs)
     || (p_y player - p_radius player >? o_y obs + o_height obs)
  then player
  else
    let closestX := clamp (p_x player) (o_x obs) (o_x obs + o_width obs) in
    let closestY := clamp (p_y player) (o_y obs) (o_y obs + o_height obs) in
    let dx := p_x player - closestX in
    let dy := p_y player - closestY in
    let distanceSquared := dx * dx + dy * dy in
    if (distanceSquared <? p_radius player * p_radius player)
       && (distanceSquared >? dec 1 10000)
    then
      let distance := nsqrt distanceSquared in
      let overlap := p_radius player - distance in
      let nx := dx / distance in
      let ny := dy / distance in
      set_pos player (p_x player + nx * overlap) (p_y player + ny * overlap)
    else player.

Definition resolveCollision (player : Player N)
    (obstacles : list (Obstacle N)) : Player N :=
  fold_left pushOut obstacles (clampToMap player).

(** *** AI logic (steering with sliding) *)

Variable M : MathLib N.

Definition baseSpeedOf (role : Role) : N :=
  if decide (role = ZOMBIE)
  then PLAYER_SPEED * ZOMBIE_SPEED_MULTIPLIER
  else PLAYER_SPEED.

(** The variables of step 1.  [nearestDist] starts at [Infinity], here
    [None]: the test [d < nearestDist] comes after [d < viewRange], which
    only a finite [d] passes. *)
Record Perception := mkPerception {
  sepX : N;
  sepY : N;
  neighborCount : nat;
  nearestEnemy : option (Player N);
  nearestDist : option N;
}.

Definition isEnemy (bot other : Player N) : bool :=
  (bool_decide (p_role bot = ZOMBIE) && bool_decide (p_role other = SURVIVOR))
  || (bool_decide (p_role bot = SURVIVOR) && bool_decide (p_role other = ZOMBIE)).

(* the vision raycast: some obstacle blocks the line of sight *)
Definition visionBlocked (bot other : Player N)
    (obstacles : list (Obstacle N)) : bool :=
  existsb (fun obs =>
             bool_decide (is_Some
               (getLineRectIntersection (pos bot) (pos other) obs (ofZ 5))))
          obstacles.

(* the body of the loop over [allPlayers] *)
Definition perceive (bot : Player N) (obstacles : list (Obstacle N))
    (acc : Perception) (other : Player N) : Perception :=
  if decide (p_id bot = p_id other) then acc
  else
    let d := getDistance (pos bot) (pos other) in
    let separationRadius := ofZ 60 in
    let acc1 :=
      if d <? separationRadius then
        let force := (separationRadius - d) / separationRadius in
        mkPerception
          (sepX acc + (p_x bot - p_x other) / (d + dec 1 10) * force)
          (sepY acc + (p_y bot - p_y other) / (d + dec 1 10) * force)
          (S (neighborCount acc)) (nearestEnemy acc) (nearestDist acc)
      else acc in
    if isEnemy bot other then
      let viewRange :=
        if decide (p_role bot = SURVIVOR)
        then VIEW_DISTANCE * dec 15 10
        else VIEW_DISTANCE * dec 13 10 in
      if (d <? viewRange)
         && match nearestDist acc1 with
            | None => true
            | Some nd => d <? nd
            end
      then
        let blocked :=
          if d >? ofZ 60 then visionBlocked bot other obstacles else false in
        if negb blocked
        then mkPerception (sepX acc1) (sepY acc1) (neighborCount acc1)
                          (Some other) (Some d)
        else acc1
      else acc1
    else acc1.

(* the [while (!valid && tries < 10)] loop, [fuel = 10 - tries] *)
Fixpoint sampleTarget (fuel : nat) (bot : Player N) (rnd : Random)
    (k : nat) : Player N * nat :=
  match fuel with
  | O => (bot, k)
  | S fuel' =>
    let tx := rnd k * (MAP_WIDTH - ofZ 100) + ofZ 50 in
    let ty := rnd (k + 1)%nat * (MAP_HEIGHT - ofZ 100) + ofZ 50 in
    if getDistance (pos bot) (mkPoint tx ty) >? ofZ 400
    then (set_target bot (Some (mkPoint tx ty)), (k + 2)%nat)
    else sampleTarget fuel' bot rnd (k + 2)%nat
  end.

(* the roam branch up to the dereference [bot.target!] *)
Definition roam (bot : Player N) (rnd : Random) (k : nat)
    : Outcome (Player N * nat * (N * N)) :=
  let '(bot1, k1) :=
    match p_target bot with
    | None => sampleTarget 10 bot rnd k
    | Some t =>
      if getDistance (pos bot) t <? ofZ 60
      then sampleTarget 10 bot rnd k
      else (bot, k)
    end in
  match p_target bot1 with
  | None => TypeError
  | Some t =>
    let angle := atan2 M (pt_y t - p_y bot1) (pt_x t - p_x bot1) in
    Ok (bot1, k1, (cos M angle, sin M angle))
  end.

(* step 2: the raw desired direction *)
Definition intent (bot : Player N) (nearest : option (Player N))
    (rnd : Random) (k : nat) : Outcome (Player N * nat * (N * N)) :=
  match nearest with
  | Some enemy =>
    let angle := atan2 M (p_y enemy - p_y bot) (p_x enemy - p_x bot) in
    let t :=
      if decide (p_role bot = ZOMBIE)
      then (cos M angle, sin M angle)
      else (nopp (cos M angle), nopp (sin M angle)) in
    let bot1 := if rnd k <? dec 5 1000 then set_target bot None else bot in
    Ok (bot1, S k, t)
  | None => roam bot rnd k
  end.

(* if (len > 0.001) { targetX /= len; targetY /= len } *)
Definition normalize (v : N * N) : N * N :=
  let len := nsqrt (fst v * fst v + snd v * snd v) in
  if len >? dec 1 1000 then (fst v / len, snd v / len) else v.

Definition lookAhead : N := ofZ 60.

(* the loop that looks for the first wall on the desired path *)
Fixpoint findWallHit (bot : Player N) (pNext : Point N)
    (obstacles : list (Obstacle N)) : option (Obstacle N) :=
  match obstacles with
  | [] => None
  | obs :: rest =>
    if (p_x bot + lookAhead <? o_x obs)
       || (p_x bot - lookAhead >? o_x obs + o_width obs)
    then findWallHit bot pNext rest
    else
      match getLineRectIntersection (pos bot) pNext obs (ofZ 10) with
      | Some _ => Some obs
      | None => findWallHit bot pNext rest
      end
  end.

(* the axis-aligned surface normal of the wall that was hit *)
Definition surfaceNormal (bot : Player N) (wallHit : Obstacle N) : N * N :=
  let dx := p_x bot - (o_x wallHit + o_width wallHit / ofZ 2) in
  let dy := p_y bot - (o_y wallHit + o_height wallHit / ofZ 2) in
  let hw := o_width wallHit / ofZ 2 in
  let hh := o_height wallHit / ofZ 2 in
  let ox := nabs dx - hw in
  let oy := nabs dy - hh in
  if ox >? oy then (nsign dx, ofZ 0) else (ofZ 0, nsign dy).

(* step 3, the body of [if (wallHit)] *)
Definition wallSlide (bot : Player N) (wallHit : Obstacle N)
    (target : N * N) : N * N :=
  let '(nx, ny) := surfaceNormal bot wallHit in
  let '(targetX, targetY) := target in
  let dot := targetX * nx + targetY * ny in
  if dot <? ofZ 0 then
    let targetX1 := targetX - nx * dot in
    let targetY1 := targetY - ny * dot in
    let targetX2 := targetX1 + nx * dec 5 10 in
    let targetY2 := targetY1 + ny * dec 5 10 in
    normalize (targetX2, targetY2)
  else (targetX, targetY).

Definition updateBot (bot : Player N) (allPlayers : list (Player N))
    (obstacles : list (Obstacle N)) (rnd : Random) (k : nat)
    : Outcome (Player N * nat) :=
  if negb (p_isBot bot) then Ok (bot, k)
  else
    let baseSpeed := baseSpeedOf (p_role bot) in
    (* 1. perception and separation *)
    let seen :=
      fold_left (perceive bot obstacles) allPlayers
                (mkPerception (ofZ 0) (ofZ 0) O None None) in
    let '(sepX, sepY) :=
      if (0 <? neighborCount seen)%nat
      then (sepX seen / ofZ (Z.of_nat (neighborCount seen)),
            sepY seen / ofZ (Z.of_nat (neighborCount seen)))
      else (sepX seen, sepY seen) in
    (* 2. raw desired direction *)
    match intent bot (nearestEnemy seen) rnd k with
    | TypeError => TypeError
    | Ok (bot1, k1, (targetX, targetY)) =>
      let target1 :=
        normalize (targetX + sepX * ofZ 2, targetY + sepY * ofZ 2) in
      (* 3. wall sliding *)
      let pNext := mkPoint (p_x bot1 + fst target1 * lookAhead)
                           (p_y bot1 + snd target1 * lookAhead) in
      let wallHit := findWallHit bot1 pNext obstacles in
      let target2 :=
        match wallHit with
        | Some w => wallSlide bot1 w target1
        | None => target1
        end in
      (* 4. apply *)
      let smoothing :=
        match wallHit with Some _ => dec 5 10 | None => dec 1 10 end in
      let bot2 := set_vel bot1 (lerp (p_dx bot1) (fst target2) smoothing)
                               (lerp (p_dy bot1) (snd target2) smoothing) in
      let bot3 := set_pos bot2 (p_x bot2 + p_dx bot2 * baseSpeed)
                               (p_y bot2 + p_dy bot2 * baseSpeed) in
      Ok (resolveCollision bot3 obstacles, k1)
    end.

End GameLogic.

(** ** components/GameCanvas.tsx: the host *)

Inductive Reason := INFECTED | SURVIVED | TIME_UP.

#[export] Instance Reason_eq_dec : EqDecision Reason.
Proof. solve_decision. Defined.

Record StatePayload (N : Type) := mkStatePayload {
  sp_players : list (Player N);
  sp_timeLeft : Z;
  sp_gameState : GameState;
  sp_obstacles : list (Obstacle N);
}.
Arguments mkStatePayload {N}.
Arguments sp_players {N}.
Arguments sp_timeLeft {N}.
Arguments sp_gameState {N}.
Arguments sp_obstacles {N}.

(** The packets a host sends. *)
Inductive Packet (N : Type) :=
| PktWelcome (payload : StatePayload N)
| PktState (payload : StatePayload N)
| PktGameOver (reason : Reason).
Arguments PktWelcome {N}.
Arguments PktState {N}.
Arguments PktGameOver {N}.

(** The refs and the React state the host logic reads and writes. *)
Record Host (N : Type) := mkHost {
  h_myId : string;                         (* myIdRef *)
  h_players : list (Player N);             (* playersRef *)
  h_obstacles : list (Obstacle N);         (* obstaclesRef *)
  h_gameState : GameState;                 (* gameStateRef *)
  h_clientInputs : gmap string (N * N);    (* clientInputsRef *)
  h_gameStartTime : Z;                     (* gameStartTimeRef, ms *)
  h_timeLeft : Z;                          (* setTimeLeft *)
  h_stats : nat * nat;                     (* setStats: survivors, zombies *)
  h_gameOverReason : Reason;               (* setGameOverReason *)
}.
Arguments mkHost {N}.
Arguments h_myId {N}.
Arguments h_players {N}.
Arguments h_obstacles {N}.
Arguments h_gameState {N}.
Arguments h_clientInputs {N}.
Arguments h_gameStartTime {N}.
Arguments h_timeLeft {N}.
Arguments h_stats {N}.
Arguments h_gameOverReason {N}.

(** What one animation frame brings from outside: the clock, the value
    [getLocalInput()] returns, and the value of the state variable
    [timeLeft] in the closure that runs the frame. *)
Record Frame (N : Type) := mkFrame {
  f_now : Z;
  f_localInput : N * N;
  f_timeLeftSeen : Z;
}.
Arguments mkFrame {N}.
Arguments f_now {N}.
Arguments f_localInput {N}.
Arguments f_timeLeftSeen {N}.

Section HostLogic.
Context {N : Type} `{Number N}.
Local Open Scope num_scope.

Definition endGame (h : Host N) (reason : Reason) : Host N * list (Packet N) :=
  (mkHost (h_myId h) (h_players h) (h_obstacles h) GAME_OVER
          (h_clientInputs h) (h_gameStartTime h) (h_timeLeft h) (h_stats h)
          reason,
   [PktGameOver reason]).

(** [startGame], with [zombieIdx] the value of
    [Math.floor(Math.random() * players.length)], an index of the list. *)
Definition startGame (h : Host N) (now : Z) (zombieIdx : nat) : Host N :=
  mkHost (h_myId h)
         (alter (fun p => set_role p ZOMBIE) zombieIdx (h_players h))
         (h_obstacles h) PLAYING (h_clientInputs h) now (h_timeLeft h)
         (h_stats h) (h_gameOverReason h).

(* the timer block of [updateHost] *)
Definition timeLeftAt (h : Host N) (now : Z) : Z :=
  let elapsed := ((now - h_gameStartTime h) / 1000)%Z in
  Z.max 0 (GAME_DURATION - elapsed).

Definition runTimer (h : Host N) (now : Z) : Host N * list (Packet N) :=
  if decide (h_gameState h = PLAYING) then
    let left := timeLeftAt h now in
    let h1 := mkHost (h_myId h) (h_players h) (h_obstacles h) (h_gameState h)
                     (h_clientInputs h) (h_gameStartTime h) left (h_stats h)
                     (h_gameOverReason h) in
    if (left <=? 0)%Z then endGame h1 TIME_UP else (h1, [])
  else (h, []).

(* p.dx = lerp(p.dx, dx, 0.2); p.dy = lerp(p.dy, dy, 0.2) *)
Definition smoothVelocity (p : Player N) (dx dy : N) : Player N :=
  set_vel p (lerp (p_dx p) dx (dec 2 10)) (lerp (p_dy p) dy (dec 2 10)).

(* if (Math.abs(p.dx) < 0.01) p.dx = 0; if (Math.abs(p.dy) < 0.01) p.dy = 0 *)
Definition snapVelocity (p : Player N) : Player N :=
  let dx := if nabs (p_dx p) <? dec 1 100 then ofZ 0 else p_dx p in
  let dy := if nabs (p_dy p) <? dec 1 100 then ofZ 0 else p_dy p in
  set_vel p dx dy.

(* the body of the first [players.forEach] *)
Definition movePlayer (h : Host N) (localInput : N * N) (p : Player N)
    : Player N :=
  let '(dx, dy) :=
    if decide (p_id p = h_myId h) then localInput
    else match h_clientInputs h !! p_id p with
         | Some input => input
         | None => (ofZ 0, ofZ 0)
         end in
  let p1 := smoothVelocity p dx dy in
  let speed := baseSpeedOf (p_role p1) in
  let p2 := snapVelocity p1 in
  let p3 := set_pos p2 (p_x p2 + p_dx p2 * speed) (p_y p2 + p_dy p2 * speed) in
  resolveCollision p3 (h_obstacles h).

(* the [for (const z of zombiePlayers)] loop with its [break] *)
Definition touchesZombie (p : Player N) (zombiePlayers : list (Player N))
    : bool :=
  existsb (fun z =>
             getDistance (pos p) (pos z)
             <? (p_radius p + p_radius z) * dec 8 10)
          zombiePlayers.

(* if (p.role === Role.SURVIVOR) { ... p.role = Role.ZOMBIE ... } *)
Definition infect (zombiePlayers : list (Player N)) (p : Player N)
    : Player N :=
  if decide (p_role p = SURVIVOR) then
    if touchesZombie p zombiePlayers then set_role p ZOMBIE else p
  else p.

(* the body of the second [players.forEach]: count, then infect *)
Definition infectStep (zombiePlayers : list (Player N))
    (acc : nat * nat * list (Player N)) (p : Player N)
    : nat * nat * list (Player N) :=
  let '(survivors, zombies, done) := acc in
  let '(survivors1, zombies1) :=
    if decide (p_role p = SURVIVOR) then (S survivors, zombies)
    else (survivors, S zombies) in
  (survivors1, zombies1, done ++ [infect zombiePlayers p]).

(* the infection block of [updateHost] *)
Definition runInfection (h : Host N) : Host N * list (Packet N) :=
  if decide (h_gameState h = PLAYING) then
    let players := h_players h in
    let zombiePlayers :=
      filter (fun p => p_role p = ZOMBIE) players in
    let '(survivors, zombies, players1) :=
      fold_left (infectStep zombiePlayers) players (O, O, []) in
    let h1 := mkHost (h_myId h) players1 (h_obstacles h) (h_gameState h)
                     (h_clientInputs h) (h_gameStartTime h) (h_timeLeft h)
                     (survivors, zombies) (h_gameOverReason h) in
    if bool_decide (survivors = O) && (1 <? length players)%nat
    then endGame h1 INFECTED
    else (h1, [])
  else (h, []).

(** One frame of the host.  The result lists the packets broadcast, in
    order. *)
Definition updateHost (h : Host N) (f : Frame N) : Host N * list (Packet N) :=
  if decide (h_gameState h = GAME_OVER) then (h, [])
  else
    let '(h1, out1) := runTimer h (f_now f) in
    let h2 := mkHost (h_myId h1)
                     (map (movePlayer h1 (f_localInput f)) (h_players h1))
                     (h_obstacles h1) (h_gameState h1) (h_clientInputs h1)
                     (h_gameStartTime h1) (h_timeLeft h1) (h_stats h1)
                     (h_gameOverReason h1) in
    let '(h3, out3) := runInfection h2 in
    let payload := mkStatePayload (h_players h3) (f_timeLeftSeen f)
                                  (h_gameState h3) [] in
    (h3, out1 ++ out3 ++ [PktState payload]).

(** What happens on the host between two frames, as far as roles and the
    match clock go. *)
Inductive HostEvent :=
| EvFrame (f : Frame N)                          (* [loop] ran [updateHost] *)
| EvStartGame (now : Z) (zombieIdx : nat)        (* the countdown ended *)
| EvInput (peer : string) (dx dy : N).           (* an INPUT packet came *)

Definition onInput (h : Host N) (peer : string) (dx dy : N) : Host N :=
  mkHost (h_myId h) (h_players h) (h_obstacles h) (h_gameState h)
         (<[peer := (dx, dy)]> (h_clientInputs h)) (h_gameStartTime h)
         (h_timeLeft h) (h_stats h) (h_gameOverReason h).

Definition hostStep (h : Host N) (e : HostEvent) : Host N * list (Packet N) :=
  match e with
  | EvFrame f => updateHost h f
  | EvStartGame now zombieIdx => (startGame h now zombieIdx, [])
  | EvInput peer dx dy => (onInput h peer dx dy, [])
  end.

(* a run of the host, with everything it broadcast *)
Fixpoint hostRun (h : Host N) (es : list HostEvent)
    : Host N * list (Packet N) :=
  match es with
  | [] => (h, [])
  | e :: rest =>
    let '(h1, out1) := hostStep h e in
    let '(h2, out2) := hostRun h1 rest in
    (h2, out1 ++ out2)
  end.

End HostLogic.

(** ** components/GameCanvas.tsx: the client

    The client keeps [Player] objects and mutates them in place; the array
    [playersRef.current] holds references, and one object may sit at several
    indices.  The objects live in a store [c_heap], the array is the list
    [c_players] of their addresses. *)

Record Client (N : Type) := mkClient {
  c_heap : gmap nat (Player N);
  c_players : list nat;                    (* playersRef *)
  c_obstacles : list (Obstacle N);         (* obstaclesRef *)
  c_gameState : GameState;                 (* gameStateRef *)
  c_timeLeft : Z;                          (* setTimeLeft *)
  c_stats : nat * nat;                     (* setStats *)
  c_gameOverReason : Reason;               (* setGameOverReason *)
}.
Arguments mkClient {N}.
Arguments c_heap {N}.
Arguments c_players {N}.
Arguments c_obstacles {N}.
Arguments c_gameState {N}.
Arguments c_timeLeft {N}.
Arguments c_stats {N}.
Arguments c_gameOverReason {N}.

Section ClientLogic.
Context {N : Type}.

(** The array as the renderer reads it: the objects behind the references. *)
Definition clientPlayers (c : Client N) : list (Player N) :=
  omap (fun l => c_heap c !! l) (c_players c).

(** [new Map(playersRef.current.map(p => [p.id, p]))]: a later entry with
    the same key replaces an earlier one. *)
Definition addEntry (heap : gmap nat (Player N)) (m : gmap string nat)
    (l : nat) : gmap string nat :=
  match heap !! l with
  | Some p => <[p_id p := l]> m
  | None => m
  end.

Definition currentMapOf (heap : gmap nat (Player N)) (players : list nat)
    : gmap string nat :=
  fold_left (addEntry heap) players ∅.

(* local.targetX = sp.x; local.targetY = sp.y; local.role = sp.role;
   local.nickname = sp.nickname *)
Definition retarget (sp local : Player N) : Player N :=
  mkPlayer (p_id local) (p_nickname sp) (p_x local) (p_y local)
           (p_radius local) (p_role sp) (p_speed local) (p_isBot local)
           (p_dx local) (p_dy local) (p_wanderAngle local) (p_target local)
           (Some (p_x sp)) (Some (p_y sp)).

(* { ...sp, targetX: sp.x, targetY: sp.y } *)
Definition adopt (sp : Player N) : Player N :=
  mkPlayer (p_id sp) (p_nickname sp) (p_x sp) (p_y sp) (p_radius sp)
           (p_role sp) (p_speed sp) (p_isBot sp) (p_dx sp) (p_dy sp)
           (p_wanderAngle sp) (p_target sp) (Some (p_x sp)) (Some (p_y sp)).

(** [serverPlayers.map(sp => ...)]: the callback runs on the entries in
    order, writes through to the local object when there is one, and
    creates an object otherwise. *)
Fixpoint reconcile (currentMap : gmap string nat)
    (heap : gmap nat (Player N)) (serverPlayers : list (Player N))
    : gmap nat (Player N) * list nat :=
  match serverPlayers with
  | [] => (heap, [])
  | sp :: rest =>
    match currentMap !! p_id sp with
    | Some l =>
      let '(heap1, ls) :=
        reconcile currentMap (alter (retarget sp) l heap) rest in
      (heap1, l :: ls)
    | None =>
      let l := fresh (dom heap) in
      let '(heap1, ls) :=
        reconcile currentMap (<[l := adopt sp]> heap) rest in
      (heap1, l :: ls)
    end
  end.

(* the survivor and zombie counts shown in the HUD *)
Definition countRoles (ps : list (Player N)) : nat * nat :=
  fold_left (fun '(s, z) p =>
               if decide (p_role p = SURVIVOR) then (S s, z) else (s, S z))
            ps (O, O).

(* if (packet.type === 'STATE') *)
Definition onState (c : Client N) (payload : StatePayload N) : Client N :=
  let currentMap := currentMapOf (c_heap c) (c_players c) in
  let '(heap1, players1) :=
    reconcile currentMap (c_heap c) (sp_players payload) in
  let c1 := mkClient heap1 players1 (c_obstacles c) (sp_gameState payload)
                     (sp_timeLeft payload) (c_stats c) (c_gameOverReason c) in
  mkClient heap1 players1 (c_obstacles c) (sp_gameState payload)
           (sp_timeLeft payload) (countRoles (clientPlayers c1))
           (c_gameOverReason c).

(* the objects of a packet that has just been decoded are new *)
Fixpoint allocAll (heap : gmap nat (Player N)) (ps : list (Player N))
    : gmap nat (Player N) * list nat :=
  match ps with
  | [] => (heap, [])
  | p :: rest =>
    let l := fresh (dom heap) in
    let '(heap1, ls) := allocAll (<[l := p]> heap) rest in
    (heap1, l :: ls)
  end.

(* if (packet.type === 'WELCOME') *)
Definition onWelcome (c : Client N) (payload : StatePayload N) : Client N :=
  let '(heap1, players1) := allocAll (c_heap c) (sp_players payload) in
  mkClient heap1 players1 (sp_obstacles payload) (sp_gameState payload)
           (c_timeLeft c) (c_stats c) (c_gameOverReason c).

(* if (packet.type === 'GAME_OVER') *)
Definition onGameOver (c : Client N) (reason : Reason) : Client N :=
  mkClient (c_heap c) (c_players c) (c_obstacles c) GAME_OVER (c_timeLeft c)
           (c_stats c) reason.

Definition onData (c : Client N) (packet : Packet N) : Client N :=
  match packet with
  | PktWelcome payload => onWelcome c payload
  | PktState payload => onState c payload
  | PktGameOver reason => onGameOver c reason
  end.

End ClientLogic.

(** ** components/GameCanvas.tsx: input, spawning, the session *)

(** The strict equality [a === b] of two numbers, for the tests
    [x !== 0] of [getLocalInput]. *)
Class NumberEq (N : Type) := {
  neqb : N -> N -> bool;
}.

#[export] Instance float_NumberEq : NumberEq float := {|
  neqb := PrimFloat.eqb;
|}.

#[export] Instance R_NumberEq : NumberEq R := {|
  neqb := fun a b => if Req_dec_T a b then true else false;
|}.

(** The packets a client sends. *)
Inductive ClientPacket (N : Type) :=
| CJoin (nickname : string)
| CInput (dx dy : N).
Arguments CJoin {N}.
Arguments CInput {N}.

(** What the host keeps besides [Host]: the keys of [connectionsRef] in
    the order of insertion, the [count] of every countdown interval that
    is running, and the countdown on display. *)
Record Session (N : Type) := mkSession {
  s_host : Host N;
  s_connections : list string;             (* connectionsRef *)
  s_timers : list Z;                       (* setInterval closures *)
  s_countdown : Z;                         (* setCountdown *)
}.
Arguments mkSession {N}.
Arguments s_host {N}.
Arguments s_connections {N}.
Arguments s_timers {N}.
Arguments s_countdown {N}.

Section Input.
Context {N : Type} `{Number N} `{NumberEq N}.
Local Open Scope num_scope.

(* keysRef.current[code], undefined when the key was never touched *)
Definition pressed (keys : gmap string bool) (code : string) : bool :=
  default false (keys !! code).

(* handleKeyDown, handleKeyUp *)
Definition handleKeyDown (keys : gmap string bool) (code : string)
    : gmap string bool := <[code := true]> keys.
Definition handleKeyUp (keys : gmap string bool) (code : string)
    : gmap string bool := <[code := false]> keys.

Definition getLocalInput (keys : gmap string bool) (joystick : N * N)
    : N * N :=
  let dx := ofZ 0 in
  let dy := ofZ 0 in
  (* keyboard *)
  let dy := if pressed keys "ArrowUp" || pressed keys "KeyW"
            then ofZ (-1) else dy in
  let dy := if pressed keys "ArrowDown" || pressed keys "KeyS"
            then ofZ 1 else dy in
  let dx := if pressed keys "ArrowLeft" || pressed keys "KeyA"
            then ofZ (-1) else dx in
  let dx := if pressed keys "ArrowRight" || pressed keys "KeyD"
            then ofZ 1 else dx in
  (* joystick *)
  let '(dx, dy) :=
    if negb (neqb (fst joystick) (ofZ 0)) || negb (neqb (snd joystick) (ofZ 0))
    then joystick else (dx, dy) in
  (* normalize *)
  if negb (neqb dx (ofZ 0)) || negb (neqb dy (ofZ 0)) then
    let len := nsqrt (dx * dx + dy * dy) in
    if len >? ofZ 1 then (dx / len, dy / len) else (dx, dy)
  else (dx, dy).

(** *** components/Joystick.tsx *)

Record Joystick := mkJoystick {
  j_active : bool;
  j_position : N * N;     (* the head of the stick *)
  j_origin : N * N;       (* where the touch started *)
}.

Definition MAX_RADIUS : N := ofZ 50.

(* with [rect] there; the touch is (clientX, clientY) *)
Definition handleTouchStart (j : Joystick) (touch : N * N) : Joystick :=
  mkJoystick true (ofZ 0, ofZ 0) touch.

(** [handleTouchMove]: the new state and the arguments of [onMove], if
    it is called. *)
Definition handleTouchMove (M : MathLib N) (j : Joystick) (touch : N * N)
    : Joystick * option (N * N) :=
  if negb (j_active j) then (j, None)
  else
    let dx := fst touch - fst (j_origin j) in
    let dy := snd touch - snd (j_origin j) in
    let distance := nsqrt (dx * dx + dy * dy) in
    let '(moveX, moveY) :=
      if distance >? MAX_RADIUS then
        let angle := atan2 M dy dx in
        (cos M angle * MAX_RADIUS, sin M angle * MAX_RADIUS)
      else (dx, dy) in
    (mkJoystick (j_active j) (moveX, moveY) (j_origin j),
     Some (moveX / MAX_RADIUS, moveY / MAX_RADIUS)).

Definition handleTouchEnd (j : Joystick) : Joystick * option (N * N) :=
  (mkJoystick false (ofZ 0, ofZ 0) (j_origin j), Some (ofZ 0, ofZ 0)).

End Input.

Section SessionLogic.
Context {N : Type} `{Number N}.
Local Open Scope num_scope.

(* the test of the inner loop of [findValidSpawn]: some obstacle, padded
   by 50, holds the point *)
Definition spawnBlocked (x y : N) (obstacles : list (Obstacle N)) : bool :=
  existsb (fun obs =>
             (x >? o_x obs - ofZ 50)
             && (x <? o_x obs + o_width obs + ofZ 50)
             && (y >? o_y obs - ofZ 50)
             && (y <? o_y obs + o_height obs + ofZ 50))
          obstacles.

(* the [while (!valid && attempts < 100)] loop, [fuel = 100 - attempts];
   [x], [y] hold the last sample *)
Fixpoint spawnLoop (fuel : nat) (obstacles : list (Obstacle N))
    (rnd : Random) (k : nat) (x y : N) : (N * N) * nat :=
  match fuel with
  | O => ((x, y), k)
  | S fuel' =>
    let x1 := rnd k * (MAP_WIDTH - ofZ 200) + ofZ 100 in
    let y1 := rnd (k + 1)%nat * (MAP_HEIGHT - ofZ 200) + ofZ 100 in
    if spawnBlocked x1 y1 obstacles
    then spawnLoop fuel' obstacles rnd (k + 2)%nat x1 y1
    else ((x1, y1), (k + 2)%nat)
  end.

Definition findValidSpawn (obstacles : list (Obstacle N)) (rnd : Random)
    (k : nat) : (N * N) * nat :=
  spawnLoop 100 obstacles rnd k (ofZ 0) (ofZ 0).

Definition createPlayer (id name : string) (role : Role)
    (obstacles : list (Obstacle N)) (rnd : Random) (k : nat)
    : Player N * nat :=
  let '(spawn, k1) := findValidSpawn obstacles rnd k in
  (mkPlayer id name (fst spawn) (snd spawn) PLAYER_RADIUS role PLAYER_SPEED
            false (ofZ 0) (ofZ 0) (ofZ 0) None None None,
   k1).

Definition withHost (s : Session N) (h : Host N) : Session N :=
  mkSession h (s_connections s) (s_timers s) (s_countdown s).

Definition withPlayers (h : Host N) (players : list (Player N)) : Host N :=
  mkHost (h_myId h) players (h_obstacles h) (h_gameState h)
         (h_clientInputs h) (h_gameStartTime h) (h_timeLeft h) (h_stats h)
         (h_gameOverReason h).

(** The host, once its peer is open: the obstacles of the session, the
    host's own player, the lobby. *)
Definition openHost (id nickname : string) (obstacles : list (Obstacle N))
    (rnd : Random) (k : nat) : Session N :=
  let '(hostPlayer, _) := createPlayer id nickname SURVIVOR obstacles rnd k in
  mkSession (mkHost id [hostPlayer] obstacles LOBBY ∅ 0 GAME_DURATION
                    (O, O) INFECTED)
            [] [] 0.

(* peer.on('connection'): connectionsRef.current.set(conn.peer, conn) *)
Definition onConnection (s : Session N) (peer : string) : Session N :=
  mkSession (s_host s)
            (if bool_decide (peer ∈ s_connections s) then s_connections s
             else s_connections s ++ [peer])
            (s_timers s) (s_countdown s).

Definition startCountdown (s : Session N) : Session N :=
  let h := s_host s in
  mkSession (mkHost (h_myId h) (h_players h) (h_obstacles h) COUNTDOWN
                    (h_clientInputs h) (h_gameStartTime h) (h_timeLeft h)
                    (h_stats h) (h_gameOverReason h))
            (s_connections s) (s_timers s ++ [COUNTDOWN_TIME])
            COUNTDOWN_TIME.

(** A JOIN packet on the connection of [peer].  The connection is open,
    since the packet came through it: the Welcome is sent. *)
Definition onJoin (s : Session N) (peer nickname : string) (rnd : Random)
    (k : nat) : Session N * list (string * Packet N) :=
  let h := s_host s in
  let '(newPlayer, _) :=
    createPlayer peer nickname SURVIVOR (h_obstacles h) rnd k in
  let s1 := withHost s (withPlayers h (h_players h ++ [newPlayer])) in
  let s2 :=
    if bool_decide (h_gameState (s_host s1) = LOBBY)
       && (2 <=? length (h_players (s_host s1)))%nat
    then startCountdown s1 else s1 in
  (s2,
   [(peer, PktWelcome (mkStatePayload (h_players (s_host s2)) GAME_DURATION
                                      (h_gameState (s_host s2))
                                      (h_obstacles (s_host s2))))]).

(* conn.on('close') *)
Definition onClose (s : Session N) (peer : string) : Session N :=
  let h := s_host s in
  mkSession (mkHost (h_myId h)
                    (filter (fun p => p_id p <> peer) (h_players h))
                    (h_obstacles h) (h_gameState h)
                    (delete peer (h_clientInputs h)) (h_gameStartTime h)
                    (h_timeLeft h) (h_stats h) (h_gameOverReason h))
            (filter (fun c => c <> peer) (s_connections s))
            (s_timers s) (s_countdown s).

(** The interval of [startCountdown] that runs as the [i]-th fires;
    [now] and [zombieIdx] are what [startGame] would read. *)
Definition onTimer (s : Session N) (i : nat) (now : Z) (zombieIdx : nat)
    : Session N :=
  match s_timers s !! i with
  | None => s
  | Some count =>
    let count1 := (count - 1)%Z in
    if (count1 <=? 0)%Z
    then mkSession (startGame (s_host s) now zombieIdx) (s_connections s)
                   (delete i (s_timers s)) count1
    else mkSession (s_host s) (s_connections s)
                   (<[i := count1]> (s_timers s)) count1
  end.

(* broadcast: every packet goes to every connection *)
Definition deliver (conns : list string) (out : list (Packet N))
    : list (string * Packet N) :=
  flat_map (fun pkt => map (fun peer => (peer, pkt)) conns) out.

Inductive SessionEvent :=
| SConnection (peer : string)
| SJoin (peer nickname : string) (rnd : @Random N) (k : nat)
| SInput (peer : string) (dx dy : N)
| SClose (peer : string)
| STimer (i : nat) (now : Z) (zombieIdx : nat)
| SFrame (f : Frame N).

Definition sessionStep (s : Session N) (e : SessionEvent)
    : Session N * list (string * Packet N) :=
  match e with
  | SConnection peer => (onConnection s peer, [])
  | SJoin peer nickname rnd k => onJoin s peer nickname rnd k
  | SInput peer dx dy => (withHost s (onInput (s_host s) peer dx dy), [])
  | SClose peer => (onClose s peer, [])
  | STimer i now zombieIdx => (onTimer s i now zombieIdx, [])
  | SFrame f =>
    let '(h1, out) := updateHost (s_host s) f in
    (withHost s h1, deliver (s_connections s) out)
  end.

Fixpoint sessionRun (s : Session N) (es : list SessionEvent) : Session N :=
  match es with
  | [] => s
  | e :: rest => sessionRun (fst (sessionStep s e)) rest
  end.

End SessionLogic.

(** ** components/GameCanvas.tsx: the client frame *)

Section ClientFrame.
Context {N : Type} `{Number N}.
Local Open Scope num_scope.

(* the body of the [forEach] of [updateClient] *)
Definition interpolate (p : Player N) : Player N :=
  match p_targetX p, p_targetY p with
  | Some targetX, Some targetY =>
    set_pos p (lerp (p_x p) targetX (dec 3 10))
              (lerp (p_y p) targetY (dec 3 10))
  | _, _ => p
  end.

(** One frame of a client: the input goes out when the connection to the
    host is open, and every entry of the array is moved towards its
    target, an object once per entry that refers to it. *)
Definition updateClient (c : Client N) (connOpen : bool)
    (localInput : N * N) : Client N * list (ClientPacket N) :=
  (mkClient (fold_left (fun heap l => alter interpolate l heap)
                       (c_players c) (c_heap c))
            (c_players c) (c_obstacles c) (c_gameState c) (c_timeLeft c)
            (c_stats c) (c_gameOverReason c),
   if connOpen then [CInput (fst localInput) (snd localInput)] else []).

End ClientFrame.

(** ** The vocabulary of the properties *)

Section Vocabulary.
Context {N : Type} `{Number N}.
Local Open Scope num_scope.

(* the point of the rectangle [obs] nearest to [c] *)
Definition nearestInRect (c : Point N) (obs : Obstacle N) : Point N :=
  mkPoint (clamp (pt_x c) (o_x obs) (o_x obs + o_width obs))
          (clamp (pt_y c) (o_y obs) (o_y obs + o_height obs)).

(* the distance from the player's centre to the rectangle *)
Definition distToRect (player : Player N) (obs : Obstacle N) : N :=
  getDistance (pos player) (nearestInRect (pos player) obs).

(* the player's circle reaches into the rectangle *)
Definition overlaps (player : Player N) (obs : Obstacle N) : bool :=
  distToRect player obs <? p_radius player.

(* the squared distance [pushOut] computes, and its guard against a
   centre on or inside the rectangle *)
Definition distanceSquaredTo (player : Player N) (obs : Obstacle N) : N :=
  let c := nearestInRect (pos player) obs in
  (p_x player - pt_x c) * (p_x player - pt_x c)
  + (p_y player - pt_y c) * (p_y player - pt_y c).

Definition nonDegenerate (player : Player N) (obs : Obstacle N) : bool :=
  distanceSquaredTo player obs >? dec 1 10000.

(* the position lies in [radius, mapDimension - radius] on both axes *)
Definition inMap (player : Player N) : bool :=
  negb (p_x player <? p_radius player)
  && negb (MAP_WIDTH - p_radius player <? p_x player)
  && negb (p_y player <? p_radius player)
  && negb (MAP_HEIGHT - p_radius player <? p_y player).

Definition obstacleCenter (obs : Obstacle N) : Point N :=
  mkPoint (o_x obs + o_width obs / ofZ 2) (o_y obs + o_height obs / ofZ 2).

(* the centre of the rectangle lies in the safe zone *)
Definition centerInSafeZone (obs : Obstacle N) : bool :=
  getDistance (obstacleCenter obs) mapCenter <? safeZoneRadius.

(* the rectangle reaches into the safe zone *)
Definition overlapsSafeZone (obs : Obstacle N) : bool :=
  getDistance (nearestInRect mapCenter obs) mapCenter <? safeZoneRadius.

Definition velocity (p : Player N) : N * N := (p_dx p, p_dy p).

Definition magnitude (v : N * N) : N :=
  nsqrt (fst v * fst v + snd v * snd v).

Definition dotProduct (v w : N * N) : N := fst v * fst w + snd v * snd w.

(* what a State message leaves alone in a local player [p], now [q] *)
Definition kept (p q : Player N) : Prop :=
  p_id q = p_id p /\ p_x q = p_x p /\ p_y q = p_y p
  /\ p_radius q = p_radius p /\ p_speed q = p_speed p
  /\ p_isBot q = p_isBot p /\ p_dx q = p_dx p /\ p_dy q = p_dy p
  /\ p_wanderAngle q = p_wanderAngle p /\ p_target q = p_target p.

(* what it writes into [q] from the snapshot entry [sp] *)
Definition written (q sp : Player N) : Prop :=
  p_targetX q = Some (p_x sp) /\ p_targetY q = Some (p_y sp)
  /\ p_role q = p_role sp /\ p_nickname q = p_nickname sp.

(* every entry of the map of identities leads to an object of that
   identity *)
Definition cm_ok (cm : gmap string nat) (heap : gmap nat (Player N)) : Prop :=
  forall k l, cm !! k = Some l ->
              exists p, heap !! l = Some p /\ p_id p = k.

Definition isZombie (p : Player N) : bool := bool_decide (p_role p = ZOMBIE).
Definition isSurvivor (p : Player N) : bool :=
  bool_decide (p_role p = SURVIVOR).

(* a GAME_OVER packet with the reason [r] is among the packets [out] *)
Definition announces (r : Reason) (out : list (Packet N)) : bool :=
  existsb (fun pkt => match pkt with
                      | PktGameOver r' => bool_decide (r' = r)
                      | _ => false
                      end) out.

(* the match clock has run out at [now] *)
Definition expired (h : Host N) (now : Z) : bool :=
  (GAME_DURATION * 1000 <=? now - h_gameStartTime h)%Z.

End Vocabulary.

(** ** More vocabulary *)

Section MoreVocabulary.
Context {N : Type} `{Number N}.
Local Open Scope num_scope.

(* the midpoint [getLineRectIntersection] tests *)
Definition midpoint (p1 p2 : Point N) : Point N :=
  mkPoint ((pt_x p1 + pt_x p2) / ofZ 2) ((pt_y p1 + pt_y p2) / ofZ 2).

(* the point lies strictly inside the rectangle grown by [padding] *)
Definition insidePadded (c : Point N) (obs : Obstacle N) (padding : N)
    : bool :=
  (pt_x c >? o_x obs - padding)
  && (pt_x c <? o_x obs + o_width obs + padding)
  && (pt_y c >? o_y obs - padding)
  && (pt_y c <? o_y obs + o_height obs + padding).

(* the point a wandering bot samples from the draws [j] and [j + 1] *)
Definition wanderSample (rnd : Random) (j : nat) : Point N :=
  mkPoint (rnd j * (MAP_WIDTH - ofZ 100) + ofZ 50)
          (rnd (j + 1)%nat * (MAP_HEIGHT - ofZ 100) + ofZ 50).

(* that point is far enough from the bot to become its target *)
Definition farEnough (bot : Player N) (rnd : Random) (j : nat) : bool :=
  getDistance (pos bot) (wanderSample rnd j) >? ofZ 400.

(* what the bot has perceived after the loop over [allPlayers] *)
Definition perceived (bot : Player N) (allPlayers : list (Player N))
    (obstacles : list (Obstacle N)) : Perception :=
  fold_left (perceive bot obstacles) allPlayers
            (mkPerception (ofZ 0) (ofZ 0) O None None).

(* the range at which a bot of that role sees *)
Definition viewRangeOf (role : Role) : N :=
  if decide (role = SURVIVOR)
  then VIEW_DISTANCE * dec 15 10
  else VIEW_DISTANCE * dec 13 10.

(* what the loop over the players keeps true of what has been seen so
   far, [S] being the players given *)
Definition seenWell (bot : Player N) (S : list (Player N))
    (acc : Perception) : Prop :=
  match nearestEnemy acc with
  | Some e =>
    e ∈ S /\ p_id e <> p_id bot /\ isEnemy bot e = true
    /\ nearestDist acc = Some (getDistance (pos bot) (pos e))
    /\ nltb (getDistance (pos bot) (pos e)) (viewRangeOf (p_role bot)) = true
  | None => nearestDist acc = None
  end.

(* the loop of [updateBot] stops at this obstacle *)
Definition wallAhead (bot : Player N) (pNext : Point N) (obs : Obstacle N)
    : bool :=
  negb ((p_x bot + lookAhead <? o_x obs)
        || (p_x bot - lookAhead >? o_x obs + o_width obs))
  && bool_decide
       (is_Some (getLineRectIntersection (pos bot) pNext obs (ofZ 10))).

(* the point [findValidSpawn] samples from the draws [j] and [j + 1] *)
Definition spawnSample (rnd : Random) (j : nat) : N * N :=
  (rnd j * (MAP_WIDTH - ofZ 200) + ofZ 100,
   rnd (j + 1)%nat * (MAP_HEIGHT - ofZ 200) + ofZ 100).

Definition sampleBlocked (obstacles : list (Obstacle N)) (rnd : Random)
    (j : nat) : bool :=
  spawnBlocked (fst (spawnSample rnd j)) (snd (spawnSample rnd j)) obstacles.

(* the order of the phases of a match *)
Definition phaseRank (g : GameState) : nat :=
  match g with
  | LOBBY => 0
  | COUNTDOWN => 1
  | PLAYING => 2
  | GAME_OVER => 3
  end.

(* a host event other than a game start *)
Definition notStart (e : @HostEvent N) : bool :=
  match e with
  | EvStartGame _ _ => false
  | _ => true
  end.

(* what holds of every session the events can lead to *)
Definition sessionInv (s : Session N) : Prop :=
  let h := s_host s in
  match h_gameState h with
  | LOBBY => (length (h_players h) <= 1)%nat /\ s_timers s = []
  | COUNTDOWN => exists count, s_timers s = [count] /\ (0 < count)%Z
  | PLAYING | GAME_OVER => s_timers s = []
  end
  /\ (phaseRank (h_gameState h) <= 1 ->
      forallb isSurvivor (h_players h) = true)%nat.

(* a frame as the render loop runs it: [loop] is started once, by the
   effect with no dependencies, so it is the closure of the first render
   and so is the [updateHost] it calls, in which the state variable
   [timeLeft] has the initial value that [useState(GAME_DURATION)] gave *)
Definition loopFrame (now : Z) (localInput : N * N) : Frame N :=
  mkFrame now localInput GAME_DURATION.

(* a firing of the first interval *)
Definition isTick (e : @SessionEvent N) : bool :=
  match e with
  | STimer O _ _ => true
  | _ => false
  end.

Definition ticks (es : list (@SessionEvent N)) : nat :=
  length (List.filter isTick es).

End MoreVocabulary.

Module ExactShape.
Local Open Scope R_scope.

(* the rectangle lies in the map *)
Definition inTheMap (o : Obstacle R) : Prop :=
  0 <= o_x o /\ o_x o + o_width o <= 2500
  /\ 0 <= o_y o /\ o_y o + o_height o <= 2500.

(* 40 thick and between 100 and 500 long, along one axis *)
Definition wallShaped (o : Obstacle R) : Prop :=
  (o_height o = 40 /\ 100 <= o_width o < 500)
  \/ (o_width o = 40 /\ 100 <= o_height o < 500).

(* a square of side between 30 and 80 *)
Definition debrisShaped (o : Obstacle R) : Prop :=
  o_width o = o_height o /\ 30 <= o_width o < 80.

Definition placedAndShaped (o : Obstacle R) : Prop :=
  inTheMap o /\ (wallShaped o \/ debrisShaped o).

(* the draws are those of [Math.random()]: in [0, 1) *)
Definition unitDraws (rnd : nat -> R) : Prop :=
  forall k, 0 <= rnd k < 1.

(* cos and sin are those of an angle *)
Definition circular (M : MathLib R) : Prop :=
  forall a, cos M a * cos M a + sin M a * sin M a = 1.

(* what a frame with no input makes of a velocity component *)
Definition decay (a : R) : R :=
  let b := a + (0 - a) * (2 / 10) in
  if Exact.ltb (Rabs b) (1 / 100) then 0 else b.

(* both components are at most 1 in absolute value *)
Definition inUnitBox (v : R * R) : Prop :=
  Rabs (fst v) <= 1 /\ Rabs (snd v) <= 1.

End ExactShape.

(** ** Concrete runs, on binary64 *)

Module Sample.

(* a player as [createPlayer] makes it, at a given place *)
Definition player (id : string) (x y : Z) (role : Role) : Player float :=
  mkPlayer id id (ofZ x) (ofZ y) PLAYER_RADIUS role PLAYER_SPEED false
           (ofZ 0) (ofZ 0) (ofZ 0) None None None.

(* a match of two, started at time 0: a zombie and, 10 units from it, a
   survivor *)
Definition duel : Host float :=
  mkHost "host" [player "host" 100 100 ZOMBIE; player "peer" 110 100 SURVIVOR]
         [] PLAYING ∅ 0 GAME_DURATION (O, O) INFECTED.

(* the same match with the survivor out of reach *)
Definition apart : Host float :=
  mkHost "host" [player "host" 100 100 ZOMBIE; player "peer" 500 500 SURVIVOR]
         [] PLAYING ∅ 0 GAME_DURATION (O, O) INFECTED.


(* a client that knows one player, and a snapshot that moves that player
   and brings one more *)
Definition client : Client float :=
  mkClient {[ 0%nat := player "a" 10 10 SURVIVOR ]} [0%nat] [] PLAYING
           GAME_DURATION (O, O) INFECTED.

Definition snapshot : StatePayload float :=
  mkStatePayload [player "a" 20 20 ZOMBIE; player "b" 30 30 SURVIVOR]
                 GAME_DURATION PLAYING [].

(* draws of [Math.random()]: the first wall comes out horizontal, 300
   long, with its centre 275 to the right of the centre of the map *)
Definition draws : nat -> float :=
  fun k =>
    match k with
    | 0%nat => dec 75 100
    | 1%nat => dec 5 10
    | 2%nat => dec 625 1000
    | 3%nat => dec 5 10
    | _ => dec 625 1000
    end.

(* that wall *)
Definition wall : Obstacle float :=
  mkObstacle (ofZ 1375) (ofZ 1230) (ofZ 300) (ofZ 40).

(* a bot in the middle of the map, with no wander target yet *)
Definition bot : Player float :=
  mkPlayer "bot" "bot" (ofZ 1250) (ofZ 1250) PLAYER_RADIUS SURVIVOR
           PLAYER_SPEED true (ofZ 0) (ofZ 0) (ofZ 0) None None None.

(* every draw is 0.5: each sampled wander target is the middle of the map *)
Definition halves : nat -> float := fun _ => dec 5 10.

(* a rectangle 100 wide and 100 high *)
Definition block (x y : Z) : Obstacle float :=
  mkObstacle (ofZ x) (ofZ y) (ofZ 100) (ofZ 100).

(* a zombie and two survivors in a row, 20 units apart: the first touches
   the second, not the third *)
Definition chain : Host float :=
  mkHost "host" [player "host" 100 100 ZOMBIE; player "b" 120 100 SURVIVOR;
                 player "c" 140 100 SURVIVOR]
         [] PLAYING ∅ 0 GAME_DURATION (O, O) INFECTED.

(* three players waiting for the start *)
Definition waiting : Host float :=
  mkHost "host" [player "host" 100 100 SURVIVOR; player "b" 120 100 SURVIVOR;
                 player "c" 140 100 SURVIVOR]
         [] COUNTDOWN ∅ 0 GAME_DURATION (O, O) INFECTED.

(* a frame at [now] ms with no local input *)
Definition frameAt (now : Z) : Frame float :=
  mkFrame now (ofZ 0, ofZ 0) GAME_DURATION.

End Sample.

(** ** Concrete inputs, on exact reals *)

Module ExactSample.

(* a player with radius 15 *)
Definition player (x y : Z) : Player R :=
  mkPlayer "a" "a" (ofZ x) (ofZ y) PLAYER_RADIUS SURVIVOR PLAYER_SPEED false
           (ofZ 0) (ofZ 0) (ofZ 0) None None None.

(* a rectangle 100 wide and 100 high, to the right of x = 20 *)
Definition block : Obstacle R :=
  mkObstacle (ofZ 20) (ofZ 50) (ofZ 100) (ofZ 100).

(* a wall 40 wide and 100 high, to the right of x = 10 *)
Definition wall : Obstacle R :=
  mkObstacle (ofZ 10) (ofZ 0) (ofZ 40) (ofZ 100).

(* every draw of [Math.random()] is 0.5 *)
Definition halves : nat -> R := fun _ => (1 / 2)%R.

(* every draw of [Math.random()] is 0.25 *)
Definition quarters : nat -> R := fun _ => (1 / 4)%R.

(* the wall the first four of these draws make: vertical, 200 long *)
Definition firstWall : Obstacle R :=
  mkObstacle (ofZ 615) (ofZ 575) (ofZ 40) (ofZ 200).

(* the cosine and the sine of the reals, and an angle that is always 0 *)
Definition mathLib : MathLib R :=
  mkMathLib R (fun _ _ => 0%R) Rtrigo_def.cos Rtrigo_def.sin.

(* a client that draws one player, at (10, 10), towards (20, 30) *)
Definition drawn : Player R :=
  mkPlayer "a" "a" (ofZ 10) (ofZ 10) PLAYER_RADIUS SURVIVOR PLAYER_SPEED false
           (ofZ 0) (ofZ 0) (ofZ 0) None (Some (ofZ 20)) (Some (ofZ 30)).

Definition client : Client R :=
  mkClient {[ 0%nat := drawn ]} [0%nat] [] PLAYING GAME_DURATION (O, O)
           INFECTED.

(* a host alone in its lobby, moving at full speed to the right *)
Definition runner : Player R :=
  mkPlayer "host" "host" (ofZ 100) (ofZ 100) PLAYER_RADIUS SURVIVOR
           PLAYER_SPEED false (ofZ 1) (ofZ 0) (ofZ 0) None None None.

Definition lobby : Host R :=
  mkHost "host" [runner] [] LOBBY ∅ 0 GAME_DURATION (O, O) INFECTED.

End ExactSample.

(** * Properties *)

(** ** Facts about the model that several properties share *)

(* read the operations of the program as those of the reals *)
Ltac exact_ops :=
  cbn [nadd nsub nmul ndiv nopp nsqrt nabs nsign nmin nmax nltb ofZ
       R_Number] in *.

Module ExactFacts.

Lemma ltb_true a b : Exact.ltb a b = true <-> (a < b)%R.
Proof. unfold Exact.ltb. destruct (Rlt_dec a b); split; intros; try easy. Qed.

Lemma ltb_false a b : Exact.ltb a b = false <-> (b <= a)%R.
Proof.
  unfold Exact.ltb. destruct (Rlt_dec a b); split; intros; try easy; lra.
Qed.

End ExactFacts.

Section PlayerFacts.
Context {N : Type} `{Number N}.

(** Collision resolution moves a player and changes nothing else. *)
Lemma pushOut_fields (p : Player N) obs :
  p_id (pushOut p obs) = p_id p /\ p_role (pushOut p obs) = p_role p
  /\ p_radius (pushOut p obs) = p_radius p.
Proof.
  unfold pushOut.
  repeat match goal with |- context [if ?b then _ else _] => destruct b end;
    auto.
Qed.

Lemma resolveCollision_fields (p : Player N) obstacles :
  p_id (resolveCollision p obstacles) = p_id p
  /\ p_role (resolveCollision p obstacles) = p_role p
  /\ p_radius (resolveCollision p obstacles) = p_radius p.
Proof.
  unfold resolveCollision.
  assert (Hc : p_id (clampToMap p) = p_id p /\ p_role (clampToMap p) = p_role p
               /\ p_radius (clampToMap p) = p_radius p) by (split; auto).
  revert Hc. generalize (clampToMap p) as q.
  induction obstacles as [|o os IH]; intros q Hq; simpl; [exact Hq|].
  apply IH. destruct (pushOut_fields q o) as (-> & -> & ->). exact Hq.
Qed.

Lemma movePlayer_fields (h : Host N) input (p : Player N) :
  p_id (movePlayer h input p) = p_id p
  /\ p_role (movePlayer h input p) = p_role p.
Proof.
  unfold movePlayer.
  destruct (if decide (p_id p = h_myId h) then input else _) as [dx dy].
  match goal with |- context [resolveCollision ?q ?o] =>
    destruct (resolveCollision_fields q o) as (-> & -> & _) end.
  split; reflexivity.
Qed.

Lemma infect_id zs (p : Player N) : p_id (infect zs p) = p_id p.
Proof. unfold infect. repeat case_match; reflexivity. Qed.

Lemma infect_zombie zs (p : Player N) :
  p_role p = ZOMBIE -> p_role (infect zs p) = ZOMBIE.
Proof. unfold infect. intros Hz. repeat case_match; auto. Qed.

(** The second [forEach] as a whole: it counts the survivors it meets and
    leaves the list of the players after infection. *)
Lemma infect_loop zs (ps : list (Player N)) s z done :
  fold_left (infectStep zs) ps (s, z, done)
  = ((s + length (filter (fun p => p_role p = SURVIVOR) ps))%nat,
     (z + length (filter (fun p => p_role p <> SURVIVOR) ps))%nat,
     done ++ map (infect zs) ps).
Proof.
  revert s z done.
  induction ps as [|p ps IH]; intros s z done; simpl.
  - rewrite !Nat.add_0_r, app_nil_r. reflexivity.
  - rewrite !filter_cons.
    destruct (decide (p_role p = SURVIVOR)) as [Hs|Hs]; simpl.
    + destruct (decide (p_role p <> SURVIVOR)); [contradiction|].
      rewrite IH, <- app_assoc. simpl. repeat f_equal; lia.
    + destruct (decide (p_role p <> SURVIVOR)); [|contradiction].
      rewrite IH, <- app_assoc. simpl. repeat f_equal; lia.
Qed.

End PlayerFacts.

(** ** The host: roles, the end of the match, the clock *)

Section HostFacts.
Context {N : Type} `{Number N}.

Lemma timer_fires_iff_expired (h : Host N) now :
  (timeLeftAt h now <=? 0)%Z = expired h now.
Proof.
  unfold timeLeftAt, expired, GAME_DURATION.
  apply eq_true_iff_eq. rewrite !Z.leb_le.
  pose proof (Z.div_mod (now - h_gameStartTime h) 1000 ltac:(lia)).
  pose proof (Z.mod_pos_bound (now - h_gameStartTime h) 1000 ltac:(lia)).
  lia.
Qed.

(** What a frame does to a match that is being played and whose clock has
    not run out. *)
Lemma updateHost_playing (h : Host N) f :
  h_gameState h = PLAYING -> expired h (f_now f) = false ->
  let moved := map (movePlayer h (f_localInput f)) (h_players h) in
  let survivors := length (filter (fun p => p_role p = SURVIVOR) moved) in
  let zs := filter (fun p => p_role p = ZOMBIE) moved in
  let over := bool_decide (survivors = O) && (1 <? length moved)%nat in
  let h' := fst (updateHost h f) in
  h_players h' = map (infect zs) moved
  /\ h_gameStartTime h' = h_gameStartTime h
  /\ h_timeLeft h' = timeLeftAt h (f_now f)
  /\ h_gameState h' = (if over then GAME_OVER else PLAYING)
  /\ h_gameOverReason h' = (if over then INFECTED else h_gameOverReason h)
  /\ exists payload,
       snd (updateHost h f)
       = (if over then [PktGameOver INFECTED] else []) ++ [PktState payload].
Proof.
  intros Hplay Hexp. cbv zeta.
  unfold updateHost, runTimer. rewrite Hplay.
  destruct (decide (PLAYING = GAME_OVER)); [discriminate|].
  destruct (decide (PLAYING = PLAYING)); [|contradiction].
  rewrite timer_fires_iff_expired, Hexp.
  unfold runInfection. cbn [h_gameState h_players h_myId h_obstacles
    h_clientInputs h_gameStartTime h_timeLeft h_stats h_gameOverReason].
  destruct (decide (PLAYING = PLAYING)); [|contradiction].
  change (movePlayer (mkHost _ _ _ _ _ _ _ _ _)) with (movePlayer h).
  rewrite infect_loop. cbn [Nat.add app].
  match goal with |- context [if ?c then _ else _] => destruct c end;
    cbn; repeat split; eauto.
Qed.

End HostFacts.

Section HostFrames.
Context {N : Type} `{Number N}.

Lemma updateHost_over (h : Host N) f :
  h_gameState h = GAME_OVER -> updateHost h f = (h, []).
Proof.
  intros Hover. unfold updateHost. rewrite Hover.
  destruct (decide (GAME_OVER = GAME_OVER)); [reflexivity|contradiction].
Qed.

(** What a frame does to a match whose clock has run out. *)
Lemma updateHost_expired (h : Host N) f :
  h_gameState h = PLAYING -> expired h (f_now f) = true ->
  let h' := fst (updateHost h f) in
  h_players h' = map (movePlayer h (f_localInput f)) (h_players h)
  /\ h_gameStartTime h' = h_gameStartTime h
  /\ h_timeLeft h' = timeLeftAt h (f_now f)
  /\ h_gameState h' = GAME_OVER
  /\ h_gameOverReason h' = TIME_UP
  /\ exists payload,
       snd (updateHost h f) = [PktGameOver TIME_UP; PktState payload].
Proof.
  intros Hplay Hexp. cbv zeta.
  unfold updateHost, runTimer. rewrite Hplay.
  destruct (decide (PLAYING = GAME_OVER)); [discriminate|].
  destruct (decide (PLAYING = PLAYING)); [|contradiction].
  rewrite timer_fires_iff_expired, Hexp.
  unfold runInfection, endGame. cbn [h_gameState h_players h_myId h_obstacles
    h_clientInputs h_gameStartTime h_timeLeft h_stats h_gameOverReason].
  destruct (decide (GAME_OVER = PLAYING)); [discriminate|].
  change (movePlayer (mkHost _ _ _ _ _ _ _ _ _)) with (movePlayer h).
  cbn. repeat split; eauto.
Qed.

(** What a frame does before the match has started. *)
Lemma updateHost_idle (h : Host N) f :
  h_gameState h = LOBBY \/ h_gameState h = COUNTDOWN ->
  let h' := fst (updateHost h f) in
  h_players h' = map (movePlayer h (f_localInput f)) (h_players h)
  /\ h_gameStartTime h' = h_gameStartTime h
  /\ h_gameState h' = h_gameState h
  /\ exists payload, snd (updateHost h f) = [PktState payload].
Proof.
  intros Hidle. cbv zeta.
  assert (Hno : h_gameState h <> GAME_OVER /\ h_gameState h <> PLAYING)
    by (destruct Hidle as [-> | ->]; split; discriminate).
  destruct Hno as [Hno1 Hno2].
  unfold updateHost, runTimer.
  destruct (decide (h_gameState h = GAME_OVER)); [contradiction|].
  destruct (decide (h_gameState h = PLAYING)); [contradiction|].
  unfold runInfection. cbn [h_gameState].
  destruct (decide (h_gameState h = PLAYING)); [contradiction|].
  cbn. repeat split; eauto.
Qed.

(** A frame keeps the players in their places in the list, with their
    identities, and turns no zombie back. *)
Lemma updateHost_roles (h : Host N) f i (p : Player N) :
  h_players h !! i = Some p ->
  exists p', h_players (fst (updateHost h f)) !! i = Some p'
             /\ p_id p' = p_id p
             /\ (p_role p = ZOMBIE -> p_role p' = ZOMBIE).
Proof.
  intros Hp.
  pose proof (movePlayer_fields h (f_localInput f) p) as [Hid Hrole].
  assert (Hmoved : map (movePlayer h (f_localInput f)) (h_players h) !! i
                   = Some (movePlayer h (f_localInput f) p)).
  { change (map ?g ?l) with (g <$> l). rewrite list_lookup_fmap, Hp.
    reflexivity. }
  destruct (h_gameState h) eqn:Hst.
  - destruct (updateHost_idle h f) as (-> & _); [auto|].
    eexists; split; [exact Hmoved|]. rewrite Hid, Hrole. auto.
  - destruct (updateHost_idle h f) as (-> & _); [auto|].
    eexists; split; [exact Hmoved|]. rewrite Hid, Hrole. auto.
  - destruct (expired h (f_now f)) eqn:Hexp.
    + destruct (updateHost_expired h f Hst Hexp) as (-> & _).
      eexists; split; [exact Hmoved|]. rewrite Hid, Hrole. auto.
    + destruct (updateHost_playing h f Hst Hexp) as (-> & _).
      eexists; split.
      * change (map ?g ?l) with (g <$> l).
        rewrite list_lookup_fmap.
        change (movePlayer h (f_localInput f) <$> h_players h)
          with (map (movePlayer h (f_localInput f)) (h_players h)).
        rewrite Hmoved. reflexivity.
      * rewrite infect_id, Hid. split; [reflexivity|].
        intros Hz. apply infect_zombie. congruence.
  - rewrite updateHost_over by assumption. eauto.
Qed.

Lemma hostStep_roles (h : Host N) e i (p : Player N) :
  h_players h !! i = Some p ->
  exists p', h_players (fst (hostStep h e)) !! i = Some p'
             /\ p_id p' = p_id p
             /\ (p_role p = ZOMBIE -> p_role p' = ZOMBIE).
Proof.
  intros Hp. destruct e as [f | now zombieIdx | peer dx dy]; simpl.
  - apply updateHost_roles, Hp.
  - destruct (decide (zombieIdx = i)) as [-> | Hne].
    + exists (set_role p ZOMBIE). rewrite list_lookup_alter_eq, Hp. auto.
    + exists p. rewrite list_lookup_alter_ne by exact Hne. auto.
  - eauto.
Qed.

Lemma hostRun_cons (h : Host N) e es :
  hostRun h (e :: es)
  = (fst (hostRun (fst (hostStep h e)) es),
     snd (hostStep h e) ++ snd (hostRun (fst (hostStep h e)) es)).
Proof.
  simpl. destruct (hostStep h e) as [h1 out1]. cbn [fst snd].
  destruct (hostRun h1 es) as [h2 out2]. reflexivity.
Qed.

Lemma hostRun_app (h : Host N) es1 es2 :
  hostRun h (es1 ++ es2)
  = (fst (hostRun (fst (hostRun h es1)) es2),
     snd (hostRun h es1) ++ snd (hostRun (fst (hostRun h es1)) es2)).
Proof.
  revert h. induction es1 as [|e es1 IH]; intros h.
  - simpl. destruct (hostRun h es2); reflexivity.
  - rewrite <- app_comm_cons, !hostRun_cons, IH. cbn [fst snd].
    rewrite app_assoc. reflexivity.
Qed.

End HostFrames.

Section HostProperties.
Context {N : Type} `{Number N}.

(** C2.  Role transition is monotonic on the host: a player that is a
    Zombie stays at its place in the list, with its identity, and is still
    a Zombie after any sequence of frames, inputs and game starts. *)
Theorem zombie_never_reverts (h : Host N) (es : list HostEvent) (i : nat)
    (p : Player N) :
  h_players h !! i = Some p ->
  p_role p = ZOMBIE ->
  exists p', h_players (fst (hostRun h es)) !! i = Some p'
             /\ p_id p' = p_id p
             /\ p_role p' = ZOMBIE.
Proof.
  revert h p. induction es as [|e es IH]; intros h p Hp Hz.
  - exists p. auto.
  - rewrite hostRun_cons. cbn [fst].
    destruct (hostStep_roles h e i p Hp) as (p1 & Hp1 & Hid1 & Hz1).
    destruct (IH _ p1 Hp1 (Hz1 Hz)) as (p2 & Hp2 & Hid2 & Hz2).
    exists p2. repeat split; [exact Hp2|congruence|exact Hz2].
Qed.

(** Frames leave the start of the match where it is. *)
Lemma updateHost_start (h : Host N) f :
  h_gameStartTime (fst (updateHost h f)) = h_gameStartTime h.
Proof.
  destruct (h_gameState h) eqn:Hst.
  - apply (updateHost_idle h f). auto.
  - apply (updateHost_idle h f). auto.
  - destruct (expired h (f_now f)) eqn:Hexp.
    + apply (updateHost_expired h f Hst Hexp).
    + apply (updateHost_playing h f Hst Hexp).
  - rewrite updateHost_over by assumption. reflexivity.
Qed.

Lemma expired_start (h h' : Host N) now :
  h_gameStartTime h' = h_gameStartTime h -> expired h' now = expired h now.
Proof. unfold expired. intros ->. reflexivity. Qed.

Lemma filter_survivors_length (ps : list (Player N)) :
  length (filter (fun p => p_role p = SURVIVOR) ps) = O
  <-> forallb isZombie ps = true.
Proof.
  induction ps as [|p ps IH]; simpl; [tauto|].
  rewrite filter_cons. unfold isZombie at 1.
  destruct (p_role p) eqn:Hr; simpl.
  - split; [lia|discriminate].
  - exact IH.
Qed.

Lemma survivors_moved (h : Host N) input (ps : list (Player N)) :
  length (filter (fun p => p_role p = SURVIVOR) (map (movePlayer h input) ps))
  = length (filter (fun p => p_role p = SURVIVOR) ps).
Proof.
  induction ps as [|p ps IH]; simpl; [reflexivity|].
  rewrite !filter_cons.
  destruct (movePlayer_fields h input p) as [_ ->].
  destruct (decide (p_role p = SURVIVOR)); simpl; congruence.
Qed.

Lemma zombies_after_infect zs (ps : list (Player N)) :
  forallb isZombie ps = true -> forallb isZombie (map (infect zs) ps) = true.
Proof.
  induction ps as [|p ps IH]; simpl; [reflexivity|].
  rewrite !andb_true_iff. intros [Hp Hps]. split; [|auto].
  unfold isZombie in *. apply bool_decide_eq_true.
  apply infect_zombie. apply bool_decide_eq_true in Hp. exact Hp.
Qed.

Lemma announces_app (r : Reason) (out1 out2 : list (Packet N)) :
  announces r (out1 ++ out2) = announces r out1 || announces r out2.
Proof. unfold announces. apply existsb_app. Qed.

(** A frame of a match that is being played and whose clock has not run
    out: the end by infection is decided by the survivors counted among
    the players as the frame found them, and by their number. *)
Lemma infected_trigger (h : Host N) (f : Frame N) :
  h_gameState h = PLAYING -> expired h (f_now f) = false ->
  let fires :=
    bool_decide (length (filter (fun p => p_role p = SURVIVOR)
                                (h_players h)) = O)
    && (1 <? length (h_players h))%nat in
  h_gameState (fst (updateHost h f)) = (if fires then GAME_OVER else PLAYING)
  /\ h_gameOverReason (fst (updateHost h f))
     = (if fires then INFECTED else h_gameOverReason h)
  /\ announces INFECTED (snd (updateHost h f)) = fires
  /\ announces TIME_UP (snd (updateHost h f)) = false
  /\ length (h_players (fst (updateHost h f))) = length (h_players h).
Proof.
  intros Hplay Hexp. cbv zeta.
  destruct (updateHost_playing h f Hplay Hexp)
    as (Hps & _ & _ & Hst & Hr & payload & Hout).
  rewrite survivors_moved, length_map in Hst, Hr, Hout.
  rewrite Hst, Hr, Hout, Hps, !length_map.
  destruct (_ && _); repeat split; reflexivity.
Qed.


(** While a survivor is left at the start of a frame, that frame does not
    announce INFECTED: the end by infection never comes before the
    infection of the last survivor. *)
Lemma no_infected_end_while_survivor (h : Host N) (f : Frame N) :
  existsb isSurvivor (h_players h) = true ->
  announces INFECTED (snd (updateHost h f)) = false.
Proof.
  intros Hsome.
  assert (Hcount : length (filter (fun p => p_role p = SURVIVOR)
                                  (h_players h)) <> O).
  { rewrite filter_survivors_length. intros Hz.
    apply existsb_exists in Hsome as (p & Hin & Hs).
    rewrite forallb_forall in Hz. specialize (Hz p Hin).
    unfold isSurvivor, isZombie in *.
    apply bool_decide_eq_true in Hs, Hz. congruence. }
  destruct (h_gameState h) eqn:Hst.
  - destruct (updateHost_idle h f) as (_ & _ & _ & payload & ->); auto.
  - destruct (updateHost_idle h f) as (_ & _ & _ & payload & ->); auto.
  - destruct (expired h (f_now f)) eqn:Hexp.
    + destruct (updateHost_expired h f Hst Hexp)
        as (_ & _ & _ & _ & _ & payload & ->). reflexivity.
    + destruct (updateHost_playing h f Hst Hexp)
        as (_ & _ & _ & _ & _ & payload & ->).
      rewrite survivors_moved.
      destruct (bool_decide _) eqn:Hdec;
        [apply bool_decide_eq_true in Hdec; contradiction|].
      reflexivity.
  - rewrite updateHost_over by exact Hst. reflexivity.
Qed.

(** A frame of a match that is over does nothing, and neither do the
    frames after it. *)
Lemma frames_over (h : Host N) (fs : list (Frame N)) :
  h_gameState h = GAME_OVER -> hostRun h (map EvFrame fs) = (h, []).
Proof.
  intros Hover. induction fs as [|f fs IH]; [reflexivity|].
  cbn [map]. rewrite hostRun_cons. cbn [hostStep].
  rewrite updateHost_over by exact Hover. cbn [fst snd].
  rewrite IH. reflexivity.
Qed.

(** While the clock has not run out and the match is still played at the
    end, it was played all along, no frame announced TIME_UP, and the time
    left after the last frame is the one the clock gives. *)
Lemma frames_before_expiry (h : Host N) (fs : list (Frame N)) :
  h_gameState h = PLAYING ->
  forallb (fun g => negb (expired h (f_now g))) fs = true ->
  h_gameState (fst (hostRun h (map EvFrame fs))) = PLAYING ->
  h_gameStartTime (fst (hostRun h (map EvFrame fs))) = h_gameStartTime h
  /\ announces TIME_UP (snd (hostRun h (map EvFrame fs))) = false
  /\ match last fs with
     | Some g =>
       h_timeLeft (fst (hostRun h (map EvFrame fs))) = timeLeftAt h (f_now g)
     | None => True
     end.
Proof.
  revert h. induction fs as [|f fs IH]; intros h Hplay Hfs Hend.
  - simpl. auto.
  - cbn [map forallb] in *. rewrite hostRun_cons in *. cbn [fst snd hostStep] in *.
    apply andb_true_iff in Hfs as [Hf Hfs]. apply negb_true_iff in Hf.
    destruct (updateHost_playing h f Hplay Hf)
      as (_ & Hstart1 & Htl1 & Hst1 & _ & payload1 & Hout1).
    set (h1 := fst (updateHost h f)) in *.
    destruct (h_gameState h1) eqn:Hs1;
      try (destruct (_ && _); discriminate).
    + (* still played *)
      assert (Hfs1 : forallb (fun g => negb (expired h1 (f_now g))) fs = true).
      { rewrite <- Hfs. clear -Hstart1.
        induction fs as [|g fs IHfs]; [reflexivity|]. cbn [forallb].
        rewrite IHfs, (expired_start h h1 _ Hstart1). reflexivity. }
      destruct (IH h1 Hs1 Hfs1 Hend) as (Hstart & Hann & Hlast).
      split; [congruence|]. split.
      * unfold announces in *. rewrite existsb_app, Hann, orb_false_r.
        rewrite Hout1. destruct (_ && _); reflexivity.
      * rewrite last_cons. destruct (last fs) as [g|] eqn:Hl.
        -- rewrite Hlast. unfold timeLeftAt. rewrite Hstart1. reflexivity.
        -- destruct fs; [exact Htl1|].
           rewrite last_cons in Hl. destruct (last fs); discriminate.
    + (* over: the run cannot end in a played match *)
      rewrite frames_over in Hend by exact Hs1. cbn in Hend. congruence.
Qed.

(** Frames at which the clock has not run out announce no TIME_UP, and
    leave the match played, unless one of them ended it with INFECTED. *)
Lemma frames_not_expired (h : Host N) (fs : list (Frame N)) :
  h_gameState h = PLAYING ->
  forallb (fun g => negb (expired h (f_now g))) fs = true ->
  announces TIME_UP (snd (hostRun h (map EvFrame fs))) = false
  /\ ((h_gameState (fst (hostRun h (map EvFrame fs))) = PLAYING
       /\ announces INFECTED (snd (hostRun h (map EvFrame fs))) = false)
      \/ (h_gameState (fst (hostRun h (map EvFrame fs))) = GAME_OVER
          /\ h_gameOverReason (fst (hostRun h (map EvFrame fs))) = INFECTED
          /\ announces INFECTED (snd (hostRun h (map EvFrame fs))) = true)).
Proof.
  revert h. induction fs as [|f fs IH]; intros h Hplay Hfs.
  - cbn. auto.
  - cbn [map forallb] in *. rewrite hostRun_cons. cbn [fst snd hostStep].
    apply andb_true_iff in Hfs as [Hf Hfs]. apply negb_true_iff in Hf.
    destruct (infected_trigger h f Hplay Hf)
      as (Hst1 & Hr1 & HannI & HannT & _).
    cbv zeta in Hst1, Hr1, HannI.
    pose proof (updateHost_start h f) as Hstart1.
    set (h1 := fst (updateHost h f)) in *.
    rewrite !announces_app, HannT, HannI.
    destruct (_ && _).
    + (* this frame ended the match with INFECTED *)
      rewrite frames_over by exact Hst1. cbn [fst snd announces existsb orb].
      split; [reflexivity|]. right. auto.
    + assert (Hfs1 : forallb (fun g => negb (expired h1 (f_now g))) fs
                     = true).
      { rewrite <- Hfs. clear -Hstart1.
        induction fs as [|g fs IHfs]; [reflexivity|]. cbn [forallb].
        rewrite IHfs, (expired_start h h1 _ Hstart1). reflexivity. }
      destruct (IH h1 Hst1 Hfs1) as (HT & Hrest). cbn [orb].
      split; [exact HT | exact Hrest].
Qed.

(** C4.  The time left is a function of the wall clock alone, and the match
    ends with TIME_UP exactly at the first frame at which the elapsed time
    has reached the match duration, whatever frames came before it: those
    announced no TIME_UP, and left the match played, with the time the
    clock gives, unless one of them ended it with INFECTED; and the first
    frame at which the time has run out, finding the match played, ends it
    with TIME_UP and no time left. *)
Theorem time_up_at_first_expired_frame (h : Host N) (fs : list (Frame N))
    (f : Frame N) :
  h_gameState h = PLAYING ->
  forallb (fun g => negb (expired h (f_now g))) fs = true ->
  expired h (f_now f) = true ->
  let h1 := fst (hostRun h (map EvFrame fs)) in
  let out1 := snd (hostRun h (map EvFrame fs)) in
  let h2 := fst (updateHost h1 f) in
  announces TIME_UP out1 = false
  /\ ((h_gameState h1 = PLAYING /\ announces INFECTED out1 = false)
      \/ (h_gameState h1 = GAME_OVER
          /\ h_gameOverReason h1 = INFECTED
          /\ announces INFECTED out1 = true))
  /\ (h_gameState h1 = PLAYING ->
      match last fs with
      | Some g => h_timeLeft h1 = timeLeftAt h (f_now g)
      | None => True
      end
      /\ h_gameState h2 = GAME_OVER
      /\ h_gameOverReason h2 = TIME_UP
      /\ announces TIME_UP (snd (updateHost h1 f)) = true
      /\ h_timeLeft h2 = 0%Z).
Proof.
  intros Hplay Hfs Hexp. cbv zeta.
  destruct (frames_not_expired h fs Hplay Hfs) as (Hnone & Hphase).
  split; [exact Hnone|]. split; [exact Hphase|]. intros Hend.
  destruct (frames_before_expiry h fs Hplay Hfs Hend) as (Hstart & _ & Hl).
  split; [exact Hl|].
  set (h1 := fst (hostRun h (map EvFrame fs))) in *.
  rewrite <- (expired_start h h1 _ Hstart) in Hexp.
  destruct (updateHost_expired h1 f Hend Hexp)
    as (_ & _ & Htl & Hst & Hr & payload & Hout).
  repeat split; [exact Hst|exact Hr|rewrite Hout; reflexivity|].
  rewrite Htl. rewrite <- timer_fires_iff_expired in Hexp.
  apply Z.leb_le in Hexp. unfold timeLeftAt in *. lia.
Qed.

End HostProperties.

(** *** The host on concrete matches *)

(** In [Sample.duel] the survivor stands 10 units from the zombie: the
    first frame infects it, and it is a zombie two frames later. *)
Lemma zombie_never_reverts_witness :
  exists p',
    h_players (fst (hostRun (fst (updateHost Sample.duel (Sample.frameAt 1000)))
                            [EvFrame (Sample.frameAt 2000);
                             EvFrame (Sample.frameAt 3000)])) !! 1%nat
    = Some p'
    /\ p_id p' = "peer"
    /\ p_role p' = ZOMBIE.
Proof.
  apply (zombie_never_reverts
           (fst (updateHost Sample.duel (Sample.frameAt 1000)))
           [EvFrame (Sample.frameAt 2000); EvFrame (Sample.frameAt 3000)]
           1%nat (Sample.player "peer" 110 100 ZOMBIE)).
  - vm_compute. reflexivity.
  - reflexivity.
Defined.



(** In [Sample.apart] nobody is infected: the match is played through the
    frames at 1 s, at 90 s and at 179.999 s, which leaves 1 s and announces
    no end, and the frame at 180 s ends it. *)
Lemma time_up_at_first_expired_frame_witness :
  let fs := [Sample.frameAt 1000; Sample.frameAt 90000;
             Sample.frameAt 179999] in
  let h1 := fst (hostRun Sample.apart (map EvFrame fs)) in
  let h2 := fst (updateHost h1 (Sample.frameAt 180000)) in
  announces TIME_UP (snd (hostRun Sample.apart (map EvFrame fs))) = false
  /\ h_gameState h1 = PLAYING
  /\ h_timeLeft h1 = 1%Z
  /\ h_gameState h2 = GAME_OVER
  /\ h_gameOverReason h2 = TIME_UP
  /\ announces TIME_UP (snd (updateHost h1 (Sample.frameAt 180000))) = true
  /\ h_timeLeft h2 = 0%Z.
Proof.
  cbv zeta.
  destruct (time_up_at_first_expired_frame
              Sample.apart
              [Sample.frameAt 1000; Sample.frameAt 90000;
               Sample.frameAt 179999]
              (Sample.frameAt 180000) eq_refl eq_refl eq_refl)
    as (Hnone & _ & Hlast).
  split; [exact Hnone|].
  assert (Hplay : h_gameState
                    (fst (hostRun Sample.apart
                            (map EvFrame [Sample.frameAt 1000;
                                          Sample.frameAt 90000;
                                          Sample.frameAt 179999])))
                  = PLAYING) by (vm_compute; reflexivity).
  split; [exact Hplay|]. exact (Hlast Hplay).
Defined.

(** ** The client: reconciliation with a State message *)

Section ClientFacts.
Context {N : Type}.
Implicit Types (heap : gmap nat (Player N)) (cm : gmap string nat).

(** The map from identities to local objects holds, for an identity, the
    last object of the array that carries it. *)
Lemma addEntry_sound heap ls m k l :
  fold_left (addEntry heap) ls m !! k = Some l ->
  m !! k = Some l
  \/ (l ∈ ls /\ exists p, heap !! l = Some p /\ p_id p = k).
Proof.
  revert m. induction ls as [|l0 ls IH]; intros m Hk; simpl in Hk; [auto|].
  destruct (IH _ Hk) as [Hm | (Hin & p & Hp & Hid)].
  - unfold addEntry in Hm. destruct (heap !! l0) as [p0|] eqn:Hp0; [|auto].
    destruct (decide (p_id p0 = k)) as [<- | Hne].
    + rewrite lookup_insert_eq in Hm. injection Hm as <-.
      right. split; [left|eauto].
    + rewrite lookup_insert_ne in Hm by exact Hne. auto.
  - right. split; [right; exact Hin|eauto].
Qed.

Lemma addEntry_complete heap ls m k :
  is_Some (m !! k)
  \/ (exists l p, l ∈ ls /\ heap !! l = Some p /\ p_id p = k) ->
  is_Some (fold_left (addEntry heap) ls m !! k).
Proof.
  revert m. induction ls as [|l0 ls IH]; intros m Hk; simpl.
  - destruct Hk as [Hm | (l & p & Hin & _)]; [exact Hm|].
    apply elem_of_nil in Hin. contradiction.
  - apply IH. destruct Hk as [Hm | (l & p & Hin & Hp & Hid)].
    + left. unfold addEntry. destruct (heap !! l0) as [p0|]; [|exact Hm].
      destruct (decide (p_id p0 = k)) as [<- | Hne].
      * rewrite lookup_insert_eq. eauto.
      * rewrite lookup_insert_ne by exact Hne. exact Hm.
    + apply elem_of_cons in Hin as [-> | Hin].
      * left. unfold addEntry. rewrite Hp, Hid, lookup_insert_eq. eauto.
      * right. eauto.
Qed.

Lemma currentMapOf_ok heap ls : cm_ok (currentMapOf heap ls) heap.
Proof.
  intros k l Hk. apply addEntry_sound in Hk as [Hk | (_ & Hp)]; [|exact Hp].
  rewrite lookup_empty in Hk. discriminate.
Qed.

Lemma kept_refl (p : Player N) : kept p p.
Proof. unfold kept. repeat split. Qed.

Lemma kept_trans (p q r : Player N) : kept p q -> kept q r -> kept p r.
Proof. unfold kept. intuition congruence. Qed.

Lemma kept_retarget (sp p : Player N) : kept p (retarget sp p).
Proof. unfold kept. repeat split. Qed.

Lemma written_retarget (sp p : Player N) : written (retarget sp p) sp.
Proof. unfold written. repeat split. Qed.

Lemma cm_ok_alter cm heap sp l :
  cm_ok cm heap -> cm_ok cm (alter (retarget sp) l heap).
Proof.
  intros Hok k l' Hk. destruct (Hok k l' Hk) as (p & Hp & Hid).
  destruct (decide (l = l')) as [-> | Hne].
  - exists (retarget sp p). rewrite lookup_alter_eq, Hp. auto.
  - exists p. rewrite lookup_alter_ne by exact Hne. auto.
Qed.

Lemma fresh_unused heap : heap !! fresh (dom heap) = None.
Proof. apply not_elem_of_dom, is_fresh. Qed.

Lemma cm_ok_insert cm heap p :
  cm_ok cm heap -> cm_ok cm (<[fresh (dom heap) := p]> heap).
Proof.
  intros Hok k l Hk. destruct (Hok k l Hk) as (q & Hq & Hid).
  exists q. split; [|exact Hid].
  rewrite lookup_insert_ne; [exact Hq|].
  intros Heq. rewrite <- Heq, fresh_unused in Hq. discriminate.
Qed.

End ClientFacts.

Section Reconcile.
Context {N : Type}.
Implicit Types (heap : gmap nat (Player N)) (cm : gmap string nat).

Lemma reconcile_cons cm heap sp rest :
  reconcile cm heap (sp :: rest)
  = match cm !! p_id sp with
    | Some l =>
      (fst (reconcile cm (alter (retarget sp) l heap) rest),
       l :: snd (reconcile cm (alter (retarget sp) l heap) rest))
    | None =>
      (fst (reconcile cm (<[fresh (dom heap) := adopt sp]> heap) rest),
       fresh (dom heap)
       :: snd (reconcile cm (<[fresh (dom heap) := adopt sp]> heap) rest))
    end.
Proof.
  simpl. destruct (cm !! p_id sp) as [l|].
  - destruct (reconcile cm (alter (retarget sp) l heap) rest); reflexivity.
  - destruct (reconcile cm (<[fresh (dom heap) := adopt sp]> heap) rest);
      reflexivity.
Qed.

(** What reconciliation does to an object that is already there: its
    position and the other fields the message does not carry are kept; it
    is not touched at all unless an entry of the snapshot leads to it, and
    then it holds what such an entry wrote. *)
Lemma reconcile_heap cm sps : forall heap l (p : Player N),
  heap !! l = Some p ->
  exists q,
    fst (reconcile cm heap sps) !! l = Some q
    /\ kept p q
    /\ ((forall sp, sp ∈ sps -> cm !! p_id sp <> Some l) -> q = p)
    /\ (forall sp, sp ∈ sps -> cm !! p_id sp = Some l ->
        exists sp', sp' ∈ sps /\ cm !! p_id sp' = Some l /\ written q sp').
Proof.
  induction sps as [|sp rest IH]; intros heap l p Hp.
  - exists p. simpl. split; [exact Hp|]. split; [apply kept_refl|].
    split; [reflexivity|].
    intros sp Hin. apply elem_of_nil in Hin. contradiction.
  - rewrite reconcile_cons.
    destruct (cm !! p_id sp) as [l0|] eqn:Hcm; cbn [fst].
    + destruct (decide (l0 = l)) as [-> | Hne].
      * (* the head of the snapshot writes to this object *)
        assert (Hp1 : alter (retarget sp) l heap !! l = Some (retarget sp p))
          by (rewrite lookup_alter_eq, Hp; reflexivity).
        destruct (IH _ l _ Hp1) as (q & Hq & Hkept & Hsame & Hwr).
        exists q. split; [exact Hq|]. split.
        { eapply kept_trans; [apply kept_retarget|exact Hkept]. }
        split.
        { intros Hnone. exfalso. apply (Hnone sp); [left|exact Hcm]. }
        intros _ _ _.
        destruct (decide (Exists (fun sp' => cm !! p_id sp' = Some l) rest))
          as [Hex | Hnex].
        -- apply Exists_exists in Hex as (sp1 & Hin1 & Hcm1).
           destruct (Hwr sp1 Hin1 Hcm1) as (sp' & Hin' & Hcm' & Hw).
           exists sp'. split; [right; exact Hin'|auto].
        -- exists sp. split; [left|]. split; [exact Hcm|].
           rewrite Hsame; [apply written_retarget|].
           intros sp1 Hin1 Hcm1. apply Hnex, Exists_exists. eauto.
      * assert (Hp1 : alter (retarget sp) l0 heap !! l = Some p)
          by (rewrite lookup_alter_ne by exact Hne; exact Hp).
        destruct (IH _ l _ Hp1) as (q & Hq & Hkept & Hsame & Hwr).
        exists q. split; [exact Hq|]. split; [exact Hkept|]. split.
        -- intros Hnone. apply Hsame. intros sp1 Hin1.
           apply Hnone. right. exact Hin1.
        -- intros sp1 Hin1 Hcm1.
           apply elem_of_cons in Hin1 as [-> | Hin1]; [congruence|].
           destruct (Hwr sp1 Hin1 Hcm1) as (sp' & Hin' & Hcm' & Hw).
           exists sp'. split; [right; exact Hin'|auto].
    + assert (Hne : fresh (dom heap) <> l).
      { intros Heq. rewrite <- Heq, fresh_unused in Hp. discriminate. }
      assert (Hp1 : <[fresh (dom heap) := adopt sp]> heap !! l = Some p)
        by (rewrite lookup_insert_ne by exact Hne; exact Hp).
      destruct (IH _ l _ Hp1) as (q & Hq & Hkept & Hsame & Hwr).
      exists q. split; [exact Hq|]. split; [exact Hkept|]. split.
      * intros Hnone. apply Hsame. intros sp1 Hin1.
        apply Hnone. right. exact Hin1.
      * intros sp1 Hin1 Hcm1.
        apply elem_of_cons in Hin1 as [-> | Hin1]; [congruence|].
        destruct (Hwr sp1 Hin1 Hcm1) as (sp' & Hin' & Hcm' & Hw).
        exists sp'. split; [right; exact Hin'|auto].
Qed.

(** The entry of the new array at the index of a snapshot entry. *)
Lemma reconcile_lookup cm sps : forall heap i (sp : Player N),
  cm_ok cm heap ->
  sps !! i = Some sp ->
  match cm !! p_id sp with
  | Some l =>
    snd (reconcile cm heap sps) !! i = Some l
    /\ exists p q,
         heap !! l = Some p /\ p_id p = p_id sp
         /\ fst (reconcile cm heap sps) !! l = Some q
         /\ kept p q
         /\ exists sp', sp' ∈ sps /\ p_id sp' = p_id sp /\ written q sp'
  | None =>
    exists l,
      snd (reconcile cm heap sps) !! i = Some l
      /\ heap !! l = None
      /\ fst (reconcile cm heap sps) !! l = Some (adopt sp)
  end.
Proof.
  induction sps as [|sp0 rest IH]; intros heap i sp Hok Hi; [discriminate|].
  destruct i as [|i]; simpl in Hi.
  - injection Hi as ->. rewrite reconcile_cons.
    destruct (cm !! p_id sp) as [l|] eqn:Hcm; cbn [fst snd].
    + split; [reflexivity|].
      destruct (Hok _ _ Hcm) as (p & Hp & Hid).
      destruct (reconcile_heap cm (sp :: rest) heap l p Hp)
        as (q & Hq & Hkept & _ & Hwr).
      rewrite reconcile_cons, Hcm in Hq. cbn [fst] in Hq.
      exists p, q. split; [exact Hp|]. split; [exact Hid|].
      split; [exact Hq|]. split; [exact Hkept|].
      destruct (Hwr sp) as (sp' & Hin' & Hcm' & Hw); [left|exact Hcm|].
      exists sp'. split; [exact Hin'|]. split; [|exact Hw].
      destruct (Hok _ _ Hcm') as (p' & Hp' & Hid'). congruence.
    + exists (fresh (dom heap)). split; [reflexivity|].
      split; [apply fresh_unused|].
      destruct (reconcile_heap cm rest
                  (<[fresh (dom heap) := adopt sp]> heap)
                  (fresh (dom heap)) (adopt sp))
        as (q & Hq & _ & Hsame & _); [apply lookup_insert_eq|].
      rewrite Hq, Hsame; [reflexivity|].
      intros sp1 _ Hcm1. destruct (Hok _ _ Hcm1) as (p1 & Hp1 & _).
      rewrite fresh_unused in Hp1. discriminate.
  - rewrite reconcile_cons.
    destruct (cm !! p_id sp0) as [l0|] eqn:Hcm0; cbn [fst snd].
    + specialize (IH (alter (retarget sp0) l0 heap) i sp
                     (cm_ok_alter _ _ _ _ Hok) Hi).
      destruct (cm !! p_id sp) as [l|] eqn:Hcm.
      * destruct IH as (Hl & p1 & q & Hp1 & Hid1 & Hq & Hkept & sp' & Hin' & Hw).
        split; [exact Hl|].
        destruct (Hok _ _ Hcm) as (p & Hp & Hid).
        exists p, q. split; [exact Hp|]. split; [exact Hid|].
        split; [exact Hq|]. split.
        -- eapply kept_trans; [|exact Hkept].
           destruct (decide (l0 = l)) as [-> | Hne].
           ++ rewrite lookup_alter_eq, Hp in Hp1. injection Hp1 as <-.
              apply kept_retarget.
           ++ rewrite lookup_alter_ne, Hp in Hp1 by exact Hne.
              injection Hp1 as <-. apply kept_refl.
        -- exists sp'. split; [right; exact Hin'|exact Hw].
      * destruct IH as (l & Hl & Hnone & Hq).
        exists l. repeat split; try assumption.
        destruct (decide (l0 = l)) as [-> | Hne].
        -- rewrite lookup_alter_eq in Hnone.
           destruct (heap !! l); [discriminate|reflexivity].
        -- rewrite lookup_alter_ne in Hnone by exact Hne. exact Hnone.
    + specialize (IH (<[fresh (dom heap) := adopt sp0]> heap) i sp
                     (cm_ok_insert _ _ _ Hok) Hi).
      destruct (cm !! p_id sp) as [l|] eqn:Hcm.
      * destruct IH as (Hl & p1 & q & Hp1 & Hid1 & Hq & Hkept & sp' & Hin' & Hw).
        split; [exact Hl|].
        destruct (Hok _ _ Hcm) as (p & Hp & Hid).
        assert (Hne : fresh (dom heap) <> l).
        { intros Heq. rewrite <- Heq, fresh_unused in Hp. discriminate. }
        rewrite lookup_insert_ne, Hp in Hp1 by exact Hne. injection Hp1 as <-.
        exists p, q. split; [exact Hp|]. split; [exact Hid|].
        split; [exact Hq|]. split; [exact Hkept|].
        exists sp'. split; [right; exact Hin'|exact Hw].
      * destruct IH as (l & Hl & Hnone & Hq).
        exists l. repeat split; try assumption.
        apply lookup_insert_None in Hnone as [Hnone _]. exact Hnone.
Qed.

End Reconcile.

Section ClientProperties.
Context {N : Type}.
Implicit Types (heap : gmap nat (Player N)) (cm : gmap string nat).

Lemma onState_heap (c : Client N) payload :
  c_heap (onState c payload)
  = fst (reconcile (currentMapOf (c_heap c) (c_players c)) (c_heap c)
                   (sp_players payload)).
Proof. unfold onState. destruct (reconcile _ _ _); reflexivity. Qed.

Lemma onState_players (c : Client N) payload :
  c_players (onState c payload)
  = snd (reconcile (currentMapOf (c_heap c) (c_players c)) (c_heap c)
                   (sp_players payload)).
Proof. unfold onState. destruct (reconcile _ _ _); reflexivity. Qed.

(** The identities behind the new array are those of the snapshot, entry
    by entry. *)
Lemma reconcile_ids cm sps : forall heap,
  cm_ok cm heap ->
  map p_id (omap (fun l => fst (reconcile cm heap sps) !! l)
                 (snd (reconcile cm heap sps)))
  = map p_id sps.
Proof.
  induction sps as [|sp rest IH]; intros heap Hok; [reflexivity|].
  rewrite reconcile_cons.
  destruct (cm !! p_id sp) as [l|] eqn:Hcm; cbn [fst snd];
    change (omap ?f (?x :: ?xs))
      with (match f x with Some y => y :: omap f xs | None => omap f xs end);
    cbv beta.
  - destruct (Hok _ _ Hcm) as (p & Hp & Hid).
    destruct (reconcile_heap cm rest (alter (retarget sp) l heap) l
                (retarget sp p)) as (q & Hq & Hkept & _).
    { rewrite lookup_alter_eq, Hp. reflexivity. }
    rewrite Hq. cbn [map]. rewrite IH by (apply cm_ok_alter, Hok).
    destruct Hkept as (-> & _). cbn [retarget p_id]. rewrite Hid.
    reflexivity.
  - destruct (reconcile_heap cm rest (<[fresh (dom heap) := adopt sp]> heap)
                (fresh (dom heap)) (adopt sp)) as (q & Hq & Hkept & _).
    { apply lookup_insert_eq. }
    rewrite Hq. cbn [map]. rewrite IH by (apply cm_ok_insert, Hok).
    destruct Hkept as (-> & _). reflexivity.
Qed.

(** C10.  After a State message the identities of the local players are
    those the snapshot carries, entry by entry: the local array has the
    length of the snapshot, and an identity is among the local players if
    and only if it is in the snapshot. *)
Theorem state_message_sets_identities (c : Client N)
    (payload : StatePayload N) :
  map p_id (clientPlayers (onState c payload)) = map p_id (sp_players payload)
  /\ length (clientPlayers (onState c payload))
     = length (sp_players payload)
  /\ forall k : string,
       In k (map p_id (clientPlayers (onState c payload)))
       <-> In k (map p_id (sp_players payload)).
Proof.
  assert (Hids : map p_id (clientPlayers (onState c payload))
                 = map p_id (sp_players payload)).
  { unfold clientPlayers. rewrite onState_heap, onState_players.
    apply reconcile_ids, currentMapOf_ok. }
  split; [exact Hids|]. split.
  - rewrite <- (length_map p_id), Hids, length_map. reflexivity.
  - intros k. rewrite Hids. reflexivity.
Qed.

Lemma same_identity_same_entry (sps : list (Player N)) sp sp' :
  NoDup (map p_id sps) -> sp ∈ sps -> sp' ∈ sps -> p_id sp' = p_id sp ->
  sp' = sp.
Proof.
  induction sps as [|a sps IH]; intros Hnd Hin Hin' Hid.
  - apply elem_of_nil in Hin. contradiction.
  - cbn [map] in Hnd. apply NoDup_cons in Hnd as [Hna Hnd].
    apply elem_of_cons in Hin as [-> | Hin];
      apply elem_of_cons in Hin' as [-> | Hin'].
    + reflexivity.
    + exfalso. apply Hna. rewrite <- Hid.
      apply list_elem_of_fmap. eauto.
    + exfalso. apply Hna. rewrite Hid.
      apply list_elem_of_fmap. eauto.
    + auto.
Qed.

(** C5.  When a client applies a State message, the entry of the local
    array at the index of an incoming player [sp] refers to an object [q]
    such that:
    - if a local player has the identity of [sp], the object is one of the
      local array, with that identity, whose position and other fields are
      kept; only its interpolation target, role and nickname are written,
      from an entry of the snapshot with that identity, which is [sp] when
      the identities of the snapshot are distinct;
    - if no local player has that identity, the object is new, and it is
      [sp] with the interpolation target set to the position of [sp]. *)
Theorem state_message_reconciles (c : Client N) (payload : StatePayload N)
    (i : nat) (sp : Player N) :
  sp_players payload !! i = Some sp ->
  let c' := onState c payload in
  exists l q,
    c_players c' !! i = Some l
    /\ c_heap c' !! l = Some q
    /\ ((exists local, local ∈ clientPlayers c /\ p_id local = p_id sp) ->
        l ∈ c_players c
        /\ exists local,
             c_heap c !! l = Some local
             /\ p_id local = p_id sp
             /\ kept local q
             /\ (exists sp', sp' ∈ sp_players payload
                             /\ p_id sp' = p_id sp /\ written q sp')
             /\ (NoDup (map p_id (sp_players payload)) -> written q sp))
    /\ ((forall local, local ∈ clientPlayers c -> p_id local <> p_id sp) ->
        c_heap c !! l = None
        /\ q = adopt sp
        /\ p_x q = p_x sp /\ p_y q = p_y sp
        /\ p_targetX q = Some (p_x sp) /\ p_targetY q = Some (p_y sp)).
Proof.
  intros Hi. cbv zeta. rewrite onState_heap, onState_players.
  set (cm := currentMapOf (c_heap c) (c_players c)).
  pose proof (reconcile_lookup cm (sp_players payload) (c_heap c) i sp
                (currentMapOf_ok _ _) Hi) as Hlook.
  destruct (cm !! p_id sp) as [l|] eqn:Hcm.
  - destruct Hlook as (Hl & p & q & Hp & Hid & Hq & Hkept & sp' & Hin' & Hid' & Hw).
    exists l, q. split; [exact Hl|]. split; [exact Hq|]. split.
    + intros _.
      apply addEntry_sound in Hcm as [Hcm | (Hin & _)];
        [rewrite lookup_empty in Hcm; discriminate|].
      split; [exact Hin|].
      exists p. split; [exact Hp|]. split; [exact Hid|].
      split; [exact Hkept|]. split; [eauto|].
      intros Hnd.
      rewrite <- (same_identity_same_entry _ sp sp' Hnd); auto.
      apply list_elem_of_lookup. eauto.
    + intros Hnone. exfalso.
      apply (Hnone p); [|exact Hid].
      apply addEntry_sound in Hcm as [Hcm | (Hin & _)];
        [rewrite lookup_empty in Hcm; discriminate|].
      unfold clientPlayers. apply list_elem_of_omap. eauto.
  - destruct Hlook as (l & Hl & Hnone & Hq).
    exists l, (adopt sp). split; [exact Hl|]. split; [exact Hq|]. split.
    + intros (local & Hin & Hid). exfalso.
      unfold clientPlayers in Hin.
      apply list_elem_of_omap in Hin as (l' & Hin' & Hl').
      assert (Hsome : is_Some (cm !! p_id sp)).
      { apply addEntry_complete. right. eauto. }
      rewrite Hcm in Hsome. destruct Hsome as [? Habs]. discriminate.
    + intros _. repeat split; auto.
Qed.

End ClientProperties.

(** *** The client on a concrete message *)

(** [Sample.client] knows the player "a" at (10, 10); [Sample.snapshot]
    reports "a" at (20, 20) as a zombie, and a new player "b". *)
Lemma state_message_reconciles_witness :
  let sp := Sample.player "a" 20 20 ZOMBIE in
  let c := Sample.client in
  let payload := Sample.snapshot in
  let c' := onState c payload in
  exists l q,
    c_players c' !! 0%nat = Some l
    /\ c_heap c' !! l = Some q
    /\ ((exists local, local ∈ clientPlayers c /\ p_id local = p_id sp) ->
        l ∈ c_players c
        /\ exists local,
             c_heap c !! l = Some local
             /\ p_id local = p_id sp
             /\ kept local q
             /\ (exists sp', sp' ∈ sp_players payload
                             /\ p_id sp' = p_id sp /\ written q sp')
             /\ (NoDup (map p_id (sp_players payload)) -> written q sp))
    /\ ((forall local, local ∈ clientPlayers c -> p_id local <> p_id sp) ->
        c_heap c !! l = None
        /\ q = adopt sp
        /\ p_x q = p_x sp /\ p_y q = p_y sp
        /\ p_targetX q = Some (p_x sp) /\ p_targetY q = Some (p_y sp)).
Proof.
  apply (state_message_reconciles Sample.client Sample.snapshot 0%nat
           (Sample.player "a" 20 20 ZOMBIE)).
  reflexivity.
Defined.

(** The same message, run: "a" stays at (10, 10) and is drawn towards
    (20, 20); "b" appears at (30, 30), its own target. *)
Example state_message_run :
  clientPlayers (onState Sample.client Sample.snapshot)
  = [ mkPlayer "a" "a" (ofZ 10) (ofZ 10) PLAYER_RADIUS ZOMBIE PLAYER_SPEED
               false (ofZ 0) (ofZ 0) (ofZ 0) None
               (Some (ofZ 20)) (Some (ofZ 20));
      mkPlayer "b" "b" (ofZ 30) (ofZ 30) PLAYER_RADIUS SURVIVOR PLAYER_SPEED
               false (ofZ 0) (ofZ 0) (ofZ 0) None
               (Some (ofZ 30)) (Some (ofZ 30)) ].
Proof. vm_compute. reflexivity. Qed.

(** ** Obstacle generation and the safe zone *)

Section Generation.
Context {N : Type} `{Number N}.

Lemma wallLoop_centers n (rnd : Random) : forall k acc,
  forallb (fun o => negb (centerInSafeZone o)) acc = true ->
  forallb (fun o => negb (centerInSafeZone o)) (snd (wallLoop n rnd k acc))
  = true.
Proof.
  induction n as [|n IH]; intros k acc Hacc; [exact Hacc|].
  cbn [wallLoop].
  match goal with |- context [if nltb ?d safeZoneRadius then _ else _] =>
    destruct (nltb d safeZoneRadius) eqn:Hfar end.
  - apply IH, Hacc.
  - apply IH. rewrite forallb_app, Hacc. cbn [forallb andb].
    unfold centerInSafeZone, obstacleCenter.
    cbn [o_x o_y o_width o_height].
    rewrite Hfar. reflexivity.
Qed.

Lemma debrisLoop_centers n (rnd : Random) : forall k acc,
  forallb (fun o => negb (centerInSafeZone o)) acc = true ->
  forallb (fun o => negb (centerInSafeZone o)) (snd (debrisLoop n rnd k acc))
  = true.
Proof.
  induction n as [|n IH]; intros k acc Hacc; [exact Hacc|].
  cbn [debrisLoop].
  match goal with |- context [if nltb ?d safeZoneRadius then _ else _] =>
    destruct (nltb d safeZoneRadius) eqn:Hfar end.
  - apply IH, Hacc.
  - apply IH. rewrite forallb_app, Hacc. cbn [forallb andb].
    unfold centerInSafeZone, obstacleCenter.
    cbn [o_x o_y o_width o_height].
    rewrite Hfar. reflexivity.
Qed.

(** C7, as the code has it.  Whatever the random draws, no obstacle that
    [generateObstacles] returns has its centre in the safe zone: the
    distance from the centre of the rectangle to the centre of the map is
    not below [safeZoneRadius]. *)
Theorem generated_centers_outside_safe_zone (rnd : Random) :
  forallb (fun o => negb (centerInSafeZone o)) (generateObstacles rnd) = true.
Proof.
  unfold generateObstacles.
  pose proof (wallLoop_centers WALL_COUNT_LOCAL rnd O [] eq_refl) as Hwalls.
  destruct (wallLoop WALL_COUNT_LOCAL rnd O []) as [k walls].
  apply debrisLoop_centers, Hwalls.
Qed.

(** A bot whose samples all fall within 400 units keeps the target it
    had, whatever the number of attempts. *)
Lemma sampleTarget_all_near fuel (bot : Player N) (rnd : Random) : forall k,
  (forall j,
     nltb (ofZ 400)
          (getDistance (pos bot)
             (mkPoint (nadd (nmul (rnd j) (nsub MAP_WIDTH (ofZ 100))) (ofZ 50))
                      (nadd (nmul (rnd (j + 1)%nat)
                                  (nsub MAP_HEIGHT (ofZ 100))) (ofZ 50))))
     = false) ->
  fst (sampleTarget fuel bot rnd k) = bot.
Proof.
  induction fuel as [|fuel IH]; intros k Hnear; [reflexivity|].
  cbn [sampleTarget]. rewrite Hnear. apply IH, Hnear.
Qed.

End Generation.

(** C7 as stated fails.  With the draws [Sample.draws], each a value
    [Math.random()] can return, the first wall generated is the rectangle
    at (1375, 1230) of width 300 and height 40.  Its centre (1525, 1250) is
    275 from the centre of the map, so it is kept; its left end is 125
    from the centre of the map, inside the safe zone of radius 250. *)
Lemma wall_reaches_into_safe_zone_counterexample :
  (forall k, PrimFloat.leb 0 (Sample.draws k)
             && PrimFloat.ltb (Sample.draws k) 1 = true)
  /\ head (generateObstacles Sample.draws) = Some Sample.wall
  /\ getDistance (nearestInRect mapCenter Sample.wall) mapCenter
     = (ofZ 125 : float)
  /\ overlapsSafeZone Sample.wall = true
  /\ existsb overlapsSafeZone (generateObstacles Sample.draws) = true.
Proof.
  split.
  - intros k. do 4 (destruct k as [|k]; [vm_compute; reflexivity|]).
    vm_compute. reflexivity.
  - repeat split; vm_compute; reflexivity.
Qed.

(** C9 fails on the code.  A bot in the middle of the map with no wander
    target, alone, for which every draw of [Math.random()] is 0.5: the ten
    sampled points are the bot's own position, none is farther than 400,
    the target stays undefined, and the dereference [bot.target!.y]
    throws. *)
Theorem roam_dereferences_undefined_target (M : MathLib float) :
  p_target Sample.bot = None
  /\ fst (sampleTarget 10 Sample.bot Sample.halves 0) = Sample.bot
  /\ updateBot M Sample.bot [Sample.bot] [] Sample.halves 0 = TypeError.
Proof. repeat split; vm_compute; reflexivity. Qed.

(** ** Exact arithmetic: velocity, wall sliding, collision *)

Section ExactVelocity.
Local Open Scope R_scope.

Lemma abs_le_magnitude (a b : R) : Rabs a <= R_sqrt.sqrt (a * a + b * b).
Proof.
  rewrite <- sqrt_Rsqr_abs. apply sqrt_le_1_alt. unfold Rsqr. nra.
Qed.

(** C6, as the code has it.  In the host frame the velocity is first
    smoothed, new = old + (target - old) * 0.2 on each axis; then each
    component is snapped on its own: to 0 when its absolute value is below
    0.01, and left as it is otherwise.  So a velocity of magnitude below
    0.01 becomes (0, 0), and a velocity whose two components are at least
    0.01 in absolute value is unchanged. *)
Theorem velocity_snaps_per_axis (p : Player R) (dx dy : R) :
  let v := smoothVelocity p dx dy in
  let w := snapVelocity v in
  p_dx v = p_dx p + (dx - p_dx p) * (2 / 10)
  /\ p_dy v = p_dy p + (dy - p_dy p) * (2 / 10)
  /\ (Rabs (p_dx v) < 1 / 100 -> p_dx w = 0)
  /\ (1 / 100 <= Rabs (p_dx v) -> p_dx w = p_dx v)
  /\ (Rabs (p_dy v) < 1 / 100 -> p_dy w = 0)
  /\ (1 / 100 <= Rabs (p_dy v) -> p_dy w = p_dy v)
  /\ (magnitude (velocity v) < 1 / 100 -> velocity w = (0, 0))
  /\ (1 / 100 <= Rabs (p_dx v) -> 1 / 100 <= Rabs (p_dy v) ->
      velocity w = velocity v).
Proof.
  cbv zeta.
  set (v := smoothVelocity p dx dy).
  assert (Hx : forall a : R,
             (if Exact.ltb (Rabs a) (1 / 100) then 0 else a)
             = if Rlt_dec (Rabs a) (1 / 100) then 0 else a).
  { intros a. unfold Exact.ltb. destruct (Rlt_dec _ _); reflexivity. }
  assert (Hwx : p_dx (snapVelocity v)
                = if Rlt_dec (Rabs (p_dx v)) (1 / 100) then 0 else p_dx v).
  { unfold snapVelocity, set_vel, dec. exact_ops. cbn [p_dx]. apply Hx. }
  assert (Hwy : p_dy (snapVelocity v)
                = if Rlt_dec (Rabs (p_dy v)) (1 / 100) then 0 else p_dy v).
  { unfold snapVelocity, set_vel, dec. exact_ops. cbn [p_dy]. apply Hx. }
  unfold velocity, magnitude. exact_ops. cbn [fst snd].
  rewrite Hwx, Hwy.
  split; [reflexivity|]. split; [reflexivity|].
  pose proof (abs_le_magnitude (p_dx v) (p_dy v)) as Hmx.
  pose proof (abs_le_magnitude (p_dy v) (p_dx v)) as Hmy.
  rewrite (Rplus_comm (p_dy v * p_dy v)) in Hmy.
  destruct (Rlt_dec (Rabs (p_dx v)) (1 / 100));
    destruct (Rlt_dec (Rabs (p_dy v)) (1 / 100));
    repeat split; intros; try reflexivity; try lra.
Qed.

End ExactVelocity.

(** C6 as stated fails.  A player at rest whose input is (1, 0.04) gets
    the smoothed velocity (0.2, 0.008), of magnitude above 0.2; the snap
    step changes it all the same: the second component becomes 0. *)
Lemma snap_changes_fast_velocity_counterexample :
  let p := Sample.player "a" 100 100 SURVIVOR in
  let v := smoothVelocity p (ofZ 1) (dec 4 100) in
  PrimFloat.leb (dec 2 10) (magnitude (velocity v)) = true
  /\ nltb (magnitude (velocity v)) (dec 1 100) = false
  /\ PrimFloat.eqb (p_dy v) (ofZ 0) = false
  /\ p_dy (snapVelocity v) = ofZ 0
  /\ velocity (snapVelocity v) = (dec 2 10, ofZ 0).
Proof. cbv zeta. repeat split; vm_compute; reflexivity. Qed.

Section ExactSteering.
Local Open Scope R_scope.

(** The normal of a wall is zero or a unit vector along an axis. *)
Lemma surfaceNormal_unit (bot : Player R) (wallHit : Obstacle R) :
  let n := surfaceNormal bot wallHit in
  n = (0, 0) \/ fst n * fst n + snd n * snd n = 1.
Proof.
  cbv zeta. unfold surfaceNormal. exact_ops.
  match goal with |- context [Exact.ltb ?a ?b] => destruct (Exact.ltb a b) end;
    cbn [fst snd]; unfold Exact.sign;
    repeat match goal with |- context [Rlt_dec ?a ?b] =>
             destruct (Rlt_dec a b) end;
    solve [left; reflexivity | right; lra].
Qed.

(** Normalising a vector that is not short gives a unit vector of the
    same direction. *)
Lemma normalize_unit (v : R * R) :
  1 / 1000 < R_sqrt.sqrt (fst v * fst v + snd v * snd v) ->
  let len := R_sqrt.sqrt (fst v * fst v + snd v * snd v) in
  normalize v = (fst v / len, snd v / len)
  /\ magnitude (normalize v) = 1.
Proof.
  intros Hlen. cbv zeta.
  assert (Hn : normalize v
               = (fst v / R_sqrt.sqrt (fst v * fst v + snd v * snd v),
                  snd v / R_sqrt.sqrt (fst v * fst v + snd v * snd v))).
  { unfold normalize, dec. exact_ops.
    destruct (Exact.ltb _ _) eqn:Hb; [reflexivity|].
    apply ExactFacts.ltb_false in Hb. lra. }
  split; [exact Hn|]. rewrite Hn. unfold magnitude. exact_ops. cbn [fst snd].
  set (s := fst v * fst v + snd v * snd v) in *.
  assert (Hs : 0 <= s) by (unfold s; nra).
  pose proof (sqrt_sqrt s Hs) as Hsq.
  set (len := R_sqrt.sqrt s) in *.
  replace (fst v / len * (fst v / len) + snd v / len * (snd v / len))
    with 1; [apply sqrt_1|].
  unfold s in Hsq. field_simplify_eq; [lra|lra].
Qed.

(** C8.  For whatever wall the look-ahead found, if the desired vector has
    a negative dot product with the surface normal computed for that
    wall, then after the slide its dot product with that normal is not
    negative, and it has magnitude 1. *)
Theorem wall_slide_turns_away (bot : Player R) (wallHit : Obstacle R)
    (target : R * R) :
  let n := surfaceNormal bot wallHit in
  dotProduct target n < 0 ->
  let slid := wallSlide bot wallHit target in
  0 <= dotProduct slid n /\ magnitude slid = 1.
Proof.
  cbv zeta. intros Hdot.
  pose proof (surfaceNormal_unit bot wallHit) as Hn. cbv zeta in Hn.
  unfold wallSlide.
  destruct (surfaceNormal bot wallHit) as [nx ny].
  destruct target as [tx ty].
  unfold dotProduct in *. exact_ops. cbn [fst snd] in *.
  destruct Hn as [Hn | Hn]; [injection Hn as -> ->; exfalso; lra|].
  destruct (Exact.ltb _ _) eqn:Hb;
    [|apply ExactFacts.ltb_false in Hb; lra].
  unfold dec. exact_ops.
  set (d := tx * nx + ty * ny) in *.
  set (vx := tx - nx * d + nx * (5 / 10)).
  set (vy := ty - ny * d + ny * (5 / 10)).
  assert (Hvn : vx * nx + vy * ny = 1 / 2).
  { replace (vx * nx + vy * ny)
      with (d - d * (nx * nx + ny * ny) + (nx * nx + ny * ny) * (5 / 10))
      by (unfold vx, vy, d; ring).
    rewrite Hn. lra. }
  assert (Hvv : 1 / 4 <= vx * vx + vy * vy).
  { assert (Hcs : (vx * vx + vy * vy) * (nx * nx + ny * ny)
                  = (vx * nx + vy * ny) * (vx * nx + vy * ny)
                    + (vx * ny - vy * nx) * (vx * ny - vy * nx)) by ring.
    rewrite Hn, Hvn in Hcs.
    pose proof (Rle_0_sqr (vx * ny - vy * nx)) as Hsq. unfold Rsqr in Hsq.
    lra. }
  assert (Hlen : 1 / 2 <= R_sqrt.sqrt (vx * vx + vy * vy)).
  { replace (1 / 2) with (R_sqrt.sqrt (1 / 4)).
    - apply sqrt_le_1_alt, Hvv.
    - replace (1 / 4) with ((1 / 2) * (1 / 2)) by lra.
      apply sqrt_square. lra. }
  destruct (normalize_unit (vx, vy)) as [Hnorm Hmag];
    [cbn [fst snd]; lra|].
  split; [|exact Hmag].
  rewrite Hnorm. cbn [fst snd].
  set (len := R_sqrt.sqrt (vx * vx + vy * vy)) in *.
  replace (vx / len * nx + vy / len * ny) with ((1 / 2) / len).
  - apply Rlt_le, Rdiv_lt_0_compat; lra.
  - rewrite <- Hvn. field. lra.
Qed.

End ExactSteering.

(** The wall is to the right of the bot, which wants to go right: the
    normal is (-1, 0), the desired vector (1, 0). *)
Lemma wall_slide_turns_away_witness :
  let bot := ExactSample.player 0 50 in
  let n := surfaceNormal bot ExactSample.wall in
  let slid := wallSlide bot ExactSample.wall (1, 0)%R in
  (0 <= dotProduct slid n)%R /\ magnitude slid = 1%R.
Proof.
  apply (wall_slide_turns_away (ExactSample.player 0 50) ExactSample.wall
           (1, 0)%R).
  unfold dotProduct, surfaceNormal, ExactSample.player, ExactSample.wall.
  exact_ops. cbn [p_x p_y o_x o_y o_width o_height].
  replace (0 - (10 + 40 / 2))%R with (-30)%R by lra.
  replace (50 - (0 + 100 / 2))%R with 0%R by lra.
  rewrite Rabs_R0, Rabs_left by lra.
  unfold Exact.ltb, Exact.sign.
  repeat match goal with |- context [Rlt_dec ?a ?b] =>
           destruct (Rlt_dec a b) end;
    cbn [fst snd]; lra.
Defined.

Section ExactCollision.
Local Open Scope R_scope.

Ltac split_minmax :=
  unfold Rmax;
  repeat match goal with |- context [Rle_dec ?a ?b] =>
           destruct (Rle_dec a b) end;
  unfold Rmin;
  repeat match goal with |- context [Rle_dec ?a ?b] =>
           destruct (Rle_dec a b) end.

Lemma clamp_exact (v lo hi : R) : clamp v lo hi = Rmin (Rmax v lo) hi.
Proof. reflexivity. Qed.

Lemma clamp_between (v lo hi : R) :
  lo <= hi -> lo <= clamp v lo hi <= hi.
Proof. intros Hle. rewrite clamp_exact. split_minmax; lra. Qed.

(** Moving away from the nearest point of an interval does not change
    which point is nearest. *)
Lemma clamp_pushed (v lo hi t : R) :
  0 <= t ->
  clamp (v + (v - clamp v lo hi) * t) lo hi = clamp v lo hi.
Proof.
  intros Ht. rewrite !clamp_exact.
  assert (Hcases : Rmin (Rmax v lo) hi = v
                   \/ (Rmin (Rmax v lo) hi = lo /\ v <= lo /\ lo <= hi)
                   \/ (Rmin (Rmax v lo) hi = hi /\ (hi <= v \/ hi <= lo)))
    by (split_minmax;
        first [ left; lra
              | right; left; repeat split; lra
              | right; right; split; [lra | first [left; lra | right; lra]] ]).
  destruct Hcases as [Hc | [(-> & Hv & Hlh) | (-> & Hv)]].
  - rewrite Hc at 1. replace (v + (v - v) * t) with v by ring. reflexivity.
  - assert (v + (v - lo) * t <= lo) by nra. split_minmax; lra.
  - destruct Hv as [Hv | Hv].
    + assert (hi <= v + (v - hi) * t) by nra. split_minmax; lra.
    + split_minmax; lra.
Qed.

Lemma sqrt_ge (r s : R) : 0 <= r -> r * r <= s -> r <= R_sqrt.sqrt s.
Proof.
  intros Hr Hs. rewrite <- (sqrt_square r Hr). apply sqrt_le_1_alt, Hs.
Qed.

Lemma sqrt_ge_inv (r s : R) : 0 <= s -> r <= R_sqrt.sqrt s -> 0 <= r ->
  r * r <= s.
Proof.
  intros Hs Hle Hr. rewrite <- (sqrt_sqrt s Hs).
  pose proof (sqrt_pos s). nra.
Qed.

Lemma square_far (r d e : R) :
  0 <= r -> r < d \/ d < - r -> r * r <= d * d + e * e.
Proof.
  intros Hr Hd. pose proof (Rle_0_sqr e) as He. unfold Rsqr in He.
  destruct Hd; nra.
Qed.

Lemma overlaps_false (p : Player R) (obs : Obstacle R) :
  overlaps p obs = false <-> p_radius p <= distToRect p obs.
Proof. unfold overlaps. exact_ops. apply ExactFacts.ltb_false. Qed.

Lemma distToRect_exact (p : Player R) (obs : Obstacle R) :
  distToRect p obs = R_sqrt.sqrt (distanceSquaredTo p obs).
Proof. reflexivity. Qed.

Lemma distanceSquaredTo_nonneg (p : Player R) (obs : Obstacle R) :
  0 <= distanceSquaredTo p obs.
Proof.
  unfold distanceSquaredTo. exact_ops.
  apply Rplus_le_le_0_compat; apply Rle_0_sqr.
Qed.

(** A player whose circle does not reach the rectangle is left alone. *)
Lemma pushOut_clear (p : Player R) (obs : Obstacle R) :
  0 <= p_radius p -> overlaps p obs = false -> pushOut p obs = p.
Proof.
  intros Hr Hclear. apply overlaps_false in Hclear.
  rewrite distToRect_exact in Hclear.
  apply sqrt_ge_inv in Hclear;
    [|apply distanceSquaredTo_nonneg|exact Hr].
  unfold pushOut. destruct (_ || _); [reflexivity|].
  change (clamp (p_x p) (o_x obs) (nadd (o_x obs) (o_width obs)))
    with (pt_x (nearestInRect (pos p) obs)).
  change (clamp (p_y p) (o_y obs) (nadd (o_y obs) (o_height obs)))
    with (pt_y (nearestInRect (pos p) obs)).
  fold (distanceSquaredTo p obs). exact_ops.
  destruct (Exact.ltb (distanceSquaredTo p obs) _) eqn:Hlt; [|reflexivity].
  apply ExactFacts.ltb_true in Hlt. lra.
Qed.

(** After its turn in the loop, a rectangle whose nearest point was
    farther than 0.01 from the centre is at the radius or farther. *)
Lemma pushOut_separates (p : Player R) (obs : Obstacle R) :
  0 <= p_radius p -> 0 <= o_width obs -> 0 <= o_height obs ->
  nonDegenerate p obs = true ->
  overlaps (pushOut p obs) obs = false.
Proof.
  intros Hr Hw Hh Hnd.
  unfold nonDegenerate, dec in Hnd. exact_ops.
  apply ExactFacts.ltb_true in Hnd.
  pose proof (distanceSquaredTo_nonneg p obs) as Hpos.
  pose proof (clamp_between (p_x p) (o_x obs) (o_x obs + o_width obs)
                ltac:(lra)) as Hcx.
  pose proof (clamp_between (p_y p) (o_y obs) (o_y obs + o_height obs)
                ltac:(lra)) as Hcy.
  assert (Hdsq : distanceSquaredTo p obs
                 = (p_x p - clamp (p_x p) (o_x obs) (o_x obs + o_width obs))
                   * (p_x p - clamp (p_x p) (o_x obs) (o_x obs + o_width obs))
                   + (p_y p - clamp (p_y p) (o_y obs) (o_y obs + o_height obs))
                     * (p_y p - clamp (p_y p) (o_y obs)
                                      (o_y obs + o_height obs)))
    by reflexivity.
  unfold pushOut. exact_ops.
  set (cx := clamp (p_x p) (o_x obs) (o_x obs + o_width obs)) in *.
  set (cy := clamp (p_y p) (o_y obs) (o_y obs + o_height obs)) in *.
  rewrite <- Hdsq.
  set (dsq := distanceSquaredTo p obs) in *.
  destruct (_ || _) eqn:Hbroad.
  - (* rejected by the broad phase: the rectangle is farther than the radius *)
    apply overlaps_false. rewrite distToRect_exact. fold dsq.
    apply sqrt_ge; [exact Hr|].
    repeat (apply orb_true_iff in Hbroad as [Hbroad | Hbroad]);
      apply ExactFacts.ltb_true in Hbroad;
      [ assert (cx = o_x obs)
          by (unfold cx; rewrite clamp_exact; split_minmax; lra)
      | assert (cx = o_x obs + o_width obs)
          by (unfold cx; rewrite clamp_exact; split_minmax; lra)
      | assert (cy = o_y obs)
          by (unfold cy; rewrite clamp_exact; split_minmax; lra)
      | assert (cy = o_y obs + o_height obs)
          by (unfold cy; rewrite clamp_exact; split_minmax; lra) ];
      rewrite Hdsq;
      first [ apply square_far; [exact Hr|lra]
            | rewrite Rplus_comm; apply square_far; [exact Hr|lra] ].
  - destruct (Exact.ltb dsq (p_radius p * p_radius p)) eqn:Hlt; cbn [andb].
    + (* pushed out *)
      apply ExactFacts.ltb_true in Hlt.
      assert (Hgt : Exact.ltb (1 / 10000) dsq = true)
        by (apply ExactFacts.ltb_true; exact Hnd).
      unfold dec. exact_ops. rewrite Hgt.
      pose proof (sqrt_sqrt dsq Hpos) as Hdd.
      assert (Hd : 0 < R_sqrt.sqrt dsq) by (apply sqrt_lt_R0; lra).
      set (d := R_sqrt.sqrt dsq) in *.
      assert (Hdr : d < p_radius p) by nra.
      set (t := (p_radius p - d) / d).
      assert (Ht : 0 <= t).
      { unfold t. apply Rlt_le, Rdiv_lt_0_compat; lra. }
      set (q := set_pos p _ _).
      assert (Hqx : p_x q = p_x p + (p_x p - cx) * t)
        by (unfold q, t; cbn [set_pos p_x]; field; lra).
      assert (Hqy : p_y q = p_y p + (p_y p - cy) * t)
        by (unfold q, t; cbn [set_pos p_y]; field; lra).
      apply overlaps_false. rewrite distToRect_exact.
      change (p_radius q) with (p_radius p).
      apply sqrt_ge; [exact Hr|].
      unfold distanceSquaredTo, nearestInRect, pos. exact_ops.
      cbn [pt_x pt_y]. rewrite Hqx, Hqy.
      unfold cx, cy. rewrite !clamp_pushed by exact Ht.
      fold cx cy.
      replace ((p_x p + (p_x p - cx) * t - cx)
               * (p_x p + (p_x p - cx) * t - cx)
               + (p_y p + (p_y p - cy) * t - cy)
                 * (p_y p + (p_y p - cy) * t - cy))
        with (dsq * ((1 + t) * (1 + t))) by (rewrite Hdsq; ring).
      replace (1 + t) with (p_radius p / d) by (unfold t; field; lra).
      rewrite <- Hdd. apply Req_le. field. lra.
    + (* not overlapping *)
      apply ExactFacts.ltb_false in Hlt.
      apply overlaps_false. rewrite distToRect_exact. fold dsq.
      apply sqrt_ge; assumption.
Qed.

End ExactCollision.

Section ExactResolution.
Local Open Scope R_scope.

Lemma clampToMap_inMap (player : Player R) :
  0 <= p_radius player -> p_radius player <= 1250 ->
  inMap (clampToMap player) = true.
Proof.
  intros Hr Hhalf.
  unfold inMap, clampToMap, MAP_WIDTH, MAP_HEIGHT. exact_ops.
  cbn [set_pos p_x p_y p_radius].
  pose proof (clamp_between (p_x player) (p_radius player)
                (2500 - p_radius player) ltac:(lra)) as Hx.
  pose proof (clamp_between (p_y player) (p_radius player)
                (2500 - p_radius player) ltac:(lra)) as Hy.
  rewrite !andb_true_iff, !negb_true_iff, !ExactFacts.ltb_false.
  repeat split; lra.
Qed.

Lemma pushOut_all_clear (obstacles : list (Obstacle R)) (q : Player R) :
  0 <= p_radius q ->
  forallb (fun o => negb (overlaps q o)) obstacles = true ->
  fold_left pushOut obstacles q = q.
Proof.
  intros Hr. induction obstacles as [|o os IH]; intros Hclear;
    [reflexivity|].
  cbn [forallb] in Hclear. apply andb_true_iff in Hclear as [Ho Hos].
  apply negb_true_iff in Ho. cbn [fold_left].
  rewrite pushOut_clear by assumption. apply IH, Hos.
Qed.

(** C1, as the code has it.  For a player whose radius is between 0 and
    half the map:
    - the position [resolveCollision] starts from, clamped, lies in
      [radius, mapDimension - radius] on both axes;
    - if the clamped circle overlaps no obstacle, the player is left at
      the clamped position, in the map and clear of every obstacle;
    - the obstacle handled last is clear of the player's circle at the
      end, provided the player's centre was farther than 0.01 from that
      rectangle (squared distance above 0.0001) when its turn came. *)
Theorem resolveCollision_guarantee (player : Player R)
    (obstacles : list (Obstacle R)) (obs : Obstacle R) :
  0 <= p_radius player -> p_radius player <= 1250 ->
  0 <= o_width obs -> 0 <= o_height obs ->
  let clamped := clampToMap player in
  let before := resolveCollision player obstacles in
  let after := resolveCollision player (obstacles ++ [obs]) in
  inMap clamped = true
  /\ (forallb (fun o => negb (overlaps clamped o)) obstacles = true ->
      before = clamped
      /\ inMap before = true
      /\ forallb (fun o => negb (overlaps before o)) obstacles = true)
  /\ (nonDegenerate before obs = true -> overlaps after obs = false).
Proof.
  intros Hr Hhalf Hw Hh. cbv zeta.
  pose proof (clampToMap_inMap player Hr Hhalf) as Hin.
  split; [exact Hin|]. split.
  - intros Hclear.
    assert (Hsame : resolveCollision player obstacles = clampToMap player)
      by (apply pushOut_all_clear; [exact Hr|exact Hclear]).
    rewrite Hsame. auto.
  - intros Hnd. unfold resolveCollision at 1.
    rewrite fold_left_app. cbn [fold_left].
    fold (resolveCollision player obstacles).
    apply pushOut_separates; try assumption.
    destruct (resolveCollision_fields player obstacles) as (_ & _ & ->).
    exact Hr.
Qed.

End ExactResolution.

(** A player clamped to x = 15 next to a block that starts at x = 20. *)
Lemma resolveCollision_guarantee_witness :
  let player := ExactSample.player 0 100 in
  let clamped := clampToMap player in
  let before := resolveCollision player [] in
  let after := resolveCollision player ([] ++ [ExactSample.block]) in
  inMap clamped = true
  /\ (forallb (fun o => negb (overlaps clamped o)) [] = true ->
      before = clamped
      /\ inMap before = true
      /\ forallb (fun o => negb (overlaps before o)) [] = true)
  /\ (nonDegenerate before ExactSample.block = true ->
      overlaps after ExactSample.block = false).
Proof.
  apply (resolveCollision_guarantee (ExactSample.player 0 100) []
           ExactSample.block);
    unfold ExactSample.player, ExactSample.block, PLAYER_RADIUS;
    cbn [p_radius o_width o_height ofZ R_Number]; lra.
Defined.

(** C1 as stated fails, on both counts.  A player whose centre is inside a
    rectangle is not moved: it ends at distance 0 from the rectangle.  A
    player at the left edge of the map is clamped to x = 15 and then pushed
    out of a rectangle that starts at x = 20, to x = 5, below its
    radius. *)
Lemma resolveCollision_counterexample :
  let inside := resolveCollision (Sample.player "a" 100 100 SURVIVOR)
                                 [Sample.block 50 50] in
  let pushed := resolveCollision (Sample.player "a" 0 100 SURVIVOR)
                                 [Sample.block 20 50] in
  distToRect inside (Sample.block 50 50) = ofZ 0
  /\ overlaps inside (Sample.block 50 50) = true
  /\ p_x pushed = ofZ 5
  /\ p_radius pushed = ofZ 15
  /\ inMap pushed = false.
Proof. cbv zeta. repeat split; vm_compute; reflexivity. Qed.

(** The same slide on binary64: the bot at (0, 50) heads right into the
    wall that starts at x = 10; the slide turns it to (-1, 0), along the
    normal. *)
Example wall_slide_run :
  let bot := Sample.player "bot" 0 50 SURVIVOR in
  let wall := mkObstacle (ofZ 10) (ofZ 0) (ofZ 40) (ofZ 100) in
  surfaceNormal bot wall = (ofZ (-1), ofZ 0)
  /\ wallSlide bot wall (ofZ 1, ofZ 0) = (ofZ (-1), ofZ 0)
  /\ magnitude (wallSlide bot wall (ofZ 1, ofZ 0)) = ofZ 1.
Proof. cbv zeta. repeat split; vm_compute; reflexivity. Qed.

(** * More of the code *)

(** ** utils/gameLogic.ts: the segment test, generation, push-out *)

Section ExactSegment.
Local Open Scope R_scope.

Lemma midpoint_between (a b : R) :
  Rmin a b <= (a + b) / 2 <= Rmax a b.
Proof.
  unfold Rmin, Rmax. destruct (Rle_dec a b); lra.
Qed.

Lemma insidePadded_exact (c : Point R) (obs : Obstacle R) (padding : R) :
  insidePadded c obs padding = true
  <-> (o_x obs - padding < pt_x c < o_x obs + o_width obs + padding
       /\ o_y obs - padding < pt_y c < o_y obs + o_height obs + padding).
Proof.
  unfold insidePadded. exact_ops.
  rewrite !andb_true_iff, !ExactFacts.ltb_true. tauto.
Qed.

(** X1.  In exact arithmetic the segment test is the test of the
    midpoint, and nothing else: it answers with the midpoint when the
    midpoint lies strictly inside the padded rectangle, and with nothing
    otherwise, wherever the ends of the segment are.  The broad phase
    never changes the answer. *)
Theorem segment_test_is_midpoint_test (p1 p2 : Point R) (obs : Obstacle R)
    (padding : R) :
  getLineRectIntersection p1 p2 obs padding
  = if insidePadded (midpoint p1 p2) obs padding
    then Some (midpoint p1 p2, obs)
    else None.
Proof.
  destruct (insidePadded (midpoint p1 p2) obs padding) eqn:Hin.
  - pose proof Hin as Hin'. apply insidePadded_exact in Hin'.
    unfold midpoint in Hin'. exact_ops. cbn [pt_x pt_y] in Hin'.
    pose proof (midpoint_between (pt_x p1) (pt_x p2)) as Hx.
    pose proof (midpoint_between (pt_y p1) (pt_y p2)) as Hy.
    unfold getLineRectIntersection. exact_ops.
    assert (Hbroad :
              Exact.ltb (Rmax (pt_x p1) (pt_x p2)) (o_x obs - padding)
              || Exact.ltb (o_x obs + o_width obs + padding)
                           (Rmin (pt_x p1) (pt_x p2))
              || Exact.ltb (Rmax (pt_y p1) (pt_y p2)) (o_y obs - padding)
              || Exact.ltb (o_y obs + o_height obs + padding)
                           (Rmin (pt_y p1) (pt_y p2))
              = false).
    { rewrite !orb_false_iff, !ExactFacts.ltb_false. lra. }
    rewrite Hbroad.
    unfold insidePadded, midpoint in Hin. exact_ops. cbn [pt_x pt_y] in Hin.
    rewrite Hin. reflexivity.
  - unfold getLineRectIntersection. exact_ops.
    destruct (_ || _); [reflexivity|].
    unfold insidePadded, midpoint in Hin. exact_ops. cbn [pt_x pt_y] in Hin.
    rewrite Hin. reflexivity.
Qed.

End ExactSegment.

Section GenerationCount.
Context {N : Type} `{Number N}.

Lemma wallLoop_length n (rnd : Random) : forall k acc,
  (length (snd (wallLoop n rnd k acc)) <= length acc + n)%nat.
Proof.
  induction n as [|n IH]; intros k acc; cbn [wallLoop]; [simpl; lia|].
  destruct (nltb _ safeZoneRadius).
  - specialize (IH (k + 4)%nat acc). lia.
  - match goal with |- context [wallLoop n rnd _ (acc ++ [?o])] =>
      specialize (IH (k + 4)%nat (acc ++ [o])) end.
    rewrite length_app in IH. simpl in IH. lia.
Qed.

Lemma debrisLoop_length n (rnd : Random) : forall k acc,
  (length (snd (debrisLoop n rnd k acc)) <= length acc + n)%nat.
Proof.
  induction n as [|n IH]; intros k acc; cbn [debrisLoop]; [simpl; lia|].
  destruct (nltb _ safeZoneRadius).
  - specialize (IH (k + 3)%nat acc). lia.
  - match goal with |- context [debrisLoop n rnd _ (acc ++ [?o])] =>
      specialize (IH (k + 3)%nat (acc ++ [o])) end.
    rewrite length_app in IH. simpl in IH. lia.
Qed.

(** Whatever the draws, [generateObstacles] returns at most 130
    obstacles: 50 walls and 80 pieces of debris, less those rejected. *)
Lemma generateObstacles_at_most_130 (rnd : Random) :
  (length (generateObstacles rnd) <= 130)%nat.
Proof.
  unfold generateObstacles.
  pose proof (wallLoop_length WALL_COUNT_LOCAL rnd O []) as Hw.
  destruct (wallLoop WALL_COUNT_LOCAL rnd O []) as [k walls].
  pose proof (debrisLoop_length DEBRIS_COUNT_LOCAL rnd k walls) as Hd.
  cbn [snd length] in *. unfold WALL_COUNT_LOCAL, DEBRIS_COUNT_LOCAL in *.
  lia.
Qed.

(** Collision resolution only ever writes the position. *)
Lemma set_pos_set_pos (p : Player N) a b c d :
  set_pos (set_pos p a b) c d = set_pos p c d.
Proof. reflexivity. Qed.

Lemma pushOut_is_set_pos (p : Player N) obs a b :
  exists c d, pushOut (set_pos p a b) obs = set_pos p c d.
Proof.
  unfold pushOut.
  repeat match goal with |- context [if ?c then _ else _] => destruct c end;
    eauto.
Qed.

Lemma resolveCollision_is_set_pos (p : Player N) obstacles :
  exists x y, resolveCollision p obstacles = set_pos p x y.
Proof.
  unfold resolveCollision.
  assert (Hc : exists a b, clampToMap p = set_pos p a b)
    by (unfold clampToMap; eauto).
  destruct Hc as (a & b & ->). revert a b.
  induction obstacles as [|o os IH]; intros a b; cbn [fold_left]; [eauto|].
  destruct (pushOut_is_set_pos p o a b) as (c & d & ->). apply IH.
Qed.

End GenerationCount.

Section ExactGeneration.
Local Open Scope R_scope.
Import ExactShape.

Lemma wallLoop_shapes n (rnd : nat -> R) : unitDraws rnd -> forall k acc,
  Forall placedAndShaped acc ->
  Forall placedAndShaped (snd (wallLoop n rnd k acc)).
Proof.
  intros Hrnd. induction n as [|n IH]; intros k acc Hacc; [exact Hacc|].
  cbn [wallLoop].
  destruct (nltb _ safeZoneRadius); [apply IH, Hacc|].
  apply IH. apply Forall_app. split; [exact Hacc|].
  constructor; [|constructor].
  pose proof (Hrnd (k + 1)%nat) as H1. pose proof (Hrnd (k + 2)%nat) as H2.
  pose proof (Hrnd (k + 3)%nat) as H3.
  unfold placedAndShaped, inTheMap, wallShaped, debrisShaped, dec,
    MAP_WIDTH, MAP_HEIGHT.
  exact_ops. cbn [o_x o_y o_width o_height].
  destruct (Exact.ltb _ _); (split; [|left]).
  - repeat split; nra.
  - left. split; [reflexivity|lra].
  - repeat split; nra.
  - right. split; [reflexivity|lra].
Qed.

Lemma debrisLoop_shapes n (rnd : nat -> R) : unitDraws rnd -> forall k acc,
  Forall placedAndShaped acc ->
  Forall placedAndShaped (snd (debrisLoop n rnd k acc)).
Proof.
  intros Hrnd. induction n as [|n IH]; intros k acc Hacc; [exact Hacc|].
  cbn [debrisLoop].
  destruct (nltb _ safeZoneRadius); [apply IH, Hacc|].
  apply IH. apply Forall_app. split; [exact Hacc|].
  constructor; [|constructor].
  pose proof (Hrnd k) as H0. pose proof (Hrnd (k + 1)%nat) as H1.
  pose proof (Hrnd (k + 2)%nat) as H2.
  unfold placedAndShaped, inTheMap, wallShaped, debrisShaped, MAP_WIDTH,
    MAP_HEIGHT.
  exact_ops. cbn [o_x o_y o_width o_height].
  split; [repeat split; nra|].
  right. split; [reflexivity|lra].
Qed.

(** X2.  With draws in [0, 1), as [Math.random()] gives them, every
    generated obstacle lies within the map, and is either a wall, 40 thick
    and from 100 to below 500 long along one axis, or a square of debris
    of side from 30 to below 80 (exact arithmetic). *)
Theorem generated_obstacles_in_the_map (rnd : nat -> R) :
  unitDraws rnd ->
  Forall (fun o => inTheMap o /\ (wallShaped o \/ debrisShaped o))
         (generateObstacles rnd).
Proof.
  intros Hrnd. unfold generateObstacles.
  pose proof (wallLoop_shapes WALL_COUNT_LOCAL rnd Hrnd O []
                ltac:(constructor)) as Hwalls.
  destruct (wallLoop WALL_COUNT_LOCAL rnd O []) as [k walls].
  apply (debrisLoop_shapes DEBRIS_COUNT_LOCAL rnd Hrnd k walls Hwalls).
Qed.

(** Both loops only ever append to the list they were given. *)
Lemma wallLoop_prefix n (rnd : nat -> R) : forall k acc,
  exists rest, snd (wallLoop n rnd k acc) = acc ++ rest.
Proof.
  induction n as [|n IH]; intros k acc.
  - exists []. cbn. rewrite app_nil_r. reflexivity.
  - cbn [wallLoop]. destruct (nltb _ safeZoneRadius); [apply IH|].
    match goal with |- context [acc ++ [?o]] =>
      destruct (IH (k + 4)%nat (acc ++ [o])) as (rest & ->);
      exists (o :: rest) end.
    rewrite <- app_assoc. reflexivity.
Qed.

Lemma debrisLoop_prefix n (rnd : nat -> R) : forall k acc,
  exists rest, snd (debrisLoop n rnd k acc) = acc ++ rest.
Proof.
  induction n as [|n IH]; intros k acc.
  - exists []. cbn. rewrite app_nil_r. reflexivity.
  - cbn [debrisLoop]. destruct (nltb _ safeZoneRadius); [apply IH|].
    match goal with |- context [acc ++ [?o]] =>
      destruct (IH (k + 3)%nat (acc ++ [o])) as (rest & ->);
      exists (o :: rest) end.
    rewrite <- app_assoc. reflexivity.
Qed.

(** With every draw 0.25 a wall comes out vertical and 200 long, at
    (615, 575); its centre is more than 250 from the centre of the map,
    and the wall is kept. *)
Lemma quarters_wall_kept n k acc :
  wallLoop (S n) ExactSample.quarters k acc
  = wallLoop n ExactSample.quarters (k + 4)%nat
             (acc ++ [ExactSample.firstWall]).
Proof.
  cbn [wallLoop]. unfold ExactSample.quarters, ExactSample.firstWall, dec,
    getDistance, pow2, mapCenter, safeZoneRadius, MAP_WIDTH, MAP_HEIGHT.
  exact_ops. cbn [pt_x pt_y].
  assert (Hvertical : Exact.ltb (5 / 10) (1 / 4) = false)
    by (apply ExactFacts.ltb_false; lra).
  rewrite Hvertical.
  match goal with |- context [Exact.ltb ?d 250] =>
    assert (Hfar : Exact.ltb d 250 = false)
      by (apply ExactFacts.ltb_false, sqrt_ge; lra);
    rewrite Hfar end.
  do 2 f_equal. f_equal. f_equal; lra.
Qed.

End ExactGeneration.

(** Every draw 0.25: the first wall is kept and heads the list, and it
    lies in the map with the shape of a wall. *)
Lemma generated_obstacles_in_the_map_witness :
  (exists rest,
     generateObstacles ExactSample.quarters = ExactSample.firstWall :: rest)
  /\ Forall (fun o => ExactShape.inTheMap o
                      /\ (ExactShape.wallShaped o
                          \/ ExactShape.debrisShaped o))
            (generateObstacles ExactSample.quarters).
Proof.
  split.
  - unfold generateObstacles.
    change (wallLoop WALL_COUNT_LOCAL) with (wallLoop (S 49)).
    rewrite (quarters_wall_kept 49 0 []).
    match goal with |- context [wallLoop ?n ?r ?k ?acc] =>
      destruct (wallLoop_prefix n r k acc) as (walls & Hwalls);
      destruct (wallLoop n r k acc) as [k1 ws] end.
    cbn [snd] in Hwalls. subst ws.
    match goal with |- context [debrisLoop ?n ?r ?k ?acc] =>
      destruct (debrisLoop_prefix n r k acc) as (debris & ->) end.
    exists (walls ++ debris). rewrite <- app_assoc. reflexivity.
  - apply (generated_obstacles_in_the_map ExactSample.quarters).
    intros k. unfold ExactSample.quarters. lra.
Defined.

Section ExactPush.
Local Open Scope R_scope.

Lemma pushOut_degenerate (p : Player R) (obs : Obstacle R) :
  nonDegenerate p obs = false -> pushOut p obs = p.
Proof.
  intros Hnd. unfold pushOut. destruct (_ || _); [reflexivity|].
  change (clamp (p_x p) (o_x obs) (nadd (o_x obs) (o_width obs)))
    with (pt_x (nearestInRect (pos p) obs)).
  change (clamp (p_y p) (o_y obs) (nadd (o_y obs) (o_height obs)))
    with (pt_y (nearestInRect (pos p) obs)).
  fold (distanceSquaredTo p obs).
  unfold nonDegenerate in Hnd. rewrite Hnd, andb_false_r. reflexivity.
Qed.

(** X3.  Pushing a player out of a rectangle twice is pushing it out
    once: after its turn an obstacle has nothing left to push (exact
    arithmetic; radius, width and height not negative). *)
Theorem pushOut_idempotent (p : Player R) (obs : Obstacle R) :
  0 <= p_radius p -> 0 <= o_width obs -> 0 <= o_height obs ->
  pushOut (pushOut p obs) obs = pushOut p obs.
Proof.
  intros Hr Hw Hh.
  destruct (nonDegenerate p obs) eqn:Hnd.
  - apply pushOut_clear.
    + destruct (pushOut_fields p obs) as (_ & _ & ->). exact Hr.
    + apply pushOut_separates; assumption.
  - rewrite (pushOut_degenerate p obs Hnd).
    apply pushOut_degenerate, Hnd.
Qed.

End ExactPush.

(** A player at x = 15 next to the block that starts at x = 20. *)
Lemma pushOut_idempotent_witness :
  pushOut (pushOut (ExactSample.player 15 100) ExactSample.block)
          ExactSample.block
  = pushOut (ExactSample.player 15 100) ExactSample.block.
Proof.
  apply (pushOut_idempotent (ExactSample.player 15 100) ExactSample.block);
    unfold ExactSample.player, ExactSample.block, PLAYER_RADIUS;
    cbn [p_radius o_width o_height ofZ R_Number]; lra.
Defined.

(** ** utils/gameLogic.ts: the bot *)

Section BotFacts.
Context {N : Type} `{Number N}.
Variable M : MathLib N.

Lemma perceive_seenWell bot obstacles S acc other :
  other ∈ S -> seenWell bot S acc ->
  seenWell bot S (perceive bot obstacles acc other).
Proof.
  intros Hin Hacc. unfold perceive.
  destruct (decide (p_id bot = p_id other)) as [Heq|Hne]; [exact Hacc|].
  set (d := getDistance (pos bot) (pos other)).
  set (acc1 := if nltb d (ofZ 60) then _ else acc).
  assert (Hacc1 : seenWell bot S acc1).
  { unfold acc1. destruct (nltb d (ofZ 60)); exact Hacc. }
  assert (Hnd : nearestDist acc1 = nearestDist acc)
    by (unfold acc1; destruct (nltb d (ofZ 60)); reflexivity).
  destruct (isEnemy bot other) eqn:Hen; [|exact Hacc1].
  change (if decide (p_role bot = SURVIVOR) then _ else _)
    with (viewRangeOf (p_role bot)).
  destruct (nltb d (viewRangeOf (p_role bot))) eqn:Hview; [|exact Hacc1].
  cbn [andb].
  destruct (match nearestDist acc1 with Some nd => _ | None => true end);
    [|exact Hacc1].
  destruct (negb _); [|exact Hacc1].
  unfold seenWell. cbn [nearestEnemy nearestDist].
  repeat split; auto.
Qed.

Lemma perceive_count bot obstacles acc other :
  (neighborCount (perceive bot obstacles acc other)
   <= S (neighborCount acc))%nat.
Proof.
  unfold perceive.
  repeat match goal with
         | |- context [if ?c then _ else _] => destruct c
         | |- context [match ?c with Some _ => _ | None => _ end] =>
           destruct c
         end; cbn [neighborCount]; lia.
Qed.

Lemma perceived_seenWell bot obstacles S (players : list (Player N)) :
  forall acc,
    (forall p, p ∈ players -> p ∈ S) ->
    seenWell bot S acc ->
    seenWell bot S (fold_left (perceive bot obstacles) players acc)
    /\ (neighborCount (fold_left (perceive bot obstacles) players acc)
        <= neighborCount acc + length players)%nat.
Proof.
  induction players as [|p ps IH]; intros acc Hsub Hacc; cbn [fold_left].
  - split; [exact Hacc|simpl; lia].
  - destruct (IH (perceive bot obstacles acc p)) as [Hs Hc].
    + intros q Hq. apply Hsub. right. exact Hq.
    + apply perceive_seenWell; [apply Hsub; left|exact Hacc].
    + split; [exact Hs|].
      pose proof (perceive_count bot obstacles acc p). simpl. lia.
Qed.

(** X4.  The player a bot chases or flees is one of the players it was
    given, not the bot itself, of the opposite role, and within the view
    range of the bot's role; the distance kept with it is the distance to
    that player.  The neighbours counted for separation are at most the
    players given. *)
Theorem seen_enemy_is_an_enemy (bot : Player N)
    (allPlayers : list (Player N)) (obstacles : list (Obstacle N)) :
  let seen := perceived bot allPlayers obstacles in
  match nearestEnemy seen with
  | Some e =>
    e ∈ allPlayers /\ p_id e <> p_id bot /\ isEnemy bot e = true
    /\ nearestDist seen = Some (getDistance (pos bot) (pos e))
    /\ nltb (getDistance (pos bot) (pos e)) (viewRangeOf (p_role bot)) = true
  | None => nearestDist seen = None
  end
  /\ (neighborCount seen <= length allPlayers)%nat.
Proof.
  cbv zeta. unfold perceived.
  destruct (perceived_seenWell bot obstacles allPlayers allPlayers
              (mkPerception (ofZ 0) (ofZ 0) O None None))
    as [Hs Hc]; [auto|reflexivity|].
  split; [exact Hs|exact Hc].
Qed.

(** The two ways the resampling loop ends. *)
Lemma sampleTarget_cases (fuel : nat) (bot : Player N)
    (rnd : Random) (k : nat) :
  (exists j, (j < fuel)%nat
             /\ farEnough bot rnd (k + 2 * j) = true
             /\ (forall i, (i < j)%nat -> farEnough bot rnd (k + 2 * i) = false)
             /\ sampleTarget fuel bot rnd k
                = (set_target bot (Some (wanderSample rnd (k + 2 * j))),
                   (k + 2 * j + 2)%nat))
  \/ ((forall i, (i < fuel)%nat -> farEnough bot rnd (k + 2 * i) = false)
      /\ sampleTarget fuel bot rnd k = (bot, (k + 2 * fuel)%nat)).
Proof.
  revert k. induction fuel as [|fuel IH]; intros k.
  - right. split; [intros i Hi; lia|]. simpl. f_equal. lia.
  - cbn [sampleTarget].
    change (nltb (ofZ 400) (getDistance (pos bot) _))
      with (farEnough bot rnd k).
    destruct (farEnough bot rnd k) eqn:Hfar.
    + left. exists O. replace (k + 2 * 0)%nat with k by lia.
      split; [lia|]. split; [exact Hfar|]. split; [intros i Hi; lia|].
      reflexivity.
    + destruct (IH (k + 2)%nat) as [(j & Hj & Hfj & Hbefore & Heq) | (Hall & Heq)].
      * left. exists (S j).
        replace (k + 2 * S j)%nat with (k + 2 + 2 * j)%nat by lia.
        split; [lia|]. split; [exact Hfj|]. split; [|exact Heq].
        intros [|i] Hi.
        -- replace (k + 2 * 0)%nat with k by lia. exact Hfar.
        -- replace (k + 2 * S i)%nat with (k + 2 + 2 * i)%nat by lia.
           apply Hbefore. lia.
      * right. split.
        -- intros [|i] Hi.
           ++ replace (k + 2 * 0)%nat with k by lia. exact Hfar.
           ++ replace (k + 2 * S i)%nat with (k + 2 + 2 * i)%nat by lia.
              apply Hall. lia.
        -- rewrite Heq. f_equal. lia.
Qed.

(** X5.  The resampling loop of a wandering bot takes the first of its
    samples that is farther than 400 from the bot, using two draws per
    sample; if none of the [fuel] samples is, the bot is left as it was,
    target included. *)
Theorem sampleTarget_takes_first_far (fuel : nat) (bot : Player N)
    (rnd : Random) (k : nat) :
  (exists j, (j < fuel)%nat
             /\ farEnough bot rnd (k + 2 * j) = true
             /\ (forall i, (i < j)%nat -> farEnough bot rnd (k + 2 * i) = false)
             /\ sampleTarget fuel bot rnd k
                = (set_target bot (Some (wanderSample rnd (k + 2 * j))),
                   (k + 2 * j + 2)%nat))
  \/ ((forall i, (i < fuel)%nat -> farEnough bot rnd (k + 2 * i) = false)
      /\ sampleTarget fuel bot rnd k = (bot, (k + 2 * fuel)%nat)).
Proof. apply sampleTarget_cases. Qed.

(** The first wall on the path, if there is one. *)
Lemma findWallHit_cases (bot : Player N) (pNext : Point N)
    (obstacles : list (Obstacle N)) :
  match findWallHit bot pNext obstacles with
  | Some w =>
    exists before after,
      obstacles = before ++ w :: after
      /\ wallAhead bot pNext w = true
      /\ forallb (fun o => negb (wallAhead bot pNext o)) before = true
  | None => forallb (fun o => negb (wallAhead bot pNext o)) obstacles = true
  end.
Proof.
  induction obstacles as [|obs rest IH]; cbn [findWallHit]; [reflexivity|].
  assert (Hwa : wallAhead bot pNext obs
                = negb (nltb (nadd (p_x bot) lookAhead) (o_x obs)
                        || nltb (nadd (o_x obs) (o_width obs))
                                (nsub (p_x bot) lookAhead))
                  && bool_decide
                       (is_Some (getLineRectIntersection (pos bot) pNext obs
                                   (ofZ 10)))) by reflexivity.
  destruct (_ || _).
  - cbn [negb andb] in Hwa.
    destruct (findWallHit bot pNext rest) as [w|].
    + destruct IH as (before & after & -> & Hw & Hb).
      exists (obs :: before), after. split; [reflexivity|].
      split; [exact Hw|]. cbn [forallb]. rewrite Hwa, Hb. reflexivity.
    + cbn [forallb]. rewrite Hwa, IH. reflexivity.
  - cbn [negb andb] in Hwa.
    destruct (getLineRectIntersection (pos bot) pNext obs (ofZ 10))
      as [hit|] eqn:Hhit.
    + exists [], rest. split; [reflexivity|]. split; [|reflexivity].
      rewrite Hwa. apply bool_decide_eq_true. eauto.
    + assert (Hno : wallAhead bot pNext obs = false).
      { rewrite Hwa. apply bool_decide_eq_false. intros [? Habs].
        discriminate. }
      destruct (findWallHit bot pNext rest) as [w|].
      * destruct IH as (before & after & -> & Hw & Hb).
        exists (obs :: before), after. split; [reflexivity|].
        split; [exact Hw|]. cbn [forallb]. rewrite Hno, Hb. reflexivity.
      * cbn [forallb]. rewrite Hno, IH. reflexivity.
Qed.

(** X6.  The wall a bot reacts to is the first obstacle of the list that
    passes the broad phase and whose padded rectangle holds the midpoint
    of the look-ahead segment; if the loop finds none, no obstacle of the
    list does. *)
Theorem findWallHit_is_first_wall_ahead (bot : Player N) (pNext : Point N)
    (obstacles : list (Obstacle N)) :
  match findWallHit bot pNext obstacles with
  | Some w =>
    exists before after,
      obstacles = before ++ w :: after
      /\ wallAhead bot pNext w = true
      /\ forallb (fun o => negb (wallAhead bot pNext o)) before = true
  | None => forallb (fun o => negb (wallAhead bot pNext o)) obstacles = true
  end.
Proof. apply findWallHit_cases. Qed.

(** X7.  [updateBot] either throws or returns the player it was given,
    moved: same identity, role, radius and bot flag, with at most 20 draws
    used.  It throws only for a bot that came with no wander target, saw
    no enemy, and drew ten samples none of which was farther than 400. *)
Theorem updateBot_outcome (bot : Player N) (allPlayers : list (Player N))
    (obstacles : list (Obstacle N)) (rnd : Random) (k : nat) :
  match updateBot M bot allPlayers obstacles rnd k with
  | TypeError =>
    p_isBot bot = true
    /\ p_target bot = None
    /\ nearestEnemy (perceived bot allPlayers obstacles) = None
    /\ forall i, (i < 10)%nat -> farEnough bot rnd (k + 2 * i) = false
  | Ok (b, k') =>
    p_id b = p_id bot /\ p_role b = p_role bot
    /\ p_radius b = p_radius bot /\ p_isBot b = p_isBot bot
    /\ (k <= k' <= k + 20)%nat
  end.
Proof.
  unfold updateBot.
  destruct (p_isBot bot) eqn:Hbot; cbn [negb]; [|repeat split; auto; lia].
  fold (perceived bot allPlayers obstacles).
  set (seen := perceived bot allPlayers obstacles).
  destruct (if (0 <? neighborCount seen)%nat then _ else _) as [sx sy].
  assert (Hintent :
    match intent M bot (nearestEnemy seen) rnd k with
    | TypeError =>
      p_target bot = None /\ nearestEnemy seen = None
      /\ forall i, (i < 10)%nat -> farEnough bot rnd (k + 2 * i) = false
    | Ok (bot1, k1, _) =>
      (exists t, bot1 = set_target bot t) /\ (k <= k1 <= k + 20)%nat
    end).
  { unfold intent. destruct (nearestEnemy seen) as [enemy|].
    - split; [|lia]. destruct (nltb _ _); [exists None; reflexivity|].
      exists (p_target bot). destruct bot; reflexivity.
    - unfold roam.
      assert (Hsample :
        match sampleTarget 10 bot rnd k with
        | (bot1, k1) =>
          ((exists t, bot1 = set_target bot (Some t))
           \/ (bot1 = bot
               /\ forall i, (i < 10)%nat ->
                            farEnough bot rnd (k + 2 * i) = false))
          /\ (k <= k1 <= k + 20)%nat
        end).
      { destruct (sampleTarget_cases 10 bot rnd k)
          as [(j & Hj & _ & _ & ->) | (Hall & ->)].
        - split; [left; eauto|lia].
        - split; [right; auto|lia]. }
      destruct (p_target bot) as [t|] eqn:Ht.
      + destruct (nltb (getDistance (pos bot) t) (ofZ 60)).
        * destruct (sampleTarget 10 bot rnd k) as [bot1 k1].
          destruct Hsample as [[(t1 & ->) | (-> & _)] Hk].
          -- cbn [p_target set_target]. split; [eauto|exact Hk].
          -- rewrite Ht. split; [|exact Hk].
             exists (p_target bot). destruct bot; reflexivity.
        * rewrite Ht. split; [|lia].
          exists (p_target bot). destruct bot; reflexivity.
      + destruct (sampleTarget 10 bot rnd k) as [bot1 k1].
        destruct Hsample as [[(t1 & ->) | (-> & Hall)] Hk].
        * cbn [p_target set_target]. split; [eauto|exact Hk].
        * rewrite Ht. auto. }
  destruct (intent M bot (nearestEnemy seen) rnd k)
    as [[[bot1 k1] [targetX targetY]]|].
  - destruct Hintent as [(t & ->) Hk].
    match goal with |- context [resolveCollision ?q obstacles] =>
      destruct (resolveCollision_is_set_pos q obstacles) as (x & y & ->) end.
    cbn. repeat split; auto; lia.
  - destruct Hintent as (Ht & Hn & Hall). auto.
Qed.

End BotFacts.

Section ExactNormalize.
Local Open Scope R_scope.

(** X8.  The direction a bot steers by, once normalised, has magnitude
    exactly 1, unless it was of magnitude 0.001 or less, in which case it
    is left as it is (exact arithmetic). *)
Theorem normalize_unit_or_tiny (v : R * R) :
  magnitude (normalize v) = 1
  \/ (normalize v = v /\ magnitude v <= 1 / 1000).
Proof.
  destruct (Rlt_dec (1 / 1000) (R_sqrt.sqrt (fst v * fst v + snd v * snd v)))
    as [Hlong | Hshort].
  - left. apply (normalize_unit v Hlong).
  - right. split; [|unfold magnitude; exact_ops; lra].
    unfold normalize, dec. exact_ops.
    destruct (Exact.ltb _ _) eqn:Hb; [|destruct v; reflexivity].
    apply ExactFacts.ltb_true in Hb. lra.
Qed.

End ExactNormalize.

(** ** components/GameCanvas.tsx: more of the host *)

Section MoreHost.
Context {N : Type} `{Number N}.

Lemma movePlayer_is_moved (h : Host N) input (p : Player N) :
  exists x y dx dy, movePlayer h input p = set_pos (set_vel p dx dy) x y.
Proof.
  unfold movePlayer.
  destruct (if decide (p_id p = h_myId h) then input else _) as [dx dy].
  match goal with |- context [resolveCollision ?q ?o] =>
    destruct (resolveCollision_is_set_pos q o) as (x & y & ->) end.
  unfold snapVelocity, smoothVelocity. cbn. eauto.
Qed.

(** X9.  When the game starts on players who are all survivors, with a
    drawn index that is an index of the list, exactly one player is a
    zombie afterwards, the one at that index; the list keeps its
    identities, the phase is Playing and the match clock starts at the
    time of the call. *)
Theorem startGame_picks_one_zombie (h : Host N) (now : Z) (zombieIdx : nat) :
  forallb isSurvivor (h_players h) = true ->
  (zombieIdx < length (h_players h))%nat ->
  let h' := startGame h now zombieIdx in
  h_gameState h' = PLAYING
  /\ h_gameStartTime h' = now
  /\ length (h_players h') = length (h_players h)
  /\ (forall i p, h_players h' !! i = Some p ->
                  exists q, h_players h !! i = Some q /\ p_id p = p_id q
                            /\ (p_role p = ZOMBIE <-> i = zombieIdx)).
Proof.
  intros Hall Hidx. cbv zeta. unfold startGame. cbn [h_gameState
    h_gameStartTime h_players].
  split; [reflexivity|]. split; [reflexivity|].
  split; [apply length_alter|].
  intros i p Hp.
  destruct (decide (zombieIdx = i)) as [<- | Hne].
  - rewrite list_lookup_alter_eq in Hp.
    destruct (h_players h !! zombieIdx) as [q|] eqn:Hq; [|discriminate].
    injection Hp as <-. exists q. cbn. tauto.
  - rewrite list_lookup_alter_ne in Hp by exact Hne.
    exists p. split; [exact Hp|]. split; [reflexivity|].
    rewrite forallb_forall in Hall.
    assert (Hs : isSurvivor p = true).
    { apply Hall. apply list_elem_of_In, list_elem_of_lookup. eauto. }
    unfold isSurvivor in Hs. apply bool_decide_eq_true in Hs.
    split; [congruence|intros ->; contradiction].
Qed.

(** X10.  GameOver is terminal for frames and inputs: from a host whose
    match is over, no run of frames and INPUT packets changes the phase,
    the players, the reason or the time left, and nothing is
    broadcast. *)
Theorem game_over_is_terminal (h : Host N) (es : list HostEvent) :
  h_gameState h = GAME_OVER ->
  forallb notStart es = true ->
  let h' := fst (hostRun h es) in
  h_gameState h' = GAME_OVER
  /\ h_players h' = h_players h
  /\ h_gameOverReason h' = h_gameOverReason h
  /\ h_timeLeft h' = h_timeLeft h
  /\ snd (hostRun h es) = [].
Proof.
  cbv zeta. revert h. induction es as [|e es IH]; intros h Hover Hes.
  - simpl. auto.
  - cbn [forallb] in Hes. apply andb_true_iff in Hes as [He Hes].
    rewrite hostRun_cons. cbn [fst snd].
    destruct e as [f | now idx | peer dx dy]; [| discriminate |].
    + cbn [hostStep]. rewrite updateHost_over by exact Hover.
      cbn [fst snd]. apply IH; assumption.
    + cbn [hostStep fst snd app].
      destruct (IH (onInput h peer dx dy) Hover Hes)
        as (H1 & H2 & H3 & H4 & H5).
      auto.
Qed.

(** What a frame does to the list of players, whatever the phase. *)
Lemma updateHost_maps (h : Host N) f :
  exists g : Player N -> Player N,
    h_players (fst (updateHost h f)) = map g (h_players h)
    /\ forall p, p_id (g p) = p_id p /\ p_radius (g p) = p_radius p
                 /\ p_nickname (g p) = p_nickname p
                 /\ p_isBot (g p) = p_isBot p.
Proof.
  assert (Hmove : forall p,
            let q := movePlayer h (f_localInput f) p in
            p_id q = p_id p /\ p_radius q = p_radius p
            /\ p_nickname q = p_nickname p /\ p_isBot q = p_isBot p).
  { intros p. cbv zeta.
    destruct (movePlayer_is_moved h (f_localInput f) p)
      as (x & y & dx & dy & ->). cbn. auto. }
  destruct (h_gameState h) eqn:Hst.
  - exists (movePlayer h (f_localInput f)).
    destruct (updateHost_idle h f) as (-> & _); auto.
  - exists (movePlayer h (f_localInput f)).
    destruct (updateHost_idle h f) as (-> & _); auto.
  - destruct (expired h (f_now f)) eqn:Hexp.
    + exists (movePlayer h (f_localInput f)).
      destruct (updateHost_expired h f Hst Hexp) as (-> & _). auto.
    + destruct (updateHost_playing h f Hst Hexp) as (-> & _).
      eexists (fun p => infect _ (movePlayer h (f_localInput f) p)).
      split; [rewrite map_map; reflexivity|].
      intros p. destruct (Hmove p) as (H1 & H2 & H3 & H4).
      unfold infect. repeat case_match; cbn; auto.
  - exists (fun p => p). rewrite updateHost_over by exact Hst.
    cbn [fst]. rewrite map_id. auto.
Qed.

(** X11.  A frame never adds, removes or reorders players: the list after
    the frame carries the same identities, radii, nicknames and bot flags,
    entry by entry, whatever the phase. *)
Theorem frame_keeps_roster (h : Host N) (f : Frame N) :
  let h' := fst (updateHost h f) in
  map p_id (h_players h') = map p_id (h_players h)
  /\ map p_radius (h_players h') = map p_radius (h_players h)
  /\ map p_nickname (h_players h') = map p_nickname (h_players h)
  /\ map p_isBot (h_players h') = map p_isBot (h_players h)
  /\ length (h_players h') = length (h_players h).
Proof.
  cbv zeta. destruct (updateHost_maps h f) as (g & -> & Hg).
  rewrite !map_map, length_map.
  repeat split; try reflexivity; apply map_ext; intros p; apply Hg.
Qed.

(** X12.  Infection does not chain within a frame.  In a frame of a match
    that is played and not timed out, a player ends the frame as a zombie
    exactly when it was one already or, once moved, it touches a player
    who was a zombie before this frame's infections. *)
Theorem infection_does_not_chain (h : Host N) (f : Frame N) (i : nat)
    (p : Player N) :
  h_gameState h = PLAYING ->
  expired h (f_now f) = false ->
  h_players h !! i = Some p ->
  let moved := map (movePlayer h (f_localInput f)) (h_players h) in
  let zombiesBefore := filter (fun q => p_role q = ZOMBIE) moved in
  map p_role moved = map p_role (h_players h)
  /\ exists p',
       h_players (fst (updateHost h f)) !! i = Some p'
       /\ (p_role p' = ZOMBIE
           <-> p_role p = ZOMBIE
               \/ touchesZombie (movePlayer h (f_localInput f) p)
                                zombiesBefore = true).
Proof.
  intros Hplay Hexp Hp. cbv zeta. split.
  - rewrite map_map. apply map_ext. intros q.
    apply (movePlayer_fields h (f_localInput f) q).
  - destruct (updateHost_playing h f Hplay Hexp) as (-> & _).
    eexists. split.
    + change (map ?g ?l) with (g <$> l). rewrite !list_lookup_fmap, Hp.
      reflexivity.
    + destruct (movePlayer_fields h (f_localInput f) p) as [_ Hrole].
      unfold infect. rewrite Hrole.
      destruct (decide (p_role p = SURVIVOR)) as [Hs|Hs].
      * destruct (touchesZombie _ _); cbn [set_role p_role]; rewrite ?Hrole;
          split; auto; intros [Hz|Hz]; congruence.
      * rewrite Hrole. destruct (p_role p); [contradiction|]. tauto.
Qed.

(** X13.  The remaining time never rises as the clock advances, is never
    negative, and is at most the match duration once the clock has passed
    the start of the match. *)
Theorem time_left_never_rises (h : Host N) (now1 now2 : Z) :
  (now1 <= now2)%Z ->
  (timeLeftAt h now2 <= timeLeftAt h now1)%Z
  /\ (0 <= timeLeftAt h now2)%Z
  /\ ((h_gameStartTime h <= now1)%Z ->
      (timeLeftAt h now1 <= GAME_DURATION)%Z).
Proof.
  intros Hle. unfold timeLeftAt, GAME_DURATION.
  assert (Hdiv : ((now1 - h_gameStartTime h) / 1000
                  <= (now2 - h_gameStartTime h) / 1000)%Z)
    by (apply Z.div_le_mono; lia).
  split; [lia|]. split; [lia|].
  intros Hstart.
  assert (0 <= (now1 - h_gameStartTime h) / 1000)%Z
    by (apply Z.div_pos; lia).
  lia.
Qed.

End MoreHost.

(** Three survivors wait; the draw picks the second. *)
Lemma startGame_picks_one_zombie_witness :
  let h' := startGame Sample.waiting 5000 1 in
  h_gameState h' = PLAYING
  /\ h_gameStartTime h' = 5000%Z
  /\ length (h_players h') = length (h_players Sample.waiting)
  /\ (forall i p, h_players h' !! i = Some p ->
                  exists q, h_players Sample.waiting !! i = Some q
                            /\ p_id p = p_id q
                            /\ (p_role p = ZOMBIE <-> i = 1%nat)).
Proof.
  apply (startGame_picks_one_zombie Sample.waiting 5000 1).
  - reflexivity.
  - vm_compute. lia.
Defined.

(** [Sample.duel] after its clock has run out, then two frames and an
    input. *)
Lemma game_over_is_terminal_witness :
  let h := fst (updateHost Sample.duel (Sample.frameAt 180000)) in
  let es := [EvFrame (Sample.frameAt 181000);
             EvInput "peer" (ofZ 1) (ofZ 0);
             EvFrame (Sample.frameAt 182000)] in
  let h' := fst (hostRun h es) in
  h_gameState h' = GAME_OVER
  /\ h_players h' = h_players h
  /\ h_gameOverReason h' = h_gameOverReason h
  /\ h_timeLeft h' = h_timeLeft h
  /\ snd (hostRun h es) = [].
Proof.
  apply (game_over_is_terminal
           (fst (updateHost Sample.duel (Sample.frameAt 180000)))
           [EvFrame (Sample.frameAt 181000);
            EvInput "peer" (ofZ 1) (ofZ 0);
            EvFrame (Sample.frameAt 182000)]).
  - vm_compute. reflexivity.
  - reflexivity.
Defined.

(** In [Sample.chain] the third player is 20 from the second, which the
    zombie infects in this frame, and 40 from the zombie. *)
Lemma infection_does_not_chain_witness :
  let h := Sample.chain in
  let f := Sample.frameAt 1000 in
  let p := Sample.player "c" 140 100 SURVIVOR in
  let moved := map (movePlayer h (f_localInput f)) (h_players h) in
  let zombiesBefore := filter (fun q => p_role q = ZOMBIE) moved in
  map p_role moved = map p_role (h_players h)
  /\ exists p',
       h_players (fst (updateHost h f)) !! 2%nat = Some p'
       /\ (p_role p' = ZOMBIE
           <-> p_role p = ZOMBIE
               \/ touchesZombie (movePlayer h (f_localInput f) p)
                                zombiesBefore = true).
Proof.
  apply (infection_does_not_chain Sample.chain (Sample.frameAt 1000) 2%nat
           (Sample.player "c" 140 100 SURVIVOR)).
  - reflexivity.
  - reflexivity.
  - reflexivity.
Defined.

(** The chain, run: one frame infects the second player only, the next
    frame the third. *)
Example infection_chain_run :
  map p_role (h_players (fst (updateHost Sample.chain (Sample.frameAt 1000))))
  = [ZOMBIE; ZOMBIE; SURVIVOR]
  /\ map p_role
       (h_players (fst (hostRun Sample.chain
                          [EvFrame (Sample.frameAt 1000);
                           EvFrame (Sample.frameAt 1016)])))
     = [ZOMBIE; ZOMBIE; ZOMBIE].
Proof. split; vm_compute; reflexivity. Qed.

Lemma time_left_never_rises_witness :
  (timeLeftAt Sample.duel 90500 <= timeLeftAt Sample.duel 1000)%Z
  /\ (0 <= timeLeftAt Sample.duel 90500)%Z
  /\ ((h_gameStartTime Sample.duel <= 1000)%Z ->
      (timeLeftAt Sample.duel 1000 <= GAME_DURATION)%Z).
Proof.
  apply (time_left_never_rises Sample.duel 1000 90500). lia.
Defined.

Section HostBroadcast.
Context {N : Type} `{Number N}.

Lemma updateHost_playing_stats (h : Host N) f :
  h_gameState h = PLAYING -> expired h (f_now f) = false ->
  h_stats (fst (updateHost h f))
  = (length (filter (fun p => p_role p = SURVIVOR) (h_players h)),
     length (filter (fun p => p_role p <> SURVIVOR) (h_players h))).
Proof.
  intros Hplay Hexp.
  unfold updateHost, runTimer. rewrite Hplay.
  destruct (decide (PLAYING = GAME_OVER)); [discriminate|].
  destruct (decide (PLAYING = PLAYING)); [|contradiction].
  rewrite timer_fires_iff_expired, Hexp.
  unfold runInfection. cbn [h_gameState h_players h_myId h_obstacles
    h_clientInputs h_gameStartTime h_timeLeft h_stats h_gameOverReason].
  destruct (decide (PLAYING = PLAYING)); [|contradiction].
  change (movePlayer (mkHost _ _ _ _ _ _ _ _ _)) with (movePlayer h).
  rewrite infect_loop. cbn [Nat.add app].
  assert (Hns : length (filter (fun p : Player N => p_role p <> SURVIVOR)
                          (map (movePlayer h (f_localInput f)) (h_players h)))
                = length (filter (fun p => p_role p <> SURVIVOR)
                                 (h_players h))).
  { induction (h_players h) as [|p ps IH]; [reflexivity|].
    cbn [map]. rewrite !filter_cons.
    destruct (movePlayer_fields h (f_localInput f) p) as [_ ->].
    destruct (decide (p_role p <> SURVIVOR)); simpl; congruence. }
  match goal with |- context [if ?c then _ else _] => destruct c end;
    cbn; rewrite survivors_moved, Hns; reflexivity.
Qed.

Lemma survivors_and_others (ps : list (Player N)) :
  (length (filter (fun p => p_role p = SURVIVOR) ps)
   + length (filter (fun p => p_role p <> SURVIVOR) ps))%nat
  = length ps.
Proof.
  induction ps as [|p ps IH]; [reflexivity|].
  rewrite !filter_cons.
  destruct (decide (p_role p = SURVIVOR));
    destruct (decide (p_role p <> SURVIVOR)); try contradiction;
    simpl; lia.
Qed.

(** X14.  The counts a frame publishes are those of the roles as they
    were before the frame's own infections: survivors and zombies of the
    list the frame started from, which add up to the number of
    players. *)
Theorem stats_count_roles_before_infection (h : Host N) (f : Frame N) :
  h_gameState h = PLAYING ->
  expired h (f_now f) = false ->
  let h' := fst (updateHost h f) in
  h_stats h'
  = (length (filter (fun p => p_role p = SURVIVOR) (h_players h)),
     length (filter (fun p => p_role p <> SURVIVOR) (h_players h)))
  /\ (fst (h_stats h') + snd (h_stats h'))%nat = length (h_players h').
Proof.
  intros Hplay Hexp. cbv zeta.
  rewrite (updateHost_playing_stats h f Hplay Hexp). split; [reflexivity|].
  cbn [fst snd]. rewrite survivors_and_others.
  destruct (updateHost_maps h f) as (g & -> & _). rewrite length_map.
  reflexivity.
Qed.

(** The packets of one frame of a match that is not over. *)
Lemma updateHost_out (h : Host N) f :
  h_gameState h <> GAME_OVER ->
  exists pre,
    snd (updateHost h f)
    = pre ++ [PktState (mkStatePayload (h_players (fst (updateHost h f)))
                          (f_timeLeftSeen f)
                          (h_gameState (fst (updateHost h f))) [])]
    /\ ((pre = [] /\ h_gameState (fst (updateHost h f)) <> GAME_OVER)
        \/ (pre = [PktGameOver (h_gameOverReason (fst (updateHost h f)))]
            /\ h_gameState (fst (updateHost h f)) = GAME_OVER)).
Proof.
  intros Hnot. unfold updateHost.
  destruct (decide (h_gameState h = GAME_OVER)); [contradiction|].
  unfold runTimer.
  destruct (decide (h_gameState h = PLAYING)) as [Hplay|Hidle].
  - destruct (timeLeftAt h (f_now f) <=? 0)%Z.
    + unfold endGame, runInfection. cbn [h_gameState].
      destruct (decide (GAME_OVER = PLAYING)); [discriminate|].
      cbn. exists [PktGameOver TIME_UP]. split; [reflexivity|]. right. auto.
    + unfold runInfection. cbn [h_gameState].
      destruct (decide (h_gameState h = PLAYING)); [|contradiction].
      cbn [h_players h_myId h_obstacles h_clientInputs h_gameStartTime
           h_timeLeft h_stats h_gameOverReason].
      rewrite infect_loop. cbn [Nat.add app].
      match goal with |- context [if ?c then _ else _] => destruct c end.
      * cbn. exists [PktGameOver INFECTED]. split; [reflexivity|].
        right. auto.
      * cbn. exists []. split; [reflexivity|]. left.
        split; [reflexivity|congruence].
  - unfold runInfection. cbn [h_gameState].
    destruct (decide (h_gameState h = PLAYING)); [contradiction|].
    cbn. exists []. split; [reflexivity|]. left. auto.
Qed.

(** X15.  Every frame the render loop runs on a match that is not over
    ends its broadcast with a State packet that carries the players and
    the phase as the frame left them, no obstacles, and, as the time left,
    the match duration: the loop reads the state variable of the first
    render, whatever the clock says.  A client that processes the
    broadcast shows that time.  Before the State packet comes one GameOver
    packet, with the reason the host has recorded, exactly when the frame
    ended the match, and nothing otherwise. *)
Theorem frame_broadcasts_state_last (h : Host N) (now : Z)
    (localInput : N * N) (c : Client N) :
  h_gameState h <> GAME_OVER ->
  let f := loopFrame now localInput in
  let h' := fst (updateHost h f) in
  (exists pre,
     snd (updateHost h f)
     = pre ++ [PktState (mkStatePayload (h_players h') GAME_DURATION
                                        (h_gameState h') [])]
     /\ ((pre = [] /\ h_gameState h' <> GAME_OVER)
         \/ (pre = [PktGameOver (h_gameOverReason h')]
             /\ h_gameState h' = GAME_OVER)))
  /\ c_timeLeft (fold_left onData (snd (updateHost h f)) c) = GAME_DURATION.
Proof.
  intros Hnot. cbv zeta.
  destruct (updateHost_out h (loopFrame now localInput) Hnot)
    as (pre & Hout & Hpre).
  cbn [loopFrame f_timeLeftSeen] in Hout. split; [eauto|].
  rewrite Hout, fold_left_app. cbn [fold_left onData]. unfold onState.
  destruct (reconcile _ _ _) as [heap1 players1]. reflexivity.
Qed.

End HostBroadcast.

Lemma stats_count_roles_before_infection_witness :
  let h' := fst (updateHost Sample.chain (Sample.frameAt 1000)) in
  h_stats h' = (2%nat, 1%nat)
  /\ (fst (h_stats h') + snd (h_stats h'))%nat = length (h_players h').
Proof.
  apply (stats_count_roles_before_infection Sample.chain
           (Sample.frameAt 1000)); reflexivity.
Defined.

(** The frame at 179 s in [Sample.duel], run by the loop: the survivor is
    infected, and the State packet still says 180 s. *)
Lemma frame_broadcasts_state_last_witness :
  let f := loopFrame 179000 (ofZ 0, ofZ 0) in
  let h' := fst (updateHost Sample.duel f) in
  (exists pre,
     snd (updateHost Sample.duel f)
     = pre ++ [PktState (mkStatePayload (h_players h') 180
                                        (h_gameState h') [])]
     /\ ((pre = [] /\ h_gameState h' <> GAME_OVER)
         \/ (pre = [PktGameOver (h_gameOverReason h')]
             /\ h_gameState h' = GAME_OVER)))
  /\ h_timeLeft h' = 1%Z
  /\ c_timeLeft (fold_left onData (snd (updateHost Sample.duel f))
                           Sample.client) = 180%Z.
Proof.
  cbv zeta.
  destruct (frame_broadcasts_state_last
              Sample.duel 179000 (ofZ 0, ofZ 0) Sample.client
              ltac:(discriminate)) as [Hout Hclient].
  split; [exact Hout|]. split; [vm_compute; reflexivity | exact Hclient].
Defined.

(** ** components/GameCanvas.tsx: more of the client *)

Section MoreClient.
Context {N : Type}.
Implicit Types (heap : gmap nat (Player N)) (cm : gmap string nat).

Lemma written_adopt (sp : Player N) : written (adopt sp) sp.
Proof. unfold written. repeat split. Qed.

(** With distinct identities in the snapshot, every entry of the new
    array holds what its own snapshot entry wrote. *)
Lemma reconcile_applies cm sps : forall heap,
  cm_ok cm heap ->
  NoDup (map p_id sps) ->
  Forall2 (fun q sp => p_id q = p_id sp /\ written q sp)
          (omap (fun l => fst (reconcile cm heap sps) !! l)
                (snd (reconcile cm heap sps)))
          sps.
Proof.
  induction sps as [|sp rest IH]; intros heap Hok Hnd; [constructor|].
  cbn [map] in Hnd. apply NoDup_cons in Hnd as [Hfresh Hnd].
  rewrite reconcile_cons.
  destruct (cm !! p_id sp) as [l|] eqn:Hcm; cbn [fst snd];
    change (omap ?f (?x :: ?xs))
      with (match f x with Some y => y :: omap f xs | None => omap f xs end);
    cbv beta.
  - destruct (Hok _ _ Hcm) as (p & Hp & Hid).
    destruct (reconcile_heap cm rest (alter (retarget sp) l heap) l
                (retarget sp p)) as (q & Hq & _ & Hsame & _).
    { rewrite lookup_alter_eq, Hp. reflexivity. }
    rewrite Hq, Hsame.
    + constructor; [|apply IH; [apply cm_ok_alter, Hok|exact Hnd]].
      split; [exact Hid|apply written_retarget].
    + intros sp1 Hin1 Hcm1. apply Hfresh.
      destruct (Hok _ _ Hcm1) as (p1 & Hp1 & Hid1).
      assert (p_id sp1 = p_id sp) by congruence.
      apply list_elem_of_fmap. eauto.
  - destruct (reconcile_heap cm rest (<[fresh (dom heap) := adopt sp]> heap)
                (fresh (dom heap)) (adopt sp)) as (q & Hq & _ & Hsame & _).
    { apply lookup_insert_eq. }
    rewrite Hq, Hsame.
    + constructor; [|apply IH; [apply cm_ok_insert, Hok|exact Hnd]].
      split; [reflexivity|apply written_adopt].
    + intros sp1 _ Hcm1. destruct (Hok _ _ Hcm1) as (p1 & Hp1 & _).
      rewrite fresh_unused in Hp1. discriminate.
Qed.

Lemma countRoles_fold (ps : list (Player N)) : forall s z,
  fold_left (fun '(s, z) p =>
               if decide (p_role p = SURVIVOR) then (S s, z) else (s, S z))
            ps (s, z)
  = ((s + length (filter (fun r => r = SURVIVOR) (map p_role ps)))%nat,
     (z + length (filter (fun r => r <> SURVIVOR) (map p_role ps)))%nat).
Proof.
  induction ps as [|p ps IH]; intros s z; cbn [fold_left map].
  - rewrite !Nat.add_0_r. reflexivity.
  - rewrite !filter_cons.
    destruct (decide (p_role p = SURVIVOR));
      destruct (decide (p_role p <> SURVIVOR)); try contradiction;
      rewrite IH; simpl; f_equal; lia.
Qed.

Lemma countRoles_roles (ps qs : list (Player N)) :
  map p_role ps = map p_role qs -> countRoles ps = countRoles qs.
Proof.
  intros Heq. unfold countRoles. rewrite !countRoles_fold, Heq. reflexivity.
Qed.

Lemma onState_applies (c : Client N) payload :
  NoDup (map p_id (sp_players payload)) ->
  Forall2 (fun q sp => p_id q = p_id sp /\ written q sp)
          (clientPlayers (onState c payload)) (sp_players payload).
Proof.
  intros Hnd. unfold clientPlayers. rewrite onState_heap, onState_players.
  apply reconcile_applies; [apply currentMapOf_ok|exact Hnd].
Qed.

Lemma onState_fields (c : Client N) payload :
  c_stats (onState c payload) = countRoles (clientPlayers (onState c payload))
  /\ c_gameState (onState c payload) = sp_gameState payload
  /\ c_timeLeft (onState c payload) = sp_timeLeft payload
  /\ c_obstacles (onState c payload) = c_obstacles c
  /\ c_gameOverReason (onState c payload) = c_gameOverReason c.
Proof.
  unfold onState, clientPlayers.
  destruct (reconcile _ _ _) as [heap1 players1]. cbn. auto.
Qed.

(** X16.  A State message whose identities are distinct is applied in
    full: entry by entry the local players carry the identities of the
    snapshot, its roles and nicknames, and its positions as interpolation
    targets; the role counts on display are those of the snapshot; phase
    and time left are taken from the message, while the obstacles and the
    game-over reason are not touched. *)
Theorem state_message_applies_snapshot (c : Client N)
    (payload : StatePayload N) :
  NoDup (map p_id (sp_players payload)) ->
  let c' := onState c payload in
  Forall2 (fun q sp => p_id q = p_id sp /\ written q sp)
          (clientPlayers c') (sp_players payload)
  /\ c_stats c' = countRoles (sp_players payload)
  /\ c_gameState c' = sp_gameState payload
  /\ c_timeLeft c' = sp_timeLeft payload
  /\ c_obstacles c' = c_obstacles c
  /\ c_gameOverReason c' = c_gameOverReason c.
Proof.
  intros Hnd. cbv zeta.
  pose proof (onState_applies c payload Hnd) as Happ.
  destruct (onState_fields c payload) as (Hs & Hg & Ht & Ho & Hr).
  split; [exact Happ|]. split; [|auto].
  rewrite Hs. apply countRoles_roles.
  clear -Happ. induction Happ as [|q sp qs sps [_ Hw] _ IH]; [reflexivity|].
  cbn [map]. rewrite IH. destruct Hw as (_ & _ & -> & _). reflexivity.
Qed.

(** Objects made from a packet stay as they were made. *)
Lemma allocAll_keeps (ps : list (Player N)) : forall heap l p,
  heap !! l = Some p -> fst (allocAll heap ps) !! l = Some p.
Proof.
  induction ps as [|p0 ps IH]; intros heap l p Hp; [exact Hp|].
  cbn [allocAll].
  destruct (allocAll (<[fresh (dom heap) := p0]> heap) ps)
    as [heap1 ls] eqn:Hrest.
  cbn [fst]. change heap1 with (fst (heap1, ls)). rewrite <- Hrest.
  apply IH. rewrite lookup_insert_ne; [exact Hp|].
  intros Heq. rewrite <- Heq, fresh_unused in Hp. discriminate.
Qed.

Lemma allocAll_reads (ps : list (Player N)) : forall heap,
  omap (fun l => fst (allocAll heap ps) !! l) (snd (allocAll heap ps)) = ps.
Proof.
  induction ps as [|p0 ps IH]; intros heap; [reflexivity|].
  cbn [allocAll].
  pose proof (IH (<[fresh (dom heap) := p0]> heap)) as IH'.
  pose proof (allocAll_keeps ps (<[fresh (dom heap) := p0]> heap)
                (fresh (dom heap)) p0 (lookup_insert_eq _ _ _)) as Hkeep.
  destruct (allocAll (<[fresh (dom heap) := p0]> heap) ps) as [heap1 ls].
  cbn [fst snd] in *.
  change (omap ?f (?x :: ?xs))
    with (match f x with Some y => y :: omap f xs | None => omap f xs end).
  cbv beta. rewrite Hkeep, IH'. reflexivity.
Qed.

(** X17.  A Welcome message replaces the local players by those of the
    message, as they are, in order, and with them the obstacles and the
    phase; the time left on display and the game-over reason are not
    touched. *)
Theorem welcome_replaces_roster (c : Client N) (payload : StatePayload N) :
  let c' := onWelcome c payload in
  clientPlayers c' = sp_players payload
  /\ c_obstacles c' = sp_obstacles payload
  /\ c_gameState c' = sp_gameState payload
  /\ c_timeLeft c' = c_timeLeft c
  /\ c_gameOverReason c' = c_gameOverReason c.
Proof.
  cbv zeta. unfold onWelcome, clientPlayers.
  pose proof (allocAll_reads (sp_players payload) (c_heap c)) as Hread.
  destruct (allocAll (c_heap c) (sp_players payload)) as [heap1 players1].
  cbn in *. auto.
Qed.

End MoreClient.

Lemma state_message_applies_snapshot_witness :
  let c' := onState Sample.client Sample.snapshot in
  Forall2 (fun q sp => p_id q = p_id sp /\ written q sp)
          (clientPlayers c') (sp_players Sample.snapshot)
  /\ c_stats c' = countRoles (sp_players Sample.snapshot)
  /\ c_gameState c' = sp_gameState Sample.snapshot
  /\ c_timeLeft c' = sp_timeLeft Sample.snapshot
  /\ c_obstacles c' = c_obstacles Sample.client
  /\ c_gameOverReason c' = c_gameOverReason Sample.client.
Proof.
  apply (state_message_applies_snapshot Sample.client Sample.snapshot).
  apply (bool_decide_unpack _). vm_compute. exact I.
Defined.

(** ** Host and client together *)

Section HostToClient.
Context {N : Type} `{Number N}.

(* the client and the host agree after the packets of a run *)
Lemma frame_then_client (h : Host N) f (c : Client N) :
  h_gameState h <> GAME_OVER ->
  NoDup (map p_id (h_players h)) ->
  let h' := fst (updateHost h f) in
  let c' := fold_left onData (snd (updateHost h f)) c in
  c_gameState c' = h_gameState h'
  /\ Forall2 (fun q p => p_id q = p_id p /\ written q p)
             (clientPlayers c') (h_players h')
  /\ (h_gameState h' = GAME_OVER ->
      c_gameOverReason c' = h_gameOverReason h').
Proof.
  intros Hnot Hnd. cbv zeta.
  destruct (updateHost_out h f Hnot) as (pre & -> & Hpre).
  rewrite fold_left_app. cbn [fold_left onData].
  set (payload := mkStatePayload _ _ _ _).
  assert (Hnd' : NoDup (map p_id (sp_players payload))).
  { unfold payload. cbn [sp_players].
    destruct (updateHost_maps h f) as (g & -> & Hg).
    rewrite map_map.
    erewrite map_ext; [exact Hnd|]. intros p. apply Hg. }
  destruct (onState_fields (fold_left onData pre c) payload)
    as (_ & Hg & _ & _ & Hr).
  split; [exact Hg|]. split; [apply onState_applies, Hnd'|].
  intros Hover. rewrite Hr.
  destruct Hpre as [[-> Hno] | [-> _]]; [contradiction|]. reflexivity.
Qed.

(** X18.  A client that processes, in order, everything the host
    broadcast over a run of frames ends in the phase of the host, with the
    host's players entry by entry: their identities, roles and nicknames,
    and their positions as interpolation targets; and if the match has
    ended, with the host's reason.  The host's match must not be over at
    the start, at least one frame must run, and the identities on the host
    must be distinct. *)
Theorem client_follows_host (h : Host N) (fs : list (Frame N))
    (c : Client N) :
  h_gameState h <> GAME_OVER ->
  fs <> [] ->
  NoDup (map p_id (h_players h)) ->
  let h' := fst (hostRun h (map EvFrame fs)) in
  let c' := fold_left onData (snd (hostRun h (map EvFrame fs))) c in
  c_gameState c' = h_gameState h'
  /\ Forall2 (fun q p => p_id q = p_id p /\ written q p)
             (clientPlayers c') (h_players h')
  /\ (h_gameState h' = GAME_OVER ->
      c_gameOverReason c' = h_gameOverReason h').
Proof.
  cbv zeta. revert h c.
  induction fs as [|f fs IH]; intros h c Hnot Hne Hnd; [contradiction|].
  cbn [map]. rewrite hostRun_cons. cbn [hostStep fst snd].
  rewrite fold_left_app.
  pose proof (frame_then_client h f c Hnot Hnd) as Hone. cbv zeta in Hone.
  set (h1 := fst (updateHost h f)) in *.
  set (c1 := fold_left onData (snd (updateHost h f)) c) in *.
  destruct (decide (h_gameState h1 = GAME_OVER)) as [Hover|Hlive].
  - rewrite frames_over by exact Hover. cbn [fst snd fold_left].
    exact Hone.
  - destruct fs as [|f' fs'].
    + cbn [map hostRun fst snd fold_left]. exact Hone.
    + apply IH; [exact Hlive|discriminate|].
      unfold h1. destruct (updateHost_maps h f) as (g & -> & Hg).
      rewrite map_map. erewrite map_ext; [exact Hnd|]. intros p. apply Hg.
Qed.

End HostToClient.

(** The client of [Sample.client] listens to [Sample.duel] for the two
    frames in which the survivor is infected and the match ends. *)
Lemma client_follows_host_witness :
  let fs := [Sample.frameAt 1000; Sample.frameAt 2000] in
  let h' := fst (hostRun Sample.duel (map EvFrame fs)) in
  let c' := fold_left onData (snd (hostRun Sample.duel (map EvFrame fs)))
                      Sample.client in
  c_gameState c' = h_gameState h'
  /\ Forall2 (fun q p => p_id q = p_id p /\ written q p)
             (clientPlayers c') (h_players h')
  /\ (h_gameState h' = GAME_OVER ->
      c_gameOverReason c' = h_gameOverReason h').
Proof.
  apply (client_follows_host Sample.duel
           [Sample.frameAt 1000; Sample.frameAt 2000] Sample.client).
  - discriminate.
  - discriminate.
  - apply (bool_decide_unpack _). vm_compute. exact I.
Defined.

(** That run: the client ends in GameOver, told that all were infected,
    with two zombies on display. *)
Example client_follows_host_run :
  let c' := fold_left onData
              (snd (hostRun Sample.duel
                      [EvFrame (Sample.frameAt 1000);
                       EvFrame (Sample.frameAt 2000)]))
              Sample.client in
  c_gameState c' = GAME_OVER
  /\ c_gameOverReason c' = INFECTED
  /\ c_stats c' = (0%nat, 2%nat)
  /\ map p_id (clientPlayers c') = ["host"; "peer"].
Proof. cbv zeta. repeat split; vm_compute; reflexivity. Qed.

(** ** components/GameCanvas.tsx: the client frame *)

Section ClientFrameFacts.
Context {N : Type} `{Number N}.

(** A loop that alters the objects of an array without repeated
    references alters each of them once. *)
Lemma alter_each_once (g : Player N -> Player N) (ls : list nat) :
  forall (heap : gmap nat (Player N)) l,
    NoDup ls ->
    fold_left (fun hp l0 => alter g l0 hp) ls heap !! l
    = if bool_decide (l ∈ ls) then g <$> heap !! l else heap !! l.
Proof.
  induction ls as [|l0 ls IH]; intros heap l Hnd; cbn [fold_left].
  - rewrite bool_decide_eq_false_2; [reflexivity|]. apply not_elem_of_nil.
  - apply NoDup_cons in Hnd as [Hfresh Hnd]. rewrite IH by exact Hnd.
    destruct (decide (l = l0)) as [-> | Hne].
    + rewrite (bool_decide_eq_false_2 (l0 ∈ ls)) by exact Hfresh.
      rewrite bool_decide_eq_true_2 by left.
      rewrite lookup_alter_eq. reflexivity.
    + rewrite lookup_alter_ne by congruence.
      destruct (bool_decide (l ∈ ls)) eqn:Hin.
      * apply bool_decide_eq_true in Hin.
        rewrite bool_decide_eq_true_2 by (right; exact Hin). reflexivity.
      * apply bool_decide_eq_false in Hin.
        rewrite bool_decide_eq_false_2; [reflexivity|].
        intros Hin'. apply elem_of_cons in Hin' as [?|?]; auto.
Qed.

Lemma updateClient_object (c : Client N) open input l p :
  NoDup (c_players c) -> l ∈ c_players c -> c_heap c !! l = Some p ->
  c_heap (fst (updateClient c open input)) !! l = Some (interpolate p)
  /\ c_players (fst (updateClient c open input)) = c_players c.
Proof.
  intros Hnd Hin Hp. unfold updateClient. cbn [fst c_heap c_players].
  rewrite alter_each_once by exact Hnd.
  rewrite bool_decide_eq_true_2 by exact Hin. rewrite Hp. auto.
Qed.

End ClientFrameFacts.

Section ExactClientFrame.
Local Open Scope R_scope.

Lemma interpolate_exact (p : Player R) tx ty :
  p_targetX p = Some tx -> p_targetY p = Some ty ->
  let q := interpolate p in
  p_x q - tx = 7 / 10 * (p_x p - tx)
  /\ p_y q - ty = 7 / 10 * (p_y p - ty)
  /\ p_targetX q = Some tx /\ p_targetY q = Some ty.
Proof.
  intros Hx Hy. cbv zeta. unfold interpolate. rewrite Hx, Hy.
  unfold lerp, dec. exact_ops. cbn [set_pos p_x p_y p_targetX p_targetY].
  repeat split; auto; lra.
Qed.

(** X19.  Between messages the client closes, in each frame, 30 percent
    of what separates a player from its interpolation target: after [n]
    frames the offset on each axis is 0.7^n times what it was, and the
    target is where it was (exact arithmetic, an array without repeated
    references). *)
Theorem interpolation_converges (c : Client R) (open : bool)
    (input : R * R) (n : nat) (l : nat) (p : Player R) (tx ty : R) :
  NoDup (c_players c) ->
  l ∈ c_players c ->
  c_heap c !! l = Some p ->
  p_targetX p = Some tx ->
  p_targetY p = Some ty ->
  let c' := Nat.iter n (fun c0 => fst (updateClient c0 open input)) c in
  exists q,
    c_heap c' !! l = Some q
    /\ p_x q - tx = (7 / 10) ^ n * (p_x p - tx)
    /\ p_y q - ty = (7 / 10) ^ n * (p_y p - ty)
    /\ p_targetX q = Some tx /\ p_targetY q = Some ty
    /\ c_players c' = c_players c.
Proof.
  intros Hnd Hin Hp Hx Hy. cbv zeta.
  induction n as [|n IH].
  - exists p. cbn [Nat.iter pow]. repeat split; auto; lra.
  - cbn [Nat.iter].
    destruct IH as (q & Hq & Hqx & Hqy & Htx & Hty & Hpl).
    set (cn := Nat.iter n (fun c0 => fst (updateClient c0 open input)) c) in *.
    destruct (updateClient_object cn open input l q) as [Hstep Hpl'];
      [rewrite Hpl; exact Hnd|rewrite Hpl; exact Hin|exact Hq|].
    destruct (interpolate_exact q tx ty Htx Hty) as (H1 & H2 & H3 & H4).
    exists (interpolate q). split; [exact Hstep|].
    cbn [pow]. rewrite H1, H2, Hqx, Hqy.
    split; [lra|]. split; [lra|]. split; [exact H3|]. split; [exact H4|].
    etransitivity; [exact Hpl'|exact Hpl].
Qed.

End ExactClientFrame.

Lemma interpolation_converges_witness :
  let c' := Nat.iter 2 (fun c0 => fst (updateClient c0 false (0, 0)%R))
                     ExactSample.client in
  exists q,
    c_heap c' !! 0%nat = Some q
    /\ (p_x q - 20 = (7 / 10) ^ 2 * (p_x ExactSample.drawn - 20))%R
    /\ (p_y q - 30 = (7 / 10) ^ 2 * (p_y ExactSample.drawn - 30))%R
    /\ p_targetX q = Some 20%R /\ p_targetY q = Some 30%R
    /\ c_players c' = c_players ExactSample.client.
Proof.
  apply (interpolation_converges ExactSample.client false (0, 0)%R 2 0%nat
           ExactSample.drawn 20%R 30%R).
  - apply NoDup_singleton.
  - apply list_elem_of_singleton. reflexivity.
  - apply lookup_singleton_eq.
  - reflexivity.
  - reflexivity.
Defined.

(** ** Input: keyboard and joystick *)

Section ExactInput.
Local Open Scope R_scope.
Import ExactShape.

Lemma neqb_exact (a b : R) : neqb a b = true <-> a = b.
Proof.
  cbn [neqb R_NumberEq]. destruct (Req_dec_T a b); split; intros; easy.
Qed.

Lemma sqrt_le_one (s : R) : s <= 1 -> R_sqrt.sqrt s <= 1.
Proof.
  intros Hs. rewrite <- sqrt_1. apply sqrt_le_1_alt, Hs.
Qed.

Lemma unit_after_division (a b : R) :
  0 < R_sqrt.sqrt (a * a + b * b) ->
  let len := R_sqrt.sqrt (a * a + b * b) in
  R_sqrt.sqrt (a / len * (a / len) + b / len * (b / len)) = 1.
Proof.
  intros Hlen. cbv zeta.
  assert (Hs : 0 <= a * a + b * b) by nra.
  pose proof (sqrt_sqrt _ Hs) as Hsq.
  set (len := R_sqrt.sqrt (a * a + b * b)) in *.
  replace (a / len * (a / len) + b / len * (b / len)) with 1;
    [apply sqrt_1|].
  field_simplify_eq; [lra|lra].
Qed.

(** X20.  Whatever keys are down and whatever the joystick reports, the
    direction [getLocalInput] returns has magnitude at most 1 (exact
    arithmetic). *)
Theorem getLocalInput_in_unit_disc (keys : gmap string bool)
    (joystick : R * R) :
  magnitude (getLocalInput keys joystick) <= 1.
Proof.
  unfold getLocalInput. cbv zeta.
  destruct (if negb (neqb (fst joystick) (ofZ 0)) || _ then joystick else _)
    as [dx dy].
  destruct (negb (neqb dx (ofZ 0)) || negb (neqb dy (ofZ 0))) eqn:Hnz.
  - exact_ops.
    destruct (Exact.ltb 1 (R_sqrt.sqrt (dx * dx + dy * dy))) eqn:Hlong.
    + apply ExactFacts.ltb_true in Hlong.
      unfold magnitude. exact_ops. cbn [fst snd].
      rewrite unit_after_division by lra. lra.
    + apply ExactFacts.ltb_false in Hlong.
      unfold magnitude. exact_ops. cbn [fst snd]. exact Hlong.
  - apply orb_false_iff in Hnz as [Hx Hy].
    apply negb_false_iff, neqb_exact in Hx, Hy.
    exact_ops. subst dx dy. unfold magnitude. exact_ops. cbn [fst snd].
    replace (0 * 0 + 0 * 0) with 0 by ring. rewrite sqrt_0. lra.
Qed.

(** X21.  A joystick that is not at rest and reports a vector of the unit
    disc decides alone: the keys are ignored and the vector is returned as
    it is (exact arithmetic). *)
Theorem joystick_overrides_keys (keys : gmap string bool)
    (joystick : R * R) :
  joystick <> (0, 0) ->
  magnitude joystick <= 1 ->
  getLocalInput keys joystick = joystick.
Proof.
  intros Hnz Hmag. destruct joystick as [jx jy].
  assert (Hb : negb (neqb jx 0) || negb (neqb jy 0) = true).
  { destruct (neqb jx 0) eqn:Hx; [|reflexivity].
    destruct (neqb jy 0) eqn:Hy; [|reflexivity].
    apply neqb_exact in Hx, Hy. subst. contradiction. }
  unfold getLocalInput. cbv zeta. exact_ops. cbn [fst snd].
  rewrite Hb. rewrite Hb.
  unfold magnitude in Hmag. exact_ops. cbn [fst snd] in Hmag.
  destruct (Exact.ltb _ _) eqn:Hlong; [|reflexivity].
  apply ExactFacts.ltb_true in Hlong. lra.
Qed.

(** X22.  While a touch is active, a move hands a vector to the game, of
    magnitude at most 1, and the head of the stick stays within
    [MAX_RADIUS] of its origin; without an active touch a move reports
    nothing and leaves the stick as it is (exact arithmetic, cos and sin
    those of an angle). *)
Theorem joystick_output_in_unit_disc (M : MathLib R) (j : Joystick)
    (touch : R * R) :
  circular M ->
  if j_active j
  then exists out,
         snd (handleTouchMove M j touch) = Some out
         /\ magnitude out <= 1
         /\ magnitude (j_position (fst (handleTouchMove M j touch))) <= 50
  else handleTouchMove M j touch = (j, None).
Proof.
  intros Hcirc. unfold handleTouchMove.
  destruct (j_active j); cbn [negb]; [|reflexivity].
  unfold MAX_RADIUS. exact_ops.
  set (dx := fst touch - fst (j_origin j)).
  set (dy := snd touch - snd (j_origin j)).
  destruct (Exact.ltb 50 (R_sqrt.sqrt (dx * dx + dy * dy))) eqn:Hfar;
    cbn [fst snd j_position]; (eexists; split; [reflexivity|]);
    unfold magnitude; exact_ops; cbn [fst snd].
  - set (a := atan2 M dy dx). pose proof (Hcirc a) as Ha.
    split.
    + apply sqrt_le_one. apply Req_le. rewrite <- Ha. field.
    + replace (cos M a * 50 * (cos M a * 50) + sin M a * 50 * (sin M a * 50))
        with (50 * 50 * (cos M a * cos M a + sin M a * sin M a)) by ring.
      rewrite Ha, Rmult_1_r, sqrt_square by lra. lra.
  - apply ExactFacts.ltb_false in Hfar.
    assert (Hs : 0 <= dx * dx + dy * dy) by nra.
    pose proof (sqrt_sqrt _ Hs) as Hsq.
    pose proof (sqrt_pos (dx * dx + dy * dy)) as Hpos.
    split; [|exact Hfar].
    apply sqrt_le_one.
    replace (dx / 50 * (dx / 50) + dy / 50 * (dy / 50))
      with ((dx * dx + dy * dy) / 2500) by field.
    rewrite <- Hsq. nra.
Qed.

End ExactInput.

Lemma joystick_overrides_keys_witness :
  getLocalInput {[ "ArrowUp" := true ]} (3 / 5, 4 / 5)%R = (3 / 5, 4 / 5)%R.
Proof.
  apply (joystick_overrides_keys {[ "ArrowUp" := true ]} (3 / 5, 4 / 5)%R).
  - intros Heq. injection Heq as Hx Hy. lra.
  - unfold magnitude. exact_ops. cbn [fst snd].
    replace (3 / 5 * (3 / 5) + 4 / 5 * (4 / 5))%R with (1 * 1)%R by lra.
    rewrite sqrt_square by lra. lra.
Defined.

(** A touch that starts at (100, 100) and moves to (190, 220), 150 away:
    the move is reported; the same move on a stick at rest is not. *)
Lemma joystick_output_in_unit_disc_witness :
  let rest := mkJoystick false (0, 0)%R (0, 0)%R in
  let j := handleTouchStart rest (100, 100)%R in
  (exists out,
     snd (handleTouchMove ExactSample.mathLib j (190, 220)%R) = Some out
     /\ (magnitude out <= 1)%R
     /\ (magnitude
           (j_position (fst (handleTouchMove ExactSample.mathLib j
                               (190, 220)%R))) <= 50)%R)
  /\ handleTouchMove ExactSample.mathLib rest (190, 220)%R = (rest, None).
Proof.
  assert (Hcirc : ExactShape.circular ExactSample.mathLib).
  { intros a. cbn [cos sin ExactSample.mathLib].
    pose proof (sin2_cos2 a) as Hsc. unfold Rsqr in Hsc. lra. }
  cbv zeta. split.
  - exact (joystick_output_in_unit_disc ExactSample.mathLib
             (handleTouchStart (mkJoystick false (0, 0) (0, 0))%R
                               (100, 100)%R)
             (190, 220)%R Hcirc).
  - exact (joystick_output_in_unit_disc ExactSample.mathLib
             (mkJoystick false (0, 0) (0, 0))%R (190, 220)%R Hcirc).
Defined.

(** ** The host frame on one player: velocity *)

Section MoveVelocity.
Context {N : Type} `{Number N}.

(** The velocity [movePlayer] leaves is the smoothed and snapped one, for
    the direction asked of that player: the local input for the host's own
    player, the buffered input of the peer, or none. *)
Lemma movePlayer_velocity (h : Host N) input (p : Player N) :
  let asked :=
    if decide (p_id p = h_myId h) then input
    else match h_clientInputs h !! p_id p with
         | Some i => i
         | None => (ofZ 0, ofZ 0)
         end in
  velocity (movePlayer h input p)
  = velocity (snapVelocity (smoothVelocity p (fst asked) (snd asked))).
Proof.
  cbv zeta. unfold movePlayer.
  destruct (if decide (p_id p = h_myId h) then input else _) as [dx dy].
  match goal with |- context [resolveCollision ?q ?o] =>
    destruct (resolveCollision_is_set_pos q o) as (x & y & ->) end.
  reflexivity.
Qed.

End MoveVelocity.

Section ExactMove.
Local Open Scope R_scope.
Import ExactShape.

Lemma abs_le_bounds (a b : R) : Rabs a <= b -> - b <= a <= b.
Proof. unfold Rabs. destruct (Rcase_abs a); lra. Qed.

Lemma snapped_component (a b : R) :
  Rabs a <= 1 -> Rabs b <= 1 ->
  Rabs (if Exact.ltb (Rabs (a + (b - a) * (2 / 10))) (1 / 100)
        then 0 else a + (b - a) * (2 / 10)) <= 1.
Proof.
  intros Ha Hb. destruct (Exact.ltb _ _).
  - rewrite Rabs_R0. lra.
  - apply Rabs_le. apply abs_le_bounds in Ha, Hb. lra.
Qed.

Lemma snapVelocity_exact (p : Player R) (dx dy : R) :
  velocity (snapVelocity (smoothVelocity p dx dy))
  = (if Exact.ltb (Rabs (p_dx p + (dx - p_dx p) * (2 / 10))) (1 / 100)
     then 0 else p_dx p + (dx - p_dx p) * (2 / 10),
     if Exact.ltb (Rabs (p_dy p + (dy - p_dy p) * (2 / 10))) (1 / 100)
     then 0 else p_dy p + (dy - p_dy p) * (2 / 10)).
Proof. reflexivity. Qed.

(** X23.  If the host's own input and every buffered input have both
    components within [-1, 1], a player whose velocity components are
    within [-1, 1] keeps them there through the frame (exact
    arithmetic). *)
Theorem velocity_stays_in_unit_box (h : Host R) (input : R * R)
    (p : Player R) :
  inUnitBox input ->
  (forall peer i, h_clientInputs h !! peer = Some i -> inUnitBox i) ->
  inUnitBox (velocity p) ->
  inUnitBox (velocity (movePlayer h input p)).
Proof.
  intros Hin Hbuf [Hvx Hvy]. cbn [velocity fst snd] in Hvx, Hvy.
  rewrite movePlayer_velocity. cbv zeta.
  set (asked := if decide (p_id p = h_myId h) then input else _).
  assert (Hasked : inUnitBox asked).
  { unfold asked. destruct (decide (p_id p = h_myId h)); [exact Hin|].
    destruct (h_clientInputs h !! p_id p) as [i|] eqn:Hi; [eauto|].
    unfold inUnitBox. cbn. rewrite Rabs_R0. lra. }
  destruct Hasked as [Hax Hay].
  rewrite snapVelocity_exact. unfold inUnitBox. cbn [fst snd].
  split; apply snapped_component; assumption.
Qed.

Lemma decay_exact (h : Host R) (p : Player R) :
  p_id p = h_myId h ->
  velocity (movePlayer h (0, 0) p) = (decay (p_dx p), decay (p_dy p)).
Proof.
  intros Hid. rewrite movePlayer_velocity. cbv zeta.
  destruct (decide (p_id p = h_myId h)); [|contradiction].
  rewrite snapVelocity_exact. reflexivity.
Qed.

Lemma decay_shrinks (a : R) :
  Rabs (decay a) <= 8 / 10 * Rabs a
  /\ (decay a = 0 \/ 1 / 100 <= Rabs (decay a)).
Proof.
  unfold decay. cbv zeta.
  replace (a + (0 - a) * (2 / 10)) with (8 / 10 * a) by lra.
  destruct (Exact.ltb _ _) eqn:Hsmall.
  - rewrite Rabs_R0. pose proof (Rabs_pos a). split; [lra|auto].
  - apply ExactFacts.ltb_false in Hsmall.
    rewrite Rabs_mult, (Rabs_pos_eq (8 / 10)) in * by lra.
    split; [lra|right; exact Hsmall].
Qed.

Lemma decay_iter_bound (n : nat) (a : R) :
  Rabs (Nat.iter n decay a) <= (8 / 10) ^ n * Rabs a.
Proof.
  induction n as [|n IH].
  - change (Nat.iter 0 decay a) with a. cbn [pow]. lra.
  - change (Nat.iter (S n) decay a) with (decay (Nat.iter n decay a)).
    cbn [pow].
    destruct (decay_shrinks (Nat.iter n decay a)) as [Hs _].
    assert (Hp : 0 <= (8 / 10) ^ n) by (apply pow_le; lra).
    nra.
Qed.

Lemma decay_zero : decay 0 = 0.
Proof.
  unfold decay. cbv zeta. destruct (Exact.ltb _ _); lra.
Qed.

Lemma decay_21 (a : R) : Rabs a <= 1 -> Nat.iter 21 decay a = 0.
Proof.
  intros Ha.
  pose proof (decay_iter_bound 21 a) as Hb.
  change (Nat.iter 21 decay a) with (decay (Nat.iter 20 decay a)) in *.
  destruct (decay_shrinks (Nat.iter 20 decay a)) as [_ [Hz | Hbig]];
    [exact Hz|].
  exfalso.
  assert (Hpow : (8 / 10) ^ 21 < 1 / 100) by (cbn [pow]; lra).
  pose proof (Rabs_pos a). nra.
Qed.

Lemma decay_rests (n : nat) (a : R) :
  Rabs a <= 1 -> (21 <= n)%nat -> Nat.iter n decay a = 0.
Proof.
  intros Ha Hn. replace n with ((n - 21) + 21)%nat by lia.
  rewrite Nat.iter_add, decay_21 by exact Ha.
  induction (n - 21)%nat as [|m IH]; [reflexivity|].
  change (Nat.iter (S m) decay 0) with (decay (Nat.iter m decay 0)).
  rewrite IH. apply decay_zero.
Qed.

Lemma movePlayer_iter (h : Host R) (p : Player R) (n : nat) :
  p_id p = h_myId h ->
  p_id (Nat.iter n (movePlayer h (0, 0)) p) = h_myId h
  /\ velocity (Nat.iter n (movePlayer h (0, 0)) p)
     = (Nat.iter n decay (p_dx p), Nat.iter n decay (p_dy p)).
Proof.
  intros Hid. induction n as [|n [IHid IHv]].
  - split; [exact Hid|reflexivity].
  - change (Nat.iter (S n) (movePlayer h (0, 0)) p)
      with (movePlayer h (0, 0) (Nat.iter n (movePlayer h (0, 0)) p)).
    change (Nat.iter (S n) decay (p_dx p))
      with (decay (Nat.iter n decay (p_dx p))).
    change (Nat.iter (S n) decay (p_dy p))
      with (decay (Nat.iter n decay (p_dy p))).
    split.
    + destruct (movePlayer_fields h (0, 0)
                  (Nat.iter n (movePlayer h (0, 0)) p)) as [-> _].
      exact IHid.
    + rewrite decay_exact by exact IHid.
      unfold velocity in IHv. injection IHv as -> ->. reflexivity.
Qed.

(** X24.  Without input the host's own player comes to rest: if its
    velocity components are within [-1, 1], then after 21 frames with no
    local input, and after any number of frames beyond, its velocity is
    exactly (0, 0) (exact arithmetic). *)
Theorem player_rests_without_input (h : Host R) (p : Player R) (n : nat) :
  p_id p = h_myId h ->
  inUnitBox (velocity p) ->
  (21 <= n)%nat ->
  velocity (Nat.iter n (movePlayer h (0, 0)) p) = (0, 0).
Proof.
  intros Hid [Hx Hy] Hn. cbn [velocity fst snd] in Hx, Hy.
  destruct (movePlayer_iter h p n Hid) as [_ ->].
  rewrite !decay_rests by assumption. reflexivity.
Qed.

End ExactMove.

Lemma velocity_stays_in_unit_box_witness :
  ExactShape.inUnitBox
    (velocity (movePlayer ExactSample.lobby (0, 1)%R ExactSample.runner)).
Proof.
  apply (velocity_stays_in_unit_box ExactSample.lobby (0, 1)%R
           ExactSample.runner).
  - unfold ExactShape.inUnitBox. cbn [fst snd].
    rewrite Rabs_R0, Rabs_R1. lra.
  - intros peer i Hi. unfold ExactSample.lobby in Hi.
    cbn [h_clientInputs] in Hi. rewrite lookup_empty in Hi. discriminate.
  - unfold ExactShape.inUnitBox, ExactSample.runner. cbn.
    rewrite Rabs_R0, Rabs_R1. lra.
Defined.

Lemma player_rests_without_input_witness :
  velocity (Nat.iter 30 (movePlayer ExactSample.lobby (0, 0)%R)
                     ExactSample.runner)
  = (0, 0)%R.
Proof.
  apply (player_rests_without_input ExactSample.lobby ExactSample.runner 30).
  - reflexivity.
  - unfold ExactShape.inUnitBox, ExactSample.runner. cbn.
    rewrite Rabs_R0, Rabs_R1. lra.
  - lia.
Defined.

(** ** components/GameCanvas.tsx: spawning *)

Section Spawn.
Context {N : Type} `{Number N}.

Lemma spawnLoop_cases (obstacles : list (Obstacle N)) (rnd : Random)
    (fuel : nat) : forall k x y,
  (exists j, (j < fuel)%nat
             /\ sampleBlocked obstacles rnd (k + 2 * j) = false
             /\ (forall i, (i < j)%nat ->
                           sampleBlocked obstacles rnd (k + 2 * i) = true)
             /\ spawnLoop fuel obstacles rnd k x y
                = (spawnSample rnd (k + 2 * j), (k + 2 * j + 2)%nat))
  \/ ((forall i, (i < fuel)%nat ->
                 sampleBlocked obstacles rnd (k + 2 * i) = true)
      /\ spawnLoop fuel obstacles rnd k x y
         = (match fuel with
            | O => (x, y)
            | S m => spawnSample rnd (k + 2 * m)
            end, (k + 2 * fuel)%nat)).
Proof.
  induction fuel as [|fuel IH]; intros k x y.
  - right. split; [intros i Hi; lia|]. simpl. f_equal. lia.
  - cbn [spawnLoop].
    change (spawnBlocked _ _ obstacles) with (sampleBlocked obstacles rnd k).
    destruct (sampleBlocked obstacles rnd k) eqn:Hb.
    + match goal with |- context [spawnLoop fuel obstacles rnd _ ?a ?b] =>
        destruct (IH (k + 2)%nat a b)
          as [(j & Hj & Hfree & Hbefore & Heq) | (Hall & Heq)] end.
      * left. exists (S j).
        replace (k + 2 * S j)%nat with (k + 2 + 2 * j)%nat by lia.
        split; [lia|]. split; [exact Hfree|]. split; [|exact Heq].
        intros [|i] Hi.
        -- replace (k + 2 * 0)%nat with k by lia. exact Hb.
        -- replace (k + 2 * S i)%nat with (k + 2 + 2 * i)%nat by lia.
           apply Hbefore. lia.
      * right. split.
        -- intros [|i] Hi.
           ++ replace (k + 2 * 0)%nat with k by lia. exact Hb.
           ++ replace (k + 2 * S i)%nat with (k + 2 + 2 * i)%nat by lia.
              apply Hall. lia.
        -- rewrite Heq. f_equal; [|lia].
           destruct fuel as [|m].
           ++ replace (k + 2 * 0)%nat with k by lia. reflexivity.
           ++ f_equal. lia.
    + left. exists O. replace (k + 2 * 0)%nat with k by lia.
      split; [lia|]. split; [exact Hb|]. split; [intros i Hi; lia|].
      reflexivity.
Qed.

(** X25.  [findValidSpawn] returns the first of its samples that lies in
    no obstacle padded by 50, having used two draws per sample up to it;
    if all 100 samples are blocked it returns the last one, blocked as it
    is, after 200 draws. *)
Theorem findValidSpawn_takes_first_clear (obstacles : list (Obstacle N))
    (rnd : Random) (k : nat) :
  (exists j, (j < 100)%nat
             /\ sampleBlocked obstacles rnd (k + 2 * j) = false
             /\ (forall i, (i < j)%nat ->
                           sampleBlocked obstacles rnd (k + 2 * i) = true)
             /\ findValidSpawn obstacles rnd k
                = (spawnSample rnd (k + 2 * j), (k + 2 * j + 2)%nat))
  \/ ((forall i, (i < 100)%nat ->
                 sampleBlocked obstacles rnd (k + 2 * i) = true)
      /\ findValidSpawn obstacles rnd k
         = (spawnSample rnd (k + 198), (k + 200)%nat)).
Proof.
  unfold findValidSpawn.
  destruct (spawnLoop_cases obstacles rnd 100 k (ofZ 0) (ofZ 0))
    as [Hfound | (Hall & Heq)]; [left; exact Hfound|].
  right. split; [exact Hall|]. rewrite Heq. reflexivity.
Qed.

Lemma findValidSpawn_is_sample (obstacles : list (Obstacle N))
    (rnd : Random) (k : nat) :
  exists j, fst (findValidSpawn obstacles rnd k) = spawnSample rnd j.
Proof.
  unfold findValidSpawn.
  destruct (spawnLoop_cases obstacles rnd 100 k (ofZ 0) (ofZ 0))
    as [(j & _ & _ & _ & ->) | (_ & ->)]; eauto.
Qed.

Lemma createPlayer_fields (id name : string) (role : Role)
    (obstacles : list (Obstacle N)) (rnd : Random) (k : nat) :
  let p := fst (createPlayer id name role obstacles rnd k) in
  p_id p = id /\ p_nickname p = name /\ p_role p = role
  /\ p_isBot p = false /\ p_radius p = PLAYER_RADIUS
  /\ velocity p = (ofZ 0, ofZ 0)
  /\ (p_x p, p_y p) = fst (findValidSpawn obstacles rnd k).
Proof.
  cbv zeta. unfold createPlayer.
  destruct (findValidSpawn obstacles rnd k) as [[x y] k1]. cbn. auto 10.
Qed.

End Spawn.

Section ExactSpawn.
Local Open Scope R_scope.
Import ExactShape.

(** X26.  With draws in [0, 1) a created player stands at least 100 from
    every edge of the map, whatever the obstacles, and is not a bot: it
    has the identity, nickname and role it was created with, the player
    radius, and no velocity (exact arithmetic). *)
Theorem created_player_in_the_map (id name : string) (role : Role)
    (obstacles : list (Obstacle R)) (rnd : nat -> R) (k : nat) :
  unitDraws rnd ->
  let p := fst (createPlayer id name role obstacles rnd k) in
  100 <= p_x p < 2400 /\ 100 <= p_y p < 2400
  /\ p_id p = id /\ p_nickname p = name /\ p_role p = role
  /\ p_isBot p = false /\ p_radius p = 15 /\ velocity p = (0, 0).
Proof.
  intros Hrnd. cbv zeta.
  destruct (createPlayer_fields id name role obstacles rnd k)
    as (Hid & Hnick & Hrole & Hbot & Hrad & Hvel & Hpos).
  destruct (findValidSpawn_is_sample obstacles rnd k) as (j & Hj).
  rewrite Hj in Hpos. unfold spawnSample, MAP_WIDTH, MAP_HEIGHT in Hpos.
  exact_ops. injection Hpos as Hx Hy.
  pose proof (Hrnd j) as H0. pose proof (Hrnd (j + 1)%nat) as H1.
  rewrite Hx, Hy. repeat split; auto; lra.
Qed.

End ExactSpawn.

Lemma created_player_in_the_map_witness :
  let p := fst (createPlayer "a" "Ann" SURVIVOR [ExactSample.block]
                             ExactSample.halves 0) in
  (100 <= p_x p < 2400)%R /\ (100 <= p_y p < 2400)%R
  /\ p_id p = "a" /\ p_nickname p = "Ann" /\ p_role p = SURVIVOR
  /\ p_isBot p = false /\ p_radius p = 15%R /\ velocity p = (0, 0)%R.
Proof.
  apply (created_player_in_the_map "a" "Ann" SURVIVOR [ExactSample.block]
           ExactSample.halves 0).
  intros k. unfold ExactSample.halves. lra.
Defined.

(** ** components/GameCanvas.tsx: the session of the host *)

Ltac session_fields :=
  cbn [fst snd withHost withPlayers s_host h_gameState h_players s_timers
       s_connections s_countdown phaseRank].

Section SessionFacts.
Context {N : Type} `{Number N}.

Lemma survivors_moved_all (h : Host N) input (ps : list (Player N)) :
  forallb isSurvivor (map (movePlayer h input) ps) = forallb isSurvivor ps.
Proof.
  induction ps as [|p ps IH]; [reflexivity|]. cbn [map forallb].
  rewrite IH. f_equal. unfold isSurvivor.
  destruct (movePlayer_fields h input p) as [_ ->]. reflexivity.
Qed.

Lemma survivors_filtered (peer : string) (ps : list (Player N)) :
  forallb isSurvivor ps = true ->
  forallb isSurvivor (filter (fun p => p_id p <> peer) ps) = true.
Proof.
  induction ps as [|p ps IH]; [reflexivity|]. cbn [forallb].
  intros [Hp Hps]%andb_true_iff. rewrite filter_cons.
  destruct (decide (p_id p <> peer)); [|auto].
  cbn [forallb]. rewrite Hp. auto.
Qed.

(** What a frame does to the phase. *)
Lemma updateHost_phase (h : Host N) f :
  let h' := fst (updateHost h f) in
  match h_gameState h with
  | LOBBY | COUNTDOWN =>
    h_gameState h' = h_gameState h
    /\ forallb isSurvivor (h_players h') = forallb isSurvivor (h_players h)
    /\ length (h_players h') = length (h_players h)
  | PLAYING => h_gameState h' = PLAYING \/ h_gameState h' = GAME_OVER
  | GAME_OVER => h' = h
  end.
Proof.
  cbv zeta. destruct (h_gameState h) eqn:Hst.
  - destruct (updateHost_idle h f) as (-> & _ & -> & _); [auto|].
    rewrite survivors_moved_all, length_map. auto.
  - destruct (updateHost_idle h f) as (-> & _ & -> & _); [auto|].
    rewrite survivors_moved_all, length_map. auto.
  - destruct (expired h (f_now f)) eqn:Hexp.
    + destruct (updateHost_expired h f Hst Hexp) as (_ & _ & _ & -> & _).
      auto.
    + destruct (updateHost_playing h f Hst Hexp) as (_ & _ & _ & -> & _).
      match goal with |- context [if ?b then _ else _] => destruct b end;
        auto.
  - rewrite updateHost_over by exact Hst. reflexivity.
Qed.

(** One event keeps the invariant of the session and never takes the
    phase back. *)
Lemma sessionStep_inv (s : Session N) (e : SessionEvent) :
  sessionInv s ->
  sessionInv (fst (sessionStep s e))
  /\ (phaseRank (h_gameState (s_host s))
      <= phaseRank (h_gameState (s_host (fst (sessionStep s e)))))%nat.
Proof.
  intros [Hphase Hsurv].
  destruct e as [peer | peer nickname rnd k | peer dx dy | peer
                 | i now zombieIdx | f]; cbn [sessionStep].
  - (* connection *)
    cbn. split; [split; assumption | lia].
  - (* JOIN *)
    unfold onJoin.
    destruct (createPlayer_fields peer nickname SURVIVOR
                (h_obstacles (s_host s)) rnd k)
      as (_ & _ & Hrole & _).
    destruct (createPlayer peer nickname SURVIVOR (h_obstacles (s_host s))
                rnd k) as [newPlayer k1].
    cbn [fst] in Hrole. cbn [fst snd withHost withPlayers s_host h_gameState
                             h_players s_timers s_connections].
    assert (Hall : forallb isSurvivor (h_players (s_host s)) = true ->
                   forallb isSurvivor (h_players (s_host s) ++ [newPlayer])
                   = true).
    { intros Hps. rewrite forallb_app, Hps. cbn. unfold isSurvivor.
      rewrite Hrole. reflexivity. }
    destruct (h_gameState (s_host s)) eqn:Hst; cbn [phaseRank] in *.
    + destruct Hphase as [Hlen Htimers].
      rewrite bool_decide_eq_true_2 by reflexivity. cbn [andb].
      rewrite length_app. cbn [length].
      destruct (2 <=? length (h_players (s_host s)) + 1)%nat eqn:Hcount.
      * unfold startCountdown, sessionInv.
        session_fields.
        rewrite Htimers. split; [|lia]. split.
        -- exists COUNTDOWN_TIME. split; [reflexivity|].
           unfold COUNTDOWN_TIME. lia.
        -- intros _. apply Hall, Hsurv. lia.
      * apply Nat.leb_gt in Hcount. unfold sessionInv.
        session_fields.
        rewrite ?Hst. rewrite length_app. cbn [length phaseRank].
        split; [|lia]. split; [split; [lia | exact Htimers]|].
        intros _. apply Hall, Hsurv. lia.
    + rewrite bool_decide_eq_false_2 by discriminate. cbn [andb].
      unfold sessionInv.
      session_fields.
      rewrite ?Hst. cbn [phaseRank]. split; [|lia].
      split; [exact Hphase|]. intros _. apply Hall, Hsurv. lia.
    + rewrite bool_decide_eq_false_2 by discriminate. cbn [andb].
      unfold sessionInv.
      session_fields.
      rewrite ?Hst. cbn [phaseRank]. split; [|lia].
      split; [exact Hphase|]. intros Hle. lia.
    + rewrite bool_decide_eq_false_2 by discriminate. cbn [andb].
      unfold sessionInv.
      session_fields.
      rewrite ?Hst. cbn [phaseRank]. split; [|lia].
      split; [exact Hphase|]. intros Hle. lia.
  - (* INPUT *)
    cbn. split; [split; assumption | lia].
  - (* close *)
    unfold onClose, sessionInv.
    session_fields.
    split; [|lia]. split.
    + destruct (h_gameState (s_host s)); try exact Hphase.
      destruct Hphase as [Hlen Htimers]. split; [|exact Htimers].
      etransitivity; [apply length_filter | exact Hlen].
    + intros Hle. apply survivors_filtered, Hsurv, Hle.
  - (* the interval *)
    unfold onTimer.
    destruct (h_gameState (s_host s)) eqn:Hst; cbn [phaseRank] in *.
    + destruct Hphase as [Hlen Htimers]. rewrite Htimers, lookup_nil.
      cbn [fst]. rewrite ?Hst. cbn [phaseRank]. split; [|lia].
      unfold sessionInv. rewrite ?Hst. cbn [phaseRank]. auto.
    + destruct Hphase as (count & Htimers & Hpos). rewrite Htimers.
      destruct i as [|i];
        [change ([count] !! O) with (Some count)
        |change ([count] !! S i) with (@nil Z !! i); rewrite lookup_nil].
      * cbv beta iota zeta. destruct (count - 1 <=? 0)%Z eqn:Hlast.
        -- unfold sessionInv, startGame.
           session_fields.
           split; [|lia]. split; [reflexivity|]. intros Hle. lia.
        -- apply Z.leb_gt in Hlast. unfold sessionInv.
           session_fields.
           rewrite ?Hst. cbn [phaseRank]. split; [|lia]. split.
           ++ exists (count - 1)%Z. split; [reflexivity | lia].
           ++ exact Hsurv.
      * cbn [fst]. rewrite ?Hst. cbn [phaseRank].
        split; [|lia]. unfold sessionInv. rewrite ?Hst. cbn [phaseRank].
        split; [eauto | exact Hsurv].
    + rewrite Hphase, lookup_nil. cbn [fst]. rewrite ?Hst. cbn [phaseRank].
      split; [|lia]. unfold sessionInv. rewrite ?Hst. cbn [phaseRank]. auto.
    + rewrite Hphase, lookup_nil. cbn [fst]. rewrite ?Hst. cbn [phaseRank].
      split; [|lia]. unfold sessionInv. rewrite ?Hst. cbn [phaseRank]. auto.
  - (* a frame *)
    pose proof (updateHost_phase (s_host s) f) as Hframe. cbv zeta in Hframe.
    destruct (updateHost (s_host s) f) as [h1 out]. cbn [fst] in *.
    unfold sessionInv. cbn [withHost s_host s_timers].
    destruct (h_gameState (s_host s)) eqn:Hst; cbn [phaseRank] in *.
    + destruct Hframe as (-> & -> & ->). cbn [phaseRank].
      split; [|lia]. split; [exact Hphase | exact Hsurv].
    + destruct Hframe as (-> & -> & _). cbn [phaseRank].
      split; [|lia]. split; [exact Hphase | exact Hsurv].
    + destruct Hframe as [-> | ->]; cbn [phaseRank];
        (split; [|lia]); (split; [exact Hphase|]); intros Hle; lia.
    + subst h1. rewrite ?Hst. cbn [phaseRank]. split; [|lia].
      split; [exact Hphase|]. intros Hle. lia.
Qed.

Lemma sessionRun_inv (es : list SessionEvent) : forall s : Session N,
  sessionInv s ->
  sessionInv (sessionRun s es)
  /\ (phaseRank (h_gameState (s_host s))
      <= phaseRank (h_gameState (s_host (sessionRun s es))))%nat.
Proof.
  induction es as [|e es IH]; intros s Hinv;
    [split; [exact Hinv | cbn [sessionRun]; lia]|].
  cbn [sessionRun].
  destruct (sessionStep_inv s e Hinv) as [Hinv1 Hle1].
  destruct (IH _ Hinv1) as [Hinv2 Hle2]. split; [exact Hinv2 | lia].
Qed.

Lemma sessionRun_app (es1 es2 : list SessionEvent) : forall s : Session N,
  sessionRun s (es1 ++ es2) = sessionRun (sessionRun s es1) es2.
Proof.
  induction es1 as [|e es1 IH]; intros s; [reflexivity|].
  cbn [app sessionRun]. apply IH.
Qed.

Lemma openHost_inv (id nickname : string) (obstacles : list (Obstacle N))
    (rnd : Random) (k : nat) :
  sessionInv (openHost id nickname obstacles rnd k)
  /\ h_gameState (s_host (openHost id nickname obstacles rnd k)) = LOBBY
  /\ length (h_players (s_host (openHost id nickname obstacles rnd k))) = 1%nat.
Proof.
  unfold openHost.
  destruct (createPlayer_fields id nickname SURVIVOR obstacles rnd k)
    as (_ & _ & Hrole & _).
  destruct (createPlayer id nickname SURVIVOR obstacles rnd k)
    as [hostPlayer k1].
  cbn [fst] in Hrole. unfold sessionInv. cbn. unfold isSurvivor.
  rewrite Hrole. cbn. repeat split; auto.
Qed.

(** X27.  Whatever the events (connections, JOIN and INPUT packets,
    closed connections, firings of intervals, frames), the phase of a
    session that began with [openHost] never goes back: LOBBY, COUNTDOWN,
    PLAYING, GAME_OVER in this order. *)
Theorem phase_never_goes_back (id nickname : string)
    (obstacles : list (Obstacle N)) (rnd : Random) (k : nat)
    (es1 es2 : list SessionEvent) :
  let s1 := sessionRun (openHost id nickname obstacles rnd k) es1 in
  let s2 := sessionRun s1 es2 in
  (phaseRank (h_gameState (s_host s1))
   <= phaseRank (h_gameState (s_host s2)))%nat
  /\ s2 = sessionRun (openHost id nickname obstacles rnd k) (es1 ++ es2).
Proof.
  cbv zeta. split; [|symmetry; apply sessionRun_app].
  destruct (openHost_inv id nickname obstacles rnd k) as (Hinv & _).
  destruct (sessionRun_inv es1 _ Hinv) as [Hinv1 _].
  apply (sessionRun_inv es2 _ Hinv1).
Qed.

(** X28.  In every session the events can lead to from [openHost]: at
    most one countdown interval runs, and one runs exactly during
    COUNTDOWN, with a positive count; a lobby holds at most one player,
    so the condition under which the host draws its FORCE START button
    (LOBBY with more than one player) never holds; and nobody is a zombie
    before the match starts. *)
Theorem session_invariants (id nickname : string)
    (obstacles : list (Obstacle N)) (rnd : Random) (k : nat)
    (es : list SessionEvent) :
  let s := sessionRun (openHost id nickname obstacles rnd k) es in
  let h := s_host s in
  (length (s_timers s) <= 1)%nat
  /\ (h_gameState h = COUNTDOWN <->
      exists count, s_timers s = [count] /\ (0 < count)%Z)
  /\ (h_gameState h = LOBBY -> (length (h_players h) <= 1)%nat)
  /\ (h_gameState h = LOBBY \/ h_gameState h = COUNTDOWN ->
      forallb isSurvivor (h_players h) = true).
Proof.
  cbv zeta.
  destruct (openHost_inv id nickname obstacles rnd k) as (Hinv & _).
  destruct (sessionRun_inv es _ Hinv) as [[Hphase Hsurv] _].
  set (s := sessionRun _ es) in *.
  destruct (h_gameState (s_host s)) eqn:Hst; cbn [phaseRank] in *.
  - destruct Hphase as [Hlen Htimers]. rewrite Htimers. cbn [length].
    split; [lia|]. split; [|split; [auto | intros _; apply Hsurv; lia]].
    split; [discriminate | intros (count & Hc & _); discriminate].
  - destruct Hphase as (count & Htimers & Hpos). rewrite Htimers.
    cbn [length]. split; [lia|].
    split; [split; eauto|]. split; [discriminate|].
    intros _. apply Hsurv. lia.
  - rewrite Hphase. cbn [length]. split; [lia|].
    split; [split; [discriminate | intros (count & Hc & _); discriminate]|].
    split; [discriminate | intros [Hc | Hc]; discriminate].
  - rewrite Hphase. cbn [length]. split; [lia|].
    split; [split; [discriminate | intros (count & Hc & _); discriminate]|].
    split; [discriminate | intros [Hc | Hc]; discriminate].
Qed.

End SessionFacts.

Section Countdown.
Context {N : Type} `{Number N}.

(** One event during the countdown: only a firing of the interval moves
    the count, and the one that brings it to 0 starts the match. *)
Lemma countdown_step (s : Session N) (e : SessionEvent) (count : Z) :
  h_gameState (s_host s) = COUNTDOWN -> s_timers s = [count] ->
  let s' := fst (sessionStep s e) in
  if isTick e
  then if (count - 1 <=? 0)%Z
       then h_gameState (s_host s') = PLAYING
       else h_gameState (s_host s') = COUNTDOWN
            /\ s_timers s' = [(count - 1)%Z]
            /\ s_countdown s' = (count - 1)%Z
  else h_gameState (s_host s') = COUNTDOWN
       /\ s_timers s' = [count]
       /\ s_countdown s' = s_countdown s.
Proof.
  intros Hst Htimers. cbv zeta.
  destruct e as [peer | peer nickname rnd k | peer dx dy | peer
                 | i now zombieIdx | f]; cbn [sessionStep isTick].
  - cbn. auto.
  - unfold onJoin.
    destruct (createPlayer peer nickname SURVIVOR (h_obstacles (s_host s))
                rnd k) as [newPlayer k1].
    session_fields. rewrite Hst.
    rewrite bool_decide_eq_false_2 by discriminate. cbn [andb].
    session_fields. auto.
  - cbn. auto.
  - cbn. auto.
  - unfold onTimer. rewrite Htimers. destruct i as [|i].
    + change ([count] !! O) with (Some count). cbv beta iota zeta.
      destruct (count - 1 <=? 0)%Z; [reflexivity|].
      session_fields. auto.
    + change ([count] !! S i) with (@nil Z !! i). rewrite lookup_nil.
      cbn [fst]. auto.
  - pose proof (updateHost_phase (s_host s) f) as Hframe.
    cbv zeta in Hframe. rewrite Hst in Hframe.
    destruct Hframe as (Hsame & _).
    destruct (updateHost (s_host s) f) as [h1 out]. cbn [fst] in *.
    session_fields. auto.
Qed.

Lemma ticks_cons (e : @SessionEvent N) es :
  ticks (e :: es) = ((if isTick e then 1 else 0) + ticks es)%nat.
Proof. unfold ticks. cbn [List.filter]. destruct (isTick e); reflexivity. Qed.

Lemma countdown_run (es : list SessionEvent) : forall (s : Session N) count,
  sessionInv s -> h_gameState (s_host s) = COUNTDOWN ->
  s_timers s = [count] -> (0 < count)%Z ->
  let s' := sessionRun s es in
  ((Z.of_nat (ticks es) < count)%Z ->
   h_gameState (s_host s') = COUNTDOWN
   /\ s_countdown s'
      = match ticks es with
        | O => s_countdown s
        | S _ => (count - Z.of_nat (ticks es))%Z
        end)
  /\ ((count <= Z.of_nat (ticks es))%Z ->
      (2 <= phaseRank (h_gameState (s_host s')))%nat).
Proof.
  induction es as [|e es IH]; intros s count Hinv Hst Htimers Hpos; cbv zeta.
  - cbn [sessionRun]. unfold ticks. cbn. split; [auto | lia].
  - cbn [sessionRun]. rewrite ticks_cons.
    pose proof (countdown_step s e count Hst Htimers) as Hstep.
    cbv zeta in Hstep.
    destruct (sessionStep_inv s e Hinv) as [Hinv1 _].
    destruct (isTick e).
    + destruct (count - 1 <=? 0)%Z eqn:Hlast.
      * apply Z.leb_le in Hlast. split; [lia|]. intros _.
        destruct (sessionRun_inv es _ Hinv1) as [_ Hle].
        rewrite Hstep in Hle. exact Hle.
      * apply Z.leb_gt in Hlast.
        destruct Hstep as (Hst1 & Htimers1 & Hcount1).
        destruct (IH _ (count - 1)%Z Hinv1 Hst1 Htimers1 ltac:(lia))
          as [Hbefore Hafter].
        split.
        -- intros Hlt. destruct Hbefore as [-> ->]; [lia|].
           split; [reflexivity|]. cbn [Nat.add].
           destruct (ticks es); [rewrite Hcount1|]; lia.
        -- intros Hge. apply Hafter. lia.
    + destruct Hstep as (Hst1 & Htimers1 & Hcount1).
      destruct (IH _ count Hinv1 Hst1 Htimers1 Hpos) as [Hbefore Hafter].
      cbn [Nat.add]. rewrite <- Hcount1. split; assumption.
Qed.

(** X29.  In a lobby with one player a JOIN starts the countdown, and
    whatever happens next (more JOINs, closed connections, inputs,
    frames), the match is in COUNTDOWN, showing 5 minus the number of
    firings of the interval, until the fifth firing; from the fifth
    firing on it is PLAYING or GAME_OVER. *)
Theorem countdown_takes_five_ticks (s : Session N)
    (peer nickname : string) (rnd : Random) (k : nat)
    (es : list SessionEvent) :
  sessionInv s -> h_gameState (s_host s) = LOBBY ->
  length (h_players (s_host s)) = 1%nat ->
  let s' := sessionRun s (SJoin peer nickname rnd k :: es) in
  ((ticks es < 5)%nat ->
   h_gameState (s_host s') = COUNTDOWN
   /\ s_countdown s' = (5 - Z.of_nat (ticks es))%Z)
  /\ ((5 <= ticks es)%nat ->
      (2 <= phaseRank (h_gameState (s_host s')))%nat).
Proof.
  intros Hinv Hst Hone. cbv zeta. cbn [sessionRun].
  destruct (sessionStep_inv s (SJoin peer nickname rnd k) Hinv)
    as [Hinv1 _].
  assert (Hjoined :
            h_gameState (s_host (fst (sessionStep s
                                        (SJoin peer nickname rnd k))))
            = COUNTDOWN
            /\ s_timers (fst (sessionStep s (SJoin peer nickname rnd k)))
               = [COUNTDOWN_TIME]
            /\ s_countdown (fst (sessionStep s (SJoin peer nickname rnd k)))
               = COUNTDOWN_TIME).
  { destruct Hinv as [Hphase _]. rewrite Hst in Hphase.
    destruct Hphase as [_ Htimers].
    cbn [sessionStep]. unfold onJoin.
    destruct (createPlayer peer nickname SURVIVOR (h_obstacles (s_host s))
                rnd k) as [newPlayer k1].
    session_fields. rewrite Hst, length_app, Hone.
    rewrite bool_decide_eq_true_2 by reflexivity. cbn [length Nat.add].
    cbn [andb Nat.leb]. unfold startCountdown. session_fields.
    rewrite Htimers. auto. }
  destruct Hjoined as (Hst1 & Htimers1 & Hcount1).
  destruct (countdown_run es _ COUNTDOWN_TIME Hinv1 Hst1 Htimers1
              ltac:(unfold COUNTDOWN_TIME; lia)) as [Hbefore Hafter].
  unfold COUNTDOWN_TIME in *. split.
  - intros Hlt. destruct Hbefore as [-> ->]; [lia|].
    split; [reflexivity|]. destruct (ticks es); [rewrite Hcount1|]; lia.
  - intros Hge. apply Hafter. lia.
Qed.

(** X30.  A JOIN appends the newcomer, a survivor, to the players of the
    host and starts the countdown when it makes the second player of a
    lobby; the one packet it sends is a Welcome to the newcomer, and a
    client that receives it holds the players of the host, the newcomer
    among them, its obstacles and its phase, the countdown included. *)
Theorem join_welcomes_with_the_roster (s : Session N)
    (peer nickname : string) (rnd : Random) (k : nat) (c : Client N) :
  let s' := fst (onJoin s peer nickname rnd k) in
  let newcomer :=
    fst (createPlayer peer nickname SURVIVOR (h_obstacles (s_host s))
                      rnd k) in
  h_players (s_host s') = h_players (s_host s) ++ [newcomer]
  /\ h_gameState (s_host s')
     = (if bool_decide (h_gameState (s_host s) = LOBBY)
           && (1 <=? length (h_players (s_host s)))%nat
        then COUNTDOWN else h_gameState (s_host s))
  /\ exists payload,
       snd (onJoin s peer nickname rnd k) = [(peer, PktWelcome payload)]
       /\ clientPlayers (onData c (PktWelcome payload))
          = h_players (s_host s')
       /\ c_obstacles (onData c (PktWelcome payload))
          = h_obstacles (s_host s)
       /\ c_gameState (onData c (PktWelcome payload))
          = h_gameState (s_host s').
Proof.
  cbv zeta. unfold onJoin.
  destruct (createPlayer peer nickname SURVIVOR (h_obstacles (s_host s))
              rnd k) as [newPlayer k1].
  session_fields. rewrite length_app. cbn [length].
  replace (2 <=? length (h_players (s_host s)) + 1)%nat
    with (1 <=? length (h_players (s_host s)))%nat
    by (destruct (h_players (s_host s)) as [|p0 ps]; cbn [length];
        [reflexivity|]; symmetry; apply Nat.leb_le; lia).
  assert (Hwelcome : forall payload : StatePayload N,
            clientPlayers (onData c (PktWelcome payload))
            = sp_players payload
            /\ c_obstacles (onData c (PktWelcome payload))
               = sp_obstacles payload
            /\ c_gameState (onData c (PktWelcome payload))
               = sp_gameState payload).
  { intros payload. cbn [onData]. unfold onWelcome, clientPlayers.
    pose proof (allocAll_reads (sp_players payload) (c_heap c)) as Hread.
    destruct (allocAll (c_heap c) (sp_players payload)) as [heap1 players1].
    cbn in *. auto. }
  destruct (bool_decide (h_gameState (s_host s) = LOBBY)
            && (1 <=? length (h_players (s_host s)))%nat).
  - unfold startCountdown. session_fields.
    split; [reflexivity|]. split; [reflexivity|].
    eexists. split; [reflexivity|]. apply Hwelcome.
  - session_fields. split; [reflexivity|]. split; [reflexivity|].
    eexists. split; [reflexivity|]. apply Hwelcome.
Qed.

End Countdown.

Lemma countdown_takes_five_ticks_witness :
  let s := openHost "host" "Hana" [] Sample.draws 0 in
  let es := [STimer 0 1000 0; SFrame (Sample.frameAt 1016);
             STimer 0 2000 0] in
  let s' := sessionRun s (SJoin "peer" "Ann" Sample.draws 2 :: es) in
  ((ticks es < 5)%nat ->
   h_gameState (s_host s') = COUNTDOWN
   /\ s_countdown s' = (5 - Z.of_nat (ticks es))%Z)
  /\ ((5 <= ticks es)%nat ->
      (2 <= phaseRank (h_gameState (s_host s')))%nat).
Proof.
  apply (countdown_takes_five_ticks
           (openHost "host" "Hana" [] Sample.draws 0) "peer" "Ann"
           Sample.draws 2);
    apply (openHost_inv "host" "Hana" [] Sample.draws 0).
Defined.
